(** * metatools debugger control plane: breakpoints and stream hijacking

    A shallow embedding of [shared/tools/debug/breakpoint.py] and
    [shared/tools/debug/hijack.py].  Python objects live in an explicit
    object store and are named by their address, so that the class-level
    indices and the callers share one mutable [Breakpoint]; dictionaries
    are [gmap]s, Python sets are [gset]s, and every statement that can
    raise does so through an explicit outcome type. *)

From stdpp Require Import gmap strings list.

(** ** Python exceptions and outcomes *)

(** The exceptions the two modules can meet.  [EvalFailure] stands for
    whatever a breakpoint condition raises when evaluated, and
    [TargetUnavailable] for the failure of [getThreadState] on a thread
    without interpreter state.  [BadReference] is not a Python exception:
    it marks an address outside the object store, which a Python reference
    never is. *)
Inductive exn : Type :=
| TypeError
| KeyError
| AttributeError
| NameError
| RuntimeError
| EvalFailure
| TargetUnavailable
| BadReference.

#[global] Instance exn_eq_dec : EqDecision exn.
Proof. solve_decision. Defined.

(** Result of a computation that reads but does not write the store. *)
Inductive res (A : Type) : Type :=
| Val (a : A)
| Exc (e : exn).
Arguments Val {A} a.
Arguments Exc {A} e.

(** Result of a computation over a store [S]: the store is kept on both
    exits, since whatever was written before a [raise] stays written. *)
Inductive outcome (S A : Type) : Type :=
| Return (a : A) (s : S)
| Raise (e : exn) (s : S).
Arguments Return {S A} a s.
Arguments Raise {S A} e s.

Definition final_store {S A} (o : outcome S A) : S :=
  match o with
  | Return _ s => s
  | Raise _ s => s
  end.

(** ** Breakpoints *)

Module Breakpoint.

(** Address of a [Breakpoint] instance (its object identity). *)
Definition addr := positive.

(** An interested party: any hashable object; [None] is the default of
    [relevant_breakpoints]. *)
Definition party := option nat.

(** Second component of [Breakpoint.location]:
    [self.function_name or self.line_number]. *)
Inductive selector : Type :=
| ByLine (n : Z)
| ByName (s : string)
| ByNone.

(** Keys met by the [_break_locations] dictionary: the tuples stored by
    [_add] and computed from frames, and the plain strings
    [resolve_breakpoints] subscripts it with.  A string never equals a
    tuple. *)
Inductive pykey : Type :=
| KeyTuple (file : string) (sel : selector)
| KeyStr (s : string).

#[global] Instance selector_eq_dec : EqDecision selector.
Proof. solve_decision. Defined.

#[global] Instance pykey_eq_dec : EqDecision pykey.
Proof. solve_decision. Defined.

Definition selector_to_sum (x : selector) : Z + string + unit :=
  match x with
  | ByLine n => inl (inl n)
  | ByName s => inl (inr s)
  | ByNone => inr tt
  end.

Definition selector_of_sum (x : Z + string + unit) : selector :=
  match x with
  | inl (inl n) => ByLine n
  | inl (inr s) => ByName s
  | inr _ => ByNone
  end.

#[global] Instance selector_countable : Countable selector.
Proof.
  apply (inj_countable' selector_to_sum selector_of_sum).
  by intros [].
Defined.

Definition pykey_to_sum (k : pykey) : string * selector + string :=
  match k with
  | KeyTuple f x => inl (f, x)
  | KeyStr s => inr s
  end.

Definition pykey_of_sum (k : string * selector + string) : pykey :=
  match k with
  | inl (f, x) => KeyTuple f x
  | inr s => KeyStr s
  end.

#[global] Instance pykey_countable : Countable pykey.
Proof.
  apply (inj_countable' pykey_to_sum pykey_of_sum).
  by intros [].
Defined.

(** The slots of a [Breakpoint].  [_id] is [None] while the slot is unset
    (reading it raises [AttributeError]); [enabled] and [ignored] are the
    two [defaultdict]s; [condition] is [None] or the expression string. *)
Record breakpoint : Type := mkBreakpoint {
  _id : option Z;
  _filename : string;
  _line_number : option Z;
  _function_name : string;
  temporary : bool;
  condition : option string;
  hits : Z;
  enabled : gmap party bool;
  ignored : gmap party Z;
  note : string
}.

(** The [location] argument of the constructor, as [int(location)] sees
    it: [IntLike n] when the conversion yields [n], [NotInt s] for a string
    on which it raises [ValueError]. *)
Inductive location_arg : Type :=
| IntLike (n : Z)
| NotInt (s : string).

Definition __init__ (filename : string) (location : location_arg)
    (temporary : bool) (condition : option string) (note : string) : breakpoint :=
  {| _id := None;
     _filename := filename;
     _line_number := match location with IntLike n => Some n | NotInt _ => None end;
     _function_name := match location with IntLike _ => "" | NotInt s => s end;
     temporary := temporary;
     condition := condition;
     hits := 0;
     enabled := ∅;
     ignored := ∅;
     note := note |}.

Definition filename (self : breakpoint) : string := _filename self.
Definition line_number (self : breakpoint) : option Z := _line_number self.
Definition function_name (self : breakpoint) : string := _function_name self.

(** Truth value of a Python string: empty is false. *)
Definition str_truthy (s : string) : bool := negb (String.eqb s "").

(** [(self.filename, self.function_name or self.line_number)] *)
Definition location (self : breakpoint) : pykey :=
  KeyTuple (filename self)
    (if str_truthy (function_name self) then ByName (function_name self)
     else match line_number self with
          | Some n => ByLine n
          | None => ByNone
          end).

(** Class attributes and the object store. *)
Record registry : Type := mkRegistry {
  _id_counter : Z;
  _instances : gmap Z addr;
  _break_locations : gmap pykey (gset addr);
  objects : gmap addr breakpoint
}.

(** State of the class when the module has just been loaded. *)
Definition fresh_registry : registry :=
  {| _id_counter := 0; _instances := ∅; _break_locations := ∅; objects := ∅ |}.


(** *** The store monad *)

Definition M (A : Type) : Type := registry → outcome registry A.

Definition ret {A} (a : A) : M A := fun st => Return a st.

Definition raise {A} (e : exn) : M A := fun st => Raise e st.

Definition bind {A B} (k : A → M B) (m : M A) : M B :=
  fun st =>
    match m st with
    | Return a st' => k a st'
    | Raise e st' => Raise e st'
    end.

#[global] Instance M_ret : MRet M := @ret.
#[global] Instance M_bind : MBind M := @bind.

(** [try: body  except: handler] with a bare [except]. *)
Definition try_except {A} (body : M A) (handler : M A) : M A :=
  fun st =>
    match body st with
    | Return a st' => Return a st'
    | Raise _ st' => handler st'
    end.

Definition get : M registry := fun st => Return st st.

Definition lift {A} (r : res A) : M A :=
  match r with
  | Val a => ret a
  | Exc e => raise e
  end.

(** Dereference an instance. *)
Definition load (a : addr) : M breakpoint :=
  fun st =>
    match objects st !! a with
    | Some b => Return b st
    | None => Raise BadReference st
    end.

(** The store with the instance at [a] overwritten by [b]. *)
Definition with_object (a : addr) (b : breakpoint) (st : registry) : registry :=
  {| _id_counter := _id_counter st;
     _instances := _instances st;
     _break_locations := _break_locations st;
     objects := <[a := b]> (objects st) |}.

Definition with_instances (ins : gmap Z addr) (st : registry) : registry :=
  {| _id_counter := _id_counter st;
     _instances := ins;
     _break_locations := _break_locations st;
     objects := objects st |}.

Definition with_break_locations (bl : gmap pykey (gset addr)) (st : registry) : registry :=
  {| _id_counter := _id_counter st;
     _instances := _instances st;
     _break_locations := bl;
     objects := objects st |}.

(** Overwrite an instance in place. *)
Definition store (a : addr) (b : breakpoint) : M unit :=
  fun st => Return tt (with_object a b st).

Definition set_id (i : Z) (b : breakpoint) : breakpoint :=
  {| _id := Some i; _filename := _filename b;
     _line_number := _line_number b; _function_name := _function_name b;
     temporary := temporary b; condition := condition b; hits := hits b;
     enabled := enabled b; ignored := ignored b; note := note b |}.

Definition set_hits (h : Z) (b : breakpoint) : breakpoint :=
  {| _id := _id b; _filename := _filename b;
     _line_number := _line_number b; _function_name := _function_name b;
     temporary := temporary b; condition := condition b; hits := h;
     enabled := enabled b; ignored := ignored b; note := note b |}.

Definition set_enabled (e : gmap party bool) (b : breakpoint) : breakpoint :=
  {| _id := _id b; _filename := _filename b;
     _line_number := _line_number b; _function_name := _function_name b;
     temporary := temporary b; condition := condition b; hits := hits b;
     enabled := e; ignored := ignored b; note := note b |}.

Definition set_ignored (g : gmap party Z) (b : breakpoint) : breakpoint :=
  {| _id := _id b; _filename := _filename b;
     _line_number := _line_number b; _function_name := _function_name b;
     temporary := temporary b; condition := condition b; hits := hits b;
     enabled := enabled b; ignored := g; note := note b |}.

(** Allocation of a new instance: the constructor's result is placed at an
    address the store does not use yet.  The constructor registers
    nothing. *)
Definition new (a : addr) (b : breakpoint) : M unit := store a b.

(** *** Registration *)

(** [cls._id_counter += 1; return cls._id_counter] *)
Definition next_id : M Z :=
  fun st =>
    let n := (_id_counter st + 1)%Z in
    Return n {| _id_counter := n;
                _instances := _instances st;
                _break_locations := _break_locations st;
                objects := objects st |}.

Definition set_break_locations (bl : gmap pykey (gset addr)) : M unit :=
  fun st => Return tt (with_break_locations bl st).

Definition set_instances (ins : gmap Z addr) : M unit :=
  fun st => Return tt (with_instances ins st).

(** [_add]: reading the unset [_id] slot raises [AttributeError], whose
    handler does the registration; a set [_id], truthy or not, leaves the
    [try] without any effect. *)
Definition _add (self : addr) : M unit :=
  b ← load self;
  match _id b with
  | Some _ => mret tt
  | None =>
      st ← get;
      (match _break_locations st !! location b with
       | Some s => set_break_locations (<[location b := s ∪ {[self]}]> (_break_locations st))
       | None => set_break_locations (<[location b := {[self]}]> (_break_locations st))
       end);;
      i ← next_id;
      store self (set_id i b);;
      st ← get;
      set_instances (<[i := self]> (_instances st))
  end.

(** [_remove]: clear the per-party enabled map, delete the id from
    [_instances], remove the instance from its location's set.  Each of the
    last two raises when its target is absent, after the earlier statements
    have taken effect. *)
Definition _remove (self : addr) : M unit :=
  b ← load self;
  store self (set_enabled ∅ b);;
  match _id b with
  | None => raise AttributeError
  | Some i =>
      st ← get;
      match _instances st !! i with
      | None => raise KeyError
      | Some _ =>
          set_instances (delete i (_instances st));;
          st ← get;
          match _break_locations st !! location b with
          | None => raise KeyError
          | Some s =>
              if decide (self ∈ s)
              then set_break_locations (<[location b := s ∖ {[self]}]> (_break_locations st))
              else raise KeyError
          end
      end
  end.

(** *** Per-party switches *)

Definition enable (self : addr) (interested_party : party) : M unit :=
  b ← load self;
  store self (set_enabled (<[interested_party := true]> (enabled b)) b).

Definition disable (self : addr) (interested_party : party) : M unit :=
  b ← load self;
  store self (set_enabled (<[interested_party := false]> (enabled b)) b).

Definition ignore (self : addr) (interested_party : party) (num_passes : Z) : M unit :=
  b ← load self;
  store self (set_ignored (<[interested_party := num_passes]> (ignored b)) b).

(** *** Resolution of references *)

(** One element handed to [resolve_breakpoints]: an instance, an integer,
    a string, or anything else (which the loop passes over). *)
Inductive reference : Type :=
| RefBreakpoint (a : addr)
| RefInt (i : Z)
| RefStr (s : string)
| RefOther.

(** The argument of [resolve_breakpoints]: a list, tuple or set of
    references, or a single object that is none of these. *)
Inductive references : Type :=
| Single (r : reference)
| Collection (rs : list reference).

Fixpoint resolve_loop (st : registry) (breakpoint_ids : list reference)
    (breakpoints : list addr) : res (list addr) :=
  match breakpoint_ids with
  | [] => Val breakpoints
  | RefBreakpoint a :: rest => resolve_loop st rest (breakpoints ++ [a])
  | RefInt i :: rest =>
      match _instances st !! i with
      | Some a => resolve_loop st rest (breakpoints ++ [a])
      | None => Exc KeyError
      end
  | RefStr s :: rest =>
      match _break_locations st !! KeyStr s with
      | Some bs => resolve_loop st rest (breakpoints ++ elements bs)
      | None => Exc KeyError
      end
  | RefOther :: rest => resolve_loop st rest breakpoints
  end.

Definition resolve_breakpoints (st : registry) (breakpoint_ids : references) :
    res (list addr) :=
  resolve_loop st
    (match breakpoint_ids with
     | Single r => [r]
     | Collection rs => rs
     end) [].

(** *** Frames and tripping *)

(** What a name is bound to in a frame's locals or globals: a function,
    of which only [func_code.co_firstlineno] is read, or an object without
    a [func_code] attribute. *)
Inductive pyobject : Type :=
| PyFunction (co_firstlineno : Z)
| PyOpaque.

(** An execution frame; [co_filename] and [co_name] are those of its
    [f_code], [f_back] is [None] for the outermost frame of a thread. *)
#[local] Unset Elimination Schemes.
Inductive frame : Type := mkFrame {
  co_filename : string;
  co_name : string;
  f_lineno : Z;
  f_globals : gmap string pyobject;
  f_locals : gmap string pyobject;
  f_back : option frame
}.
#[local] Set Elimination Schemes.

(** [function.func_code.co_firstlineno] *)
Definition func_first_line (function : pyobject) : res Z :=
  match function with
  | PyFunction n => Val n
  | PyOpaque => Exc AttributeError
  end.

(** [_function_first_line]: the name is looked up in the caller's locals,
    then, on [KeyError], in the caller's globals.  A frame without caller
    has [f_back = None], whose [f_locals] is an [AttributeError]. *)
Definition _function_first_line (self : breakpoint) (frame_scope : frame) : res Z :=
  match f_back frame_scope with
  | None => Exc AttributeError
  | Some back =>
      match f_locals back !! function_name self with
      | Some function => func_first_line function
      | None =>
          match f_globals back !! function_name self with
          | Some function => func_first_line function
          | None => Exc KeyError
          end
      end
  end.

(** [trip]: only [KeyError] is caught around [_function_first_line]. *)
Definition trip (self : breakpoint) (fr : frame) : res bool :=
  if negb (str_truthy (function_name self))
  then Val (bool_decide (line_number self = Some (f_lineno fr)))
  else if negb (String.eqb (function_name self) (co_name fr))
  then Val false
  else match _function_first_line self fr with
       | Val first => Val (Z.eqb (f_lineno fr) first)
       | Exc KeyError => Val false
       | Exc e => Exc e
       end.

Definition frame_location_by_line (fr : frame) : pykey :=
  KeyTuple (co_filename fr) (ByLine (f_lineno fr)).

Definition frame_location_by_function (fr : frame) : pykey :=
  KeyTuple (co_filename fr) (ByName (co_name fr)).

(** *** The trip evaluator *)

(** Outcome of [eval(condition, f_globals, f_locals)]: it raises, or it
    yields an object of which only the truth value is used. *)
Inductive eval_result : Type :=
| EvalRaises
| EvalYields (truth : bool).

(** What [somedict.get(key, [])] returns here: the stored set or the
    fresh empty list. *)
Inductive pycollection : Type :=
| PySet (s : gset addr)
| PyList (l : list addr).

Definition get_or_empty_list (d : gmap pykey (gset addr)) (k : pykey) : pycollection :=
  match d !! k with
  | Some s => PySet s
  | None => PyList []
  end.

(** Python's [+] on these operands: list concatenation, and [TypeError]
    as soon as one operand is a set. *)
Definition py_add (x y : pycollection) : res (list addr) :=
  match x, y with
  | PyList l1, PyList l2 => Val (l1 ++ l2)
  | _, _ => Exc TypeError
  end.

(** [breakpoint.enabled[party]] on a [defaultdict(bool)]: a missing key is
    inserted with [False]. *)
Definition enabled_getitem (a : addr) (p : party) : M bool :=
  b ← load a;
  match enabled b !! p with
  | Some v => mret v
  | None => store a (set_enabled (<[p := false]> (enabled b)) b);; mret false
  end.

(** [breakpoint.ignored[party]] on a [defaultdict(int)]. *)
Definition ignored_getitem (a : addr) (p : party) : M Z :=
  b ← load a;
  match ignored b !! p with
  | Some v => mret v
  | None => store a (set_ignored (<[p := 0%Z]> (ignored b)) b);; mret 0%Z
  end.

Definition ignored_setitem (a : addr) (p : party) (v : Z) : M unit :=
  b ← load a;
  store a (set_ignored (<[p := v]> (ignored b)) b).

(** Truth value of [breakpoint.condition]. *)
Definition condition_set (c : option string) : bool :=
  match c with
  | Some e => str_truthy e
  | None => false
  end.

Section evaluator.

(** The expression evaluator, a builtin: the outcome of evaluating a
    condition in a frame's globals and locals. *)
Variable eval : string → gmap string pyobject → gmap string pyobject → eval_result.

(** The ignore-count test shared by the unconditional branch and the
    branch of a truthy condition: decrement and pass on, or add to
    [relevant] and retire a temporary breakpoint. *)
Definition count_or_fire (a : addr) (p : party) (relevant : gset addr) : M (gset addr) :=
  n ← ignored_getitem a p;
  if (0 <? n)%Z
  then
    m ← ignored_getitem a p;
    ignored_setitem a p (m - 1)%Z;;
    mret relevant
  else
    b ← load a;
    if temporary b
    then _remove a;; mret (relevant ∪ {[a]})
    else mret (relevant ∪ {[a]}).

Definition eval_condition (b : breakpoint) (fr : frame) : M bool :=
  match eval (default "" (condition b)) (f_globals fr) (f_locals fr) with
  | EvalRaises => raise EvalFailure
  | EvalYields t => mret t
  end.

(** One pass of the body of [for breakpoint in possible]. *)
Definition visit (fr : frame) (p : party) (a : addr) (relevant : gset addr) :
    M (gset addr) :=
  on ← enabled_getitem a p;
  if negb on then mret relevant else
  b ← load a;
  tripped ← lift (trip b fr);
  if negb tripped then mret relevant else
  store a (set_hits (hits b + 1)%Z b);;
  b ← load a;
  if negb (condition_set (condition b))
  then count_or_fire a p relevant
  else
    try_except (A := gset addr)
      (result ← eval_condition b fr;
       if (result : bool) then count_or_fire a p relevant else mret relevant)
      (mret (relevant ∪ {[a]})).

(** The loop over the candidates, and what it leaves in [relevant]. *)
Fixpoint relevant_loop (fr : frame) (p : party) (possible : list addr)
    (relevant : gset addr) : M (gset addr) :=
  match possible with
  | [] => mret relevant
  | a :: rest =>
      relevant' ← visit fr p a relevant;
      relevant_loop fr p rest relevant'
  end.

Definition relevant_breakpoints (fr : frame) (interested_party : party) : M (gset addr) :=
  st ← get;
  possible ← lift (py_add
                     (get_or_empty_list (_break_locations st) (frame_location_by_line fr))
                     (get_or_empty_list (_break_locations st) (frame_location_by_function fr)));
  relevant_loop fr interested_party possible ∅.

End evaluator.

End Breakpoint.

(** ** Stream hijacking *)

Module SysHijack.

(** Identity of a thread. *)
Definition thread := positive.

(** The Python values this class handles: a thread, an object with the
    four endpoint attributes [stdin], [stdout], [stderr] and [displayhook]
    (what the slot [_io_proxy] is meant for), or any other object, known by
    its identity. *)
Inductive value : Type :=
| Object (o : positive)
| ThreadRef (t : thread)
| ProxyIO (p_stdin p_stdout p_stderr p_displayhook : positive).

#[global] Instance value_eq_dec : EqDecision value.
Proof. solve_decision. Defined.

(** The slots declared by [__slots__] that [object.__setattr__] can fill.
    [_thread_state] is declared too, but the class body rebinds that name
    to a property without setter. *)
Definition assignable_slots : list string :=
  ["_target_thread"; "_io_proxy"; "_original_stdin"; "_original_stdout";
   "_original_stderr"; "_original_displayhook"].

(** Names the class body defines: properties and methods. *)
Definition class_attributes : list string :=
  ["_thread_state"; "_thread_sys"; "stdin"; "stdout"; "stderr"; "displayhook";
   "_install"; "_restore"; "_getframe"; "settrace"; "setprofile";
   "__init__"; "__del__"; "__getattr__"; "__setattr__"].

(** Every name that normal attribute lookup on an instance can find. *)
Definition members : list string := assignable_slots ++ class_attributes.

(** One hijacker and the threads around it: [thread_sys t] holds the
    attributes of [getThreadState(t).systemState], [slots] the filled slots
    of the instance. *)
Record world : Type := mkWorld {
  thread_sys : gmap thread (gmap string value);
  slots : gmap string value
}.

Definition M (A : Type) : Type := world → outcome world A.

Definition ret {A} (a : A) : M A := fun w => Return a w.

Definition raise {A} (e : exn) : M A := fun w => Raise e w.

Definition bind {A B} (k : A → M B) (m : M A) : M B :=
  fun w =>
    match m w with
    | Return a w' => k a w'
    | Raise e w' => Raise e w'
    end.

#[global] Instance M_ret : MRet M := @ret.
#[global] Instance M_bind : MBind M := @bind.

Definition get : M world := fun w => Return w w.

(** Modelled from the spec: [getThreadState] of [shared.tools.thread],
    which is not part of these sources.  Given a thread handle it returns
    that thread's interpreter state, and fails when there is none; the
    result is the thread whose [systemState] is to be used. *)
Definition getThreadState (v : value) : M thread :=
  fun w =>
    match v with
    | ThreadRef t =>
        if decide (is_Some (thread_sys w !! t)) then Return t w
        else Raise TargetUnavailable w
    | _ => Raise TargetUnavailable w
    end.

(** [self._target_thread] as the two state properties read it.  While the
    slot is unset the read falls into [__getattr__], which reads the slot
    again: the recursion ends in [RuntimeError]. *)
Definition target_thread : M value :=
  fun w =>
    match slots w !! "_target_thread" with
    | Some v => Return v w
    | None => Raise RuntimeError w
    end.

(** Property [_thread_state], then property [_thread_sys]: the thread
    whose [systemState] object is meant. *)
Definition _thread_state : M thread :=
  v ← target_thread;
  getThreadState v.

Definition _thread_sys : M thread := _thread_state.

(** [getattr(sys_state, attribute)] *)
Definition sys_getattr (t : thread) (attribute : string) : M value :=
  fun w =>
    match thread_sys w !! t with
    | None => Raise TargetUnavailable w
    | Some sys =>
        match sys !! attribute with
        | Some v => Return v w
        | None => Raise AttributeError w
        end
    end.

(** The world with the sys-state object of [t] replaced, and with one
    slot of the instance filled. *)
Definition with_sys (t : thread) (sys : gmap string value) (w : world) : world :=
  {| thread_sys := <[t := sys]> (thread_sys w); slots := slots w |}.

Definition with_slot (name : string) (v : value) (w : world) : world :=
  {| thread_sys := thread_sys w; slots := <[name := v]> (slots w) |}.

(** [setattr(sys_state, attribute, value)] *)
Definition sys_setattr (t : thread) (attribute : string) (v : value) : M unit :=
  fun w =>
    match thread_sys w !! t with
    | None => Raise TargetUnavailable w
    | Some sys => Return tt (with_sys t (<[attribute := v]> sys) w)
    end.

(** [__getattr__], which Python calls when normal lookup has failed.
    [object] has no [__getattr__], so the [try] always raises
    [AttributeError]; the handler evaluates [self._thread_sys] and calls
    [getattr] with that single argument, which is a [TypeError]. *)
Definition __getattr__ (attribute : string) : M value :=
  _ ← _thread_sys;
  raise TypeError.

(** Reading a slot of the instance; an unset slot falls into
    [__getattr__]. *)
Definition read_slot (name : string) : M value :=
  w ← get;
  match slots w !! name with
  | Some v => mret v
  | None => __getattr__ name
  end.

(** [__setattr__]: [object.__setattr__] fills an assignable slot and raises
    [AttributeError] on every other name (a property without setter, a
    method, or a name the class does not know, the instance having no
    [__dict__]); the handler sets the attribute on the thread's sys-state
    object. *)
Definition __setattr__ (attribute : string) (v : value) : M unit :=
  if bool_decide (attribute ∈ assignable_slots)
  then fun w => Return tt (with_slot attribute v w)
  else
    t ← _thread_sys;
    sys_setattr t attribute v.

(** [proxy.stdin] and the like on the value held in [_io_proxy]. *)
Definition proxy_getattr (proxy : value) (attribute : string) : M value :=
  match proxy with
  | ProxyIO i o e d =>
      if String.eqb attribute "stdin" then mret (Object i)
      else if String.eqb attribute "stdout" then mret (Object o)
      else if String.eqb attribute "stderr" then mret (Object e)
      else if String.eqb attribute "displayhook" then mret (Object d)
      else raise AttributeError
  | _ => raise AttributeError
  end.

(** [self._thread_sys.<name> = self._io_proxy.<name>] *)
Definition install_one (name : string) : M unit :=
  proxy ← read_slot "_io_proxy";
  v ← proxy_getattr proxy name;
  t ← _thread_sys;
  sys_setattr t name v.

Definition _install : M unit :=
  install_one "stdin";;
  install_one "stdout";;
  install_one "stderr";;
  install_one "displayhook".

(** [self._thread_sys.<name> = self.<slot>] *)
Definition restore_one (name slot : string) : M unit :=
  v ← read_slot slot;
  t ← _thread_sys;
  sys_setattr t name v.

Definition _restore : M unit :=
  restore_one "stdin" "_original_stdin";;
  restore_one "stdout" "_original_stdout";;
  restore_one "stderr" "_original_stderr";;
  restore_one "displayhook" "_original_displayhook".

(** [self.<slot> = self._thread_sys.<name>] *)
Definition capture_one (slot name : string) : M unit :=
  t ← _thread_sys;
  v ← sys_getattr t name;
  __setattr__ slot v.

(** [ProxyIO(coupled_sys=self)], line 26.  The module binds four names at
    its top level, [getThreadState], [Thread], [datetime] and [SysHijack];
    [ProxyIO] is none of them and is no builtin, so loading the name raises
    [NameError] and no call takes place. *)
Definition call_ProxyIO : M value := raise NameError.

(** The constructor, on an instance whose slots are all unset; [now] is
    what [datetime.now()] returns. *)
Definition __init__ (thread_arg now : value) : M unit :=
  __setattr__ "_target_thread" thread_arg;;
  proxy ← call_ProxyIO;
  __setattr__ "_io_proxy" proxy;;
  __setattr__ "_init_time" now;;
  capture_one "_original_stdin" "stdin";;
  capture_one "_original_stdout" "stdout";;
  capture_one "_original_stderr" "stderr";;
  capture_one "_original_displayhook" "displayhook";;
  _install.

(** A property of the class read on an instance: when its getter raises
    [AttributeError], attribute lookup goes on to [__getattr__] with the
    name of the property. *)
Definition property (name : string) (fget : M value) : M value :=
  fun w =>
    match fget w with
    | Raise AttributeError w' => __getattr__ name w'
    | o => o
    end.

(** The four accessor properties share one shape: the proxy's endpoint
    for the target thread, the captured original for any other;
    [current] is [Thread.currentThread()]. *)
Definition accessor (name slot : string) (current : thread) : M value :=
  property name
    (target ← target_thread;
     if bool_decide (ThreadRef current = target)
     then
       proxy ← read_slot "_io_proxy";
       proxy_getattr proxy name
     else read_slot slot).

Definition stdin : thread → M value := accessor "stdin" "_original_stdin".
Definition stdout : thread → M value := accessor "stdout" "_original_stdout".
Definition stderr : thread → M value := accessor "stderr" "_original_stderr".
Definition displayhook : thread → M value :=
  accessor "displayhook" "_original_displayhook".

Definition __del__ : M unit := _restore.

(** An instance on which [__init__] has not run yet, beside the given
    threads. *)
Definition blank (sys : gmap thread (gmap string value)) : world :=
  {| thread_sys := sys; slots := ∅ |}.

End SysHijack.

(** * Properties of the breakpoint registry *)

Section registry_facts.

Import Breakpoint.

(** Ids handed out so far never exceed the class counter. *)
Definition ids_bounded (st : registry) : Prop :=
  ∀ a b i, objects st !! a = Some b → _id b = Some i → (i ≤ _id_counter st)%Z.

(** An instance whose [_id] slot is still unset. *)
Definition detached (st : registry) (a : addr) : Prop :=
  ∃ b, objects st !! a = Some b ∧ _id b = None.

(** What [_add] leaves behind for a detached instance. *)
Definition registered_as (st : registry) (self : addr) (b : breakpoint) : registry :=
  let i := (_id_counter st + 1)%Z in
  {| _id_counter := i;
     _instances := <[i := self]> (_instances st);
     _break_locations :=
       <[location b := default ∅ (_break_locations st !! location b) ∪ {[self]}]>
         (_break_locations st);
     objects := <[self := set_id i b]> (objects st) |}.

Lemma fresh_registry_bounded : ids_bounded fresh_registry.
Proof. intros a b i H. simpl in H. by rewrite lookup_empty in H. Qed.

Lemma add_detached st self b :
  objects st !! self = Some b → _id b = None →
  _add self st = Return tt (registered_as st self b).
Proof.
  intros Hb Hid. unfold _add, mbind, M_bind, bind, load. rewrite Hb, Hid. simpl.
  unfold registered_as.
  destruct (_break_locations st !! location b) as [s|] eqn:Hs; simpl.
  - done.
  - by rewrite (left_id_L ∅ (∪)).
Qed.

Lemma add_registered st self b i :
  objects st !! self = Some b → _id b = Some i →
  _add self st = Return tt st.
Proof.
  intros Hb Hid. unfold _add, mbind, M_bind, bind, load. by rewrite Hb, Hid.
Qed.

Lemma location_set_id i b : location (set_id i b) = location b.
Proof. done. Qed.

Lemma registered_as_bounded st self b :
  ids_bounded st → ids_bounded (registered_as st self b).
Proof.
  intros Hst a b' j. unfold registered_as; simpl.
  destruct (decide (a = self)) as [->|Hne].
  - rewrite lookup_insert_eq. intros [= <-]. simpl. intros [= <-]. lia.
  - rewrite lookup_insert_ne by done. intros Hb' Hj.
    specialize (Hst _ _ _ Hb' Hj). lia.
Qed.

Lemma new_bounded st a b :
  ids_bounded st → _id b = None → ids_bounded (final_store (new a b st)).
Proof.
  intros Hst Hid a' b' j. simpl.
  destruct (decide (a' = a)) as [->|Hne].
  - rewrite lookup_insert_eq. intros [= <-]. by rewrite Hid.
  - rewrite lookup_insert_ne by done. apply Hst.
Qed.

(** Registering one instance leaves the id of every instance that has
    one. *)
Lemma add_keeps_ids st self a b i :
  objects st !! a = Some b → _id b = Some i →
  ∃ b', objects (final_store (_add self st)) !! a = Some b' ∧ _id b' = Some i.
Proof.
  intros Hb Hi.
  destruct (objects st !! self) as [bs|] eqn:Hs.
  - destruct (_id bs) as [j|] eqn:Hj.
    + rewrite (add_registered _ _ _ _ Hs Hj). by exists b.
    + rewrite (add_detached _ _ _ Hs Hj). simpl.
      assert (a ≠ self) by (intros ->; congruence).
      exists b. by rewrite lookup_insert_ne.
  - unfold _add, mbind, M_bind, bind, load. rewrite Hs. by exists b.
Qed.

(** C7: registering a detached Breakpoint gives it the next value of the
    class counter, which is larger than (so different from) every id any
    instance holds, and enters it in [_instances] under that id and in the
    set of its location in [_break_locations]; registering an instance
    whose id is set changes nothing, so a second registration is a
    no-op. *)
Theorem C7_register_assigns_id_once st self b :
  objects st !! self = Some b →
  ids_bounded st →
  match _id b with
  | None =>
      let i := (_id_counter st + 1)%Z in
      let st' := registered_as st self b in
      _add self st = Return tt st' ∧
      _id <$> objects st' !! self = Some (Some i) ∧
      (∀ a' b' j, objects st !! a' = Some b' → _id b' = Some j → (j < i)%Z) ∧
      (∀ a' b', a' ≠ self → objects st' !! a' = Some b' → _id b' ≠ Some i) ∧
      _id_counter st' = i ∧
      _instances st' !! i = Some self ∧
      (∃ s, _break_locations st' !! location b = Some s ∧ self ∈ s) ∧
      ids_bounded st' ∧
      _add self st' = Return tt st'
  | Some _ => _add self st = Return tt st
  end.
Proof.
  intros Hb Hst. destruct (_id b) as [j|] eqn:Hid.
  { by eapply add_registered. }
  intros i st'.
  assert (Hlt : ∀ a' b' j,
             objects st !! a' = Some b' → _id b' = Some j → (j < i)%Z).
  { intros a' b' j Ha' Hj. specialize (Hst _ _ _ Ha' Hj). subst i. lia. }
  split; [by apply add_detached|].
  split; [subst st'; simpl; by rewrite lookup_insert_eq|].
  split; [done|].
  split.
  { intros a' b' Hne. subst st'; simpl. rewrite lookup_insert_ne by done.
    intros Ha' Hj. specialize (Hlt _ _ _ Ha' Hj). lia. }
  split; [done|].
  split; [subst st'; simpl; by rewrite lookup_insert_eq|].
  split.
  { eexists. subst st'; simpl. rewrite lookup_insert_eq. split; [done|].
    set_solver. }
  split; [by apply registered_as_bounded|].
  eapply add_registered.
  - subst st'; simpl. by rewrite lookup_insert_eq.
  - done.
Qed.

(** A breakpoint at line 10 of [a.py], as the constructor returns it. *)
Definition bp_a10 : breakpoint := __init__ "a.py" (IntLike 10) false None "".

(** The registry with that one instance, not registered yet, and after
    its registration. *)
Definition one_detached : registry :=
  final_store (new 1%positive bp_a10 fresh_registry).

Definition one_registered : registry :=
  final_store (_add 1%positive one_detached).

Lemma C7_register_assigns_id_once_witness :
  (objects one_detached !! 1%positive = Some bp_a10 ∧
   ids_bounded one_detached ∧
   _add 1%positive one_detached = Return tt one_registered ∧
   _id <$> objects one_registered !! 1%positive = Some (Some 1%Z) ∧
   _instances one_registered !! 1%Z = Some 1%positive ∧
   _add 1%positive one_registered = Return tt one_registered)
  ∧
  (objects one_registered !! 1%positive = Some (set_id 1 bp_a10) ∧
   ids_bounded one_registered ∧
   _add 1%positive one_registered = Return tt one_registered).
Proof.
  assert (H1 : objects one_detached !! 1%positive = Some bp_a10) by reflexivity.
  assert (H2 : ids_bounded one_detached).
  { apply new_bounded; [apply fresh_registry_bounded | reflexivity]. }
  pose proof (C7_register_assigns_id_once one_detached 1%positive bp_a10 H1 H2) as H.
  simpl in H. destruct H as (Ha & Hi & _ & _ & _ & Hin & _ & Hbd & Hagain).
  assert (Hr : registered_as one_detached 1%positive bp_a10 = one_registered).
  { unfold one_registered. by rewrite Ha. }
  rewrite Hr in *.
  assert (H3 : objects one_registered !! 1%positive = Some (set_id 1 bp_a10)).
  { rewrite <- Hr. reflexivity. }
  split; [done|].
  split; [done|]. split; [done|].
  exact (C7_register_assigns_id_once one_registered 1%positive _ H3 Hbd).
Defined.

End registry_facts.

(** * Resolution of references *)

Section resolution_facts.

Import Breakpoint.

(** A reference that names nothing in the registry: an integer outside
    [_instances], or a string outside [_break_locations]. *)
Definition unknown (st : registry) (r : reference) : Prop :=
  match r with
  | RefInt i => _instances st !! i = None
  | RefStr s => _break_locations st !! KeyStr s = None
  | RefBreakpoint _ | RefOther => False
  end.

Lemma resolve_loop_unknown st rs r acc :
  r ∈ rs → unknown st r → resolve_loop st rs acc = Exc KeyError.
Proof.
  intros Hin Hr. revert acc.
  induction rs as [|x rest IH]; intros acc; [by apply not_elem_of_nil in Hin|].
  apply elem_of_cons in Hin as [<-|Hin].
  - destruct r; simpl in *; try done; by rewrite Hr.
  - specialize (IH Hin). destruct x; simpl; try apply IH.
    + destruct (_instances st !! i); [apply IH | done].
    + destruct (_break_locations st !! KeyStr s); [apply IH | done].
Qed.

(** No string is a key of [_break_locations]. *)
Definition tuple_keyed (st : registry) : Prop :=
  ∀ s, _break_locations st !! KeyStr s = None.

Lemma fresh_registry_tuple_keyed : tuple_keyed fresh_registry.
Proof. intros s. apply lookup_empty. Qed.

Lemma add_tuple_keyed st self :
  tuple_keyed st → tuple_keyed (final_store (_add self st)).
Proof.
  intros Hst s. unfold _add, mbind, M_bind, bind, load.
  destruct (objects st !! self) as [b|]; simpl; [|apply Hst].
  destruct (_id b); simpl; [apply Hst|].
  destruct (_break_locations st !! location b); simpl;
    (rewrite lookup_insert_ne; [apply Hst | done]).
Qed.

(** In a registry whose location keys are all tuples, resolving any string
    fails. *)
Lemma resolve_string_raises st s :
  tuple_keyed st → resolve_breakpoints st (Single (RefStr s)) = Exc KeyError.
Proof. intros Hst. unfold resolve_breakpoints, resolve_loop. by rewrite Hst. Qed.

Lemma one_registered_tuple_keyed : tuple_keyed one_registered.
Proof.
  apply add_tuple_keyed. intros s. unfold one_detached. simpl. apply lookup_empty.
Qed.

(** C6: handed a location, [resolve_breakpoints] raises where the claim
    expects an empty expansion.  A string goes to the subscript of line
    89, and [_break_locations] is keyed by the tuples [_add] stores, so
    every string raises [KeyError], in the empty registry and in the one
    that holds a breakpoint of that very file alike; the location tuple
    itself, handed over as the argument, is iterated and its file name
    raises in the same way.  Only inside a list is a location tuple passed
    over and nothing appended; an integer without breakpoint raises
    [KeyError], as the claim says. *)
Theorem C6_location_string_raises_KeyError (s : string) (n i : Z) :
  resolve_breakpoints fresh_registry (Single (RefStr s)) = Exc KeyError ∧
  resolve_breakpoints fresh_registry (Collection [RefStr s; RefInt n]) = Exc KeyError ∧
  _break_locations one_registered !! KeyTuple "a.py" (ByLine 10) = Some {[1%positive]} ∧
  resolve_breakpoints one_registered (Single (RefStr s)) = Exc KeyError ∧
  resolve_breakpoints one_registered (Collection [RefStr "a.py"; RefInt 10])
    = Exc KeyError ∧
  resolve_breakpoints fresh_registry (Collection [RefOther]) = Val [] ∧
  resolve_breakpoints one_registered (Collection [RefOther]) = Val [] ∧
  resolve_breakpoints fresh_registry (Single (RefInt i)) = Exc KeyError.
Proof.
  split; [by apply resolve_string_raises, fresh_registry_tuple_keyed|].
  split.
  { apply (resolve_loop_unknown fresh_registry _ (RefStr s));
      [apply list_elem_of_here | apply fresh_registry_tuple_keyed]. }
  split; [reflexivity|].
  split; [by apply resolve_string_raises, one_registered_tuple_keyed|].
  split; [reflexivity|]. split; [reflexivity|]. split; [reflexivity|].
  apply (resolve_loop_unknown fresh_registry [RefInt i] (RefInt i));
    [apply list_elem_of_here | apply lookup_empty].
Qed.

End resolution_facts.

(** * Tripping *)

Section trip_facts.

Import Breakpoint.

Lemma str_truthy_false s : str_truthy s = false ↔ s = "".
Proof.
  unfold str_truthy. destruct (String.eqb_spec s ""); simpl; split; congruence.
Qed.

Lemma str_truthy_true s : str_truthy s = true ↔ s ≠ "".
Proof.
  unfold str_truthy. destruct (String.eqb_spec s ""); simpl; split; congruence.
Qed.

(** A breakpoint set by line never raises and trips exactly on its line. *)
Lemma trip_by_line self fr :
  function_name self = "" →
  trip self fr = Val (bool_decide (line_number self = Some (f_lineno fr))).
Proof.
  intros Hn. unfold trip. apply str_truthy_false in Hn. by rewrite Hn.
Qed.

(** A breakpoint set by function, met in a frame of that name. *)
Lemma trip_by_function self fr :
  function_name self ≠ "" →
  co_name fr = function_name self →
  trip self fr =
    match _function_first_line self fr with
    | Val first => Val (Z.eqb (f_lineno fr) first)
    | Exc KeyError => Val false
    | Exc e => Exc e
    end.
Proof.
  intros Hn Hc. unfold trip. apply str_truthy_true in Hn. rewrite Hn. simpl.
  rewrite <- Hc, String.eqb_refl. done.
Qed.

Lemma trip_other_function self fr :
  function_name self ≠ "" →
  co_name fr ≠ function_name self →
  trip self fr = Val false.
Proof.
  intros Hn Hc. unfold trip. apply str_truthy_true in Hn. rewrite Hn. simpl.
  destruct (String.eqb_spec (function_name self) (co_name fr)); [congruence | done].
Qed.

(** When the lookup of the function ends in [KeyError]: there is a caller
    and it binds the name neither locally nor globally. *)
Lemma function_first_line_KeyError self fr :
  _function_first_line self fr = Exc KeyError ↔
  ∃ back, f_back fr = Some back ∧
          f_locals back !! function_name self = None ∧
          f_globals back !! function_name self = None.
Proof.
  unfold _function_first_line. split.
  - destruct (f_back fr) as [back|]; [|done]. intros H. exists back.
    destruct (f_locals back !! function_name self) as [[]|]; try done.
    destruct (f_globals back !! function_name self) as [[]|]; done.
  - intros (back & -> & -> & ->). done.
Qed.

(** A function-keyed breakpoint and the frame of that function when it
    runs as the outermost frame of its thread. *)
Definition bp_foo : breakpoint := __init__ "a.py" (NotInt "foo") false None "".

Definition frame_foo_outermost : frame :=
  {| co_filename := "a.py"; co_name := "foo"; f_lineno := 3;
     f_globals := ∅; f_locals := ∅; f_back := None |}.

(** C2, as the claim has it, fails: in a frame of the right function that
    has no caller, resolving the first line fails and [trip] raises
    [AttributeError] instead of returning false. *)
Lemma C2_trip_raises_without_caller :
  _function_first_line bp_foo frame_foo_outermost = Exc AttributeError ∧
  trip bp_foo frame_foo_outermost = Exc AttributeError ∧
  trip bp_foo frame_foo_outermost ≠ Val false.
Proof. split; [reflexivity|]. split; [reflexivity | discriminate]. Qed.

(** C2, amended: a line-keyed breakpoint never raises and trips iff the
    frame's current line is the stored line.  A function-keyed breakpoint
    returns false on a frame of another function; on a frame of its
    function it looks the name up in the caller's locals and, when they do
    not bind it, in the caller's globals: bound to a function, [trip]
    returns whether the current line is that function's first line; bound
    in neither ([KeyError]), it returns false; with no caller, or with the
    name bound to an object without [func_code], it raises
    [AttributeError].  So it trips iff the frame's function has the stored
    name and the current line is the first line of the function so
    resolved. *)
Theorem C2_trip_by_line_or_function_entry self fr :
  (function_name self = "" →
     trip self fr = Val (bool_decide (line_number self = Some (f_lineno fr))) ∧
     (trip self fr = Val true ↔ line_number self = Some (f_lineno fr)))
  ∧
  (function_name self ≠ "" →
     (co_name fr ≠ function_name self → trip self fr = Val false) ∧
     (co_name fr = function_name self →
        trip self fr =
          match f_back fr with
          | None => Exc AttributeError
          | Some back =>
              match f_locals back !! function_name self,
                    f_globals back !! function_name self with
              | Some (PyFunction first), _ => Val (Z.eqb (f_lineno fr) first)
              | Some PyOpaque, _ => Exc AttributeError
              | None, Some (PyFunction first) => Val (Z.eqb (f_lineno fr) first)
              | None, Some PyOpaque => Exc AttributeError
              | None, None => Val false
              end
          end) ∧
     (trip self fr = Val true ↔
        co_name fr = function_name self ∧
        ∃ back, f_back fr = Some back ∧
          (f_locals back !! function_name self = Some (PyFunction (f_lineno fr)) ∨
           (f_locals back !! function_name self = None ∧
            f_globals back !! function_name self = Some (PyFunction (f_lineno fr)))))).
Proof.
  split.
  - intros Hn. rewrite (trip_by_line _ _ Hn). split; [done|].
    split.
    + intros [= H]. by apply bool_decide_eq_true in H.
    + intros H. f_equal. by apply bool_decide_eq_true.
  - intros Hn.
    assert (Hsame : co_name fr = function_name self →
              trip self fr =
                match f_back fr with
                | None => Exc AttributeError
                | Some back =>
                    match f_locals back !! function_name self,
                          f_globals back !! function_name self with
                    | Some (PyFunction first), _ => Val (Z.eqb (f_lineno fr) first)
                    | Some PyOpaque, _ => Exc AttributeError
                    | None, Some (PyFunction first) => Val (Z.eqb (f_lineno fr) first)
                    | None, Some PyOpaque => Exc AttributeError
                    | None, None => Val false
                    end
                end).
    { intros Hc. rewrite (trip_by_function _ _ Hn Hc). unfold _function_first_line.
      destruct (f_back fr) as [back|]; [|done].
      destruct (f_locals back !! function_name self) as [[first|]|]; [done | done |].
      destruct (f_globals back !! function_name self) as [[first|]|]; done. }
    split; [by apply trip_other_function|]. split; [exact Hsame|].
    destruct (decide (co_name fr = function_name self)) as [Hc|Hc].
    + rewrite (Hsame Hc). split.
      * intros H. split; [done|].
        destruct (f_back fr) as [back|]; [|done]. exists back. split; [done|].
        destruct (f_locals back !! function_name self) as [[first|]|].
        -- injection H as H. apply Z.eqb_eq in H. subst. by left.
        -- done.
        -- destruct (f_globals back !! function_name self) as [[first|]|];
             [|done|done].
           injection H as H. apply Z.eqb_eq in H. subst. by right.
      * intros (_ & back & -> & [-> | [-> ->]]); by rewrite Z.eqb_refl.
    + rewrite (trip_other_function _ _ Hn Hc). split; [done | by intros [? _]].
Qed.

(** A frame of [foo] at its first line, called from a module that defines
    [foo] at line 3, and a frame whose caller does not know the name. *)
Definition module_frame (globals : gmap string pyobject) : frame :=
  {| co_filename := "a.py"; co_name := "<module>"; f_lineno := 20;
     f_globals := globals; f_locals := globals; f_back := None |}.

Definition frame_foo_entry : frame :=
  {| co_filename := "a.py"; co_name := "foo"; f_lineno := 3;
     f_globals := {["foo" := PyFunction 3]}; f_locals := ∅;
     f_back := Some (module_frame {["foo" := PyFunction 3]}) |}.

Definition frame_foo_unbound : frame :=
  {| co_filename := "a.py"; co_name := "foo"; f_lineno := 3;
     f_globals := ∅; f_locals := ∅;
     f_back := Some (module_frame ∅) |}.

(** Module-level code of [a.py] at line 10. *)
Definition frame_a10 : frame :=
  {| co_filename := "a.py"; co_name := "<module>"; f_lineno := 10;
     f_globals := ∅; f_locals := ∅; f_back := None |}.

(** A frame of [foo] past its first line, and a frame of another function
    at the first line of [foo]. *)
Definition frame_foo_inside : frame :=
  {| co_filename := "a.py"; co_name := "foo"; f_lineno := 4;
     f_globals := {["foo" := PyFunction 3]}; f_locals := ∅;
     f_back := Some (module_frame {["foo" := PyFunction 3]}) |}.

Definition frame_bar_entry : frame :=
  {| co_filename := "a.py"; co_name := "bar"; f_lineno := 3;
     f_globals := {["foo" := PyFunction 3]}; f_locals := ∅;
     f_back := Some (module_frame {["foo" := PyFunction 3]}) |}.

Lemma C2_trip_by_line_or_function_entry_witness :
  (function_name bp_a10 = "" ∧
   trip bp_a10 frame_a10 = Val true ∧
   trip bp_a10 (module_frame ∅) = Val false)
  ∧
  (function_name bp_foo ≠ "" ∧
   co_name frame_bar_entry ≠ function_name bp_foo ∧
   co_name frame_foo_entry = function_name bp_foo ∧
   trip bp_foo frame_foo_entry = Val true ∧
   trip bp_foo frame_foo_inside = Val false ∧
   trip bp_foo frame_bar_entry = Val false ∧
   trip bp_foo frame_foo_unbound = Val false ∧
   trip bp_foo frame_foo_outermost = Exc AttributeError).
Proof.
  assert (Ha10 : function_name bp_a10 = "") by reflexivity.
  assert (Hfoo : function_name bp_foo ≠ "") by discriminate.
  assert (Hbar : co_name frame_bar_entry ≠ function_name bp_foo) by discriminate.
  assert (Hname : co_name frame_foo_entry = function_name bp_foo) by reflexivity.
  destruct (C2_trip_by_line_or_function_entry bp_a10 frame_a10) as [Hline _].
  destruct (C2_trip_by_line_or_function_entry bp_a10 (module_frame ∅))
    as [Hline' _].
  destruct (C2_trip_by_line_or_function_entry bp_foo frame_foo_entry)
    as [_ Hentry].
  destruct (C2_trip_by_line_or_function_entry bp_foo frame_foo_inside)
    as [_ Hinside].
  destruct (C2_trip_by_line_or_function_entry bp_foo frame_bar_entry)
    as [_ Hother].
  destruct (C2_trip_by_line_or_function_entry bp_foo frame_foo_unbound)
    as [_ Hunbound].
  destruct (C2_trip_by_line_or_function_entry bp_foo frame_foo_outermost)
    as [_ Houter].
  destruct (Hline Ha10) as [_ Hliff].
  destruct (Hline' Ha10) as [Hval _].
  destruct (Hentry Hfoo) as (_ & _ & Hiff).
  destruct (Hinside Hfoo) as (_ & Hin & _).
  destruct (Hother Hfoo) as (Hwrong & _).
  destruct (Hunbound Hfoo) as (_ & Hkey & _).
  destruct (Houter Hfoo) as (_ & Hattr & _).
  split.
  - split; [exact Ha10|]. split; [apply Hliff; reflexivity | exact Hval].
  - split; [exact Hfoo|]. split; [exact Hbar|]. split; [exact Hname|].
    split.
    { apply Hiff. split; [reflexivity|]. eexists. split; [reflexivity|].
      left. reflexivity. }
    split; [exact (Hin eq_refl)|].
    split; [exact (Hwrong Hbar)|].
    split; [exact (Hkey eq_refl) | exact (Hattr eq_refl)].
Defined.

End trip_facts.

(** * The trip evaluator *)

Section store_facts.

Import Breakpoint.

Lemma bind_Return {A B} (m : M A) (k : A → M B) st x st' :
  m st = Return x st' → (m ≫= k) st = k x st'.
Proof. intros H. unfold mbind, M_bind, bind. by rewrite H. Qed.

Lemma bind_Raise {A B} (m : M A) (k : A → M B) st e st' :
  m st = Raise e st' → (m ≫= k) st = Raise e st'.
Proof. intros H. unfold mbind, M_bind, bind. by rewrite H. Qed.

Lemma with_object_same a b st :
  objects st !! a = Some b → with_object a b st = st.
Proof.
  intros H. destruct st as [c ins bl objs]. unfold with_object; simpl in *.
  by rewrite insert_id.
Qed.

Lemma with_object_twice a b b' st :
  with_object a b' (with_object a b st) = with_object a b' st.
Proof. unfold with_object; simpl. by rewrite insert_insert_eq. Qed.

Lemma load_Some a b st : objects st !! a = Some b → load a st = Return b st.
Proof. intros H. unfold load. by rewrite H. Qed.

Lemma load_with_object a b st :
  load a (with_object a b st) = Return b (with_object a b st).
Proof. apply load_Some. simpl. apply lookup_insert_eq. Qed.

(** The instance as a read of [ignored[p]] leaves it: a missing key has
    been entered with 0. *)
Definition touch_ignored (p : party) (b : breakpoint) : breakpoint :=
  set_ignored (<[p := default 0%Z (ignored b !! p)]> (ignored b)) b.

Lemma touch_ignored_present p b n :
  ignored b !! p = Some n → touch_ignored p b = b.
Proof.
  intros H. unfold touch_ignored. rewrite H. simpl. rewrite insert_id by done.
  by destruct b.
Qed.

Lemma enabled_getitem_present a b p v st :
  objects st !! a = Some b → enabled b !! p = Some v →
  enabled_getitem a p st = Return v st.
Proof.
  intros Hb Hp. unfold enabled_getitem.
  rewrite (bind_Return _ _ _ _ _ (load_Some _ _ _ Hb)). by rewrite Hp.
Qed.

Lemma enabled_getitem_missing a b p st :
  objects st !! a = Some b → enabled b !! p = None →
  enabled_getitem a p st =
    Return false (with_object a (set_enabled (<[p := false]> (enabled b)) b) st).
Proof.
  intros Hb Hp. unfold enabled_getitem.
  rewrite (bind_Return _ _ _ _ _ (load_Some _ _ _ Hb)). by rewrite Hp.
Qed.

Lemma ignored_getitem_spec a b p st :
  objects st !! a = Some b →
  ignored_getitem a p st =
    Return (default 0%Z (ignored b !! p)) (with_object a (touch_ignored p b) st).
Proof.
  intros Hb. unfold ignored_getitem.
  rewrite (bind_Return _ _ _ _ _ (load_Some _ _ _ Hb)).
  destruct (ignored b !! p) as [n|] eqn:Hp; simpl.
  - by rewrite (touch_ignored_present _ _ _ Hp), (with_object_same _ _ _ Hb).
  - unfold touch_ignored. by rewrite Hp.
Qed.

Lemma ignored_setitem_spec a b p v st :
  objects st !! a = Some b →
  ignored_setitem a p v st =
    Return tt (with_object a (set_ignored (<[p := v]> (ignored b)) b) st).
Proof.
  intros Hb. unfold ignored_setitem.
  by rewrite (bind_Return _ _ _ _ _ (load_Some _ _ _ Hb)).
Qed.

(** An instance that both indices know. *)
Definition registered (st : registry) (a : addr) (b : breakpoint) : Prop :=
  ∃ i s, _id b = Some i ∧ is_Some (_instances st !! i) ∧
         _break_locations st !! location b = Some s ∧ a ∈ s.

(** The registry once [_remove] has run on a registered instance. *)
Definition retired (a : addr) (b : breakpoint) (st : registry) : registry :=
  with_break_locations
    (<[location b := default ∅ (_break_locations st !! location b) ∖ {[a]}]>
       (_break_locations st))
    (with_instances (delete (default 0%Z (_id b)) (_instances st))
       (with_object a (set_enabled ∅ b) st)).

Lemma remove_registered a b st :
  objects st !! a = Some b → registered st a b →
  _remove a st = Return tt (retired a b st).
Proof.
  intros Hb (i & s & Hi & [x Hx] & Hs & Hin). unfold _remove.
  rewrite (bind_Return _ _ _ _ _ (load_Some _ _ _ Hb)).
  unfold mbind, M_bind, bind, store, get, set_instances, set_break_locations.
  simpl. rewrite Hi. simpl. rewrite Hx. simpl. rewrite Hs.
  rewrite decide_True by done. unfold retired. by rewrite Hi, Hs.
Qed.

Lemma retired_unregistered a b st i :
  _id b = Some i →
  _instances (retired a b st) !! i = None ∧
  ∃ s, _break_locations (retired a b st) !! location b = Some s ∧ a ∉ s.
Proof.
  intros Hi. unfold retired; simpl. rewrite Hi. simpl. split.
  - apply lookup_delete_eq.
  - eexists. rewrite lookup_insert_eq. split; [done|].
    intros [_ H]%elem_of_difference. apply H. by apply elem_of_singleton.
Qed.

End store_facts.

Section evaluator_facts.

Import Breakpoint.

Variable eval : string → gmap string pyobject → gmap string pyobject → eval_result.

(** The instance once a pass has been counted. *)
Definition hit (b : breakpoint) : breakpoint := set_hits (hits b + 1)%Z b.

(** The condition lets a trip through to the ignore-count test: there is
    none, or it evaluates to a true value. *)
Definition passes (b : breakpoint) (fr : frame) : Prop :=
  condition_set (condition b) = false ∨
  (condition_set (condition b) = true ∧
   eval (default "" (condition b)) (f_globals fr) (f_locals fr) = EvalYields true).

(** The condition is set and its evaluation raises. *)
Definition condition_raises (b : breakpoint) (fr : frame) : Prop :=
  condition_set (condition b) = true ∧
  eval (default "" (condition b)) (f_globals fr) (f_locals fr) = EvalRaises.

Lemma registered_with_object st a b b' :
  registered st a b → _id b' = _id b → location b' = location b →
  registered (with_object a b' st) a b'.
Proof.
  intros (i & s & Hi & Hx & Hs & Hin) Hid Hloc. exists i, s.
  rewrite Hid, Hloc. done.
Qed.

Lemma retired_with_object a b b' st :
  retired a b' (with_object a b st) = retired a b' st.
Proof. unfold retired. simpl. by rewrite with_object_twice. Qed.

Lemma count_or_fire_suppresses a b p rel st n :
  objects st !! a = Some b → ignored b !! p = Some n → (0 < n)%Z →
  count_or_fire a p rel st =
    Return rel (with_object a (set_ignored (<[p := (n - 1)%Z]> (ignored b)) b) st).
Proof.
  intros Hb Hp Hn. unfold count_or_fire.
  pose proof (ignored_getitem_spec a b p st Hb) as Hget.
  rewrite (touch_ignored_present _ _ _ Hp), (with_object_same _ _ _ Hb), Hp in Hget.
  simpl in Hget.
  rewrite (bind_Return _ _ _ _ _ Hget).
  rewrite (proj2 (Z.ltb_lt 0 n) Hn).
  rewrite (bind_Return _ _ _ _ _ Hget).
  by rewrite (bind_Return _ _ _ _ _ (ignored_setitem_spec a b p _ st Hb)).
Qed.

Lemma count_or_fire_fires a b p rel st :
  objects st !! a = Some b → (default 0 (ignored b !! p) ≤ 0)%Z →
  temporary b = false →
  count_or_fire a p rel st =
    Return (rel ∪ {[a]}) (with_object a (touch_ignored p b) st).
Proof.
  intros Hb Hn Ht. unfold count_or_fire.
  rewrite (bind_Return _ _ _ _ _ (ignored_getitem_spec a b p st Hb)).
  rewrite (proj2 (Z.ltb_ge 0 _) Hn).
  rewrite (bind_Return _ _ _ _ _ (load_with_object _ _ _)).
  simpl. by rewrite Ht.
Qed.

Lemma count_or_fire_retires a b p rel st :
  objects st !! a = Some b → (default 0 (ignored b !! p) ≤ 0)%Z →
  temporary b = true → registered st a b →
  count_or_fire a p rel st =
    Return (rel ∪ {[a]}) (retired a (touch_ignored p b) st).
Proof.
  intros Hb Hn Ht Hreg. unfold count_or_fire.
  rewrite (bind_Return _ _ _ _ _ (ignored_getitem_spec a b p st Hb)).
  rewrite (proj2 (Z.ltb_ge 0 _) Hn).
  rewrite (bind_Return _ _ _ _ _ (load_with_object _ _ _)).
  simpl. rewrite Ht.
  assert (Hrm : _remove a (with_object a (touch_ignored p b) st) =
                Return tt (retired a (touch_ignored p b) st)).
  { rewrite <- (retired_with_object a (touch_ignored p b) (touch_ignored p b) st).
    apply (remove_registered a (touch_ignored p b)).
    - simpl. apply lookup_insert_eq.
    - by apply (registered_with_object st a b). }
  by rewrite (bind_Return _ _ _ _ _ Hrm).
Qed.

(** A pass over an enabled breakpoint that trips counts a hit and goes on
    to the condition. *)
Lemma visit_counts a b p fr rel st :
  objects st !! a = Some b → enabled b !! p = Some true → trip b fr = Val true →
  visit eval fr p a rel st =
    (if negb (condition_set (condition b))
     then count_or_fire a p rel
     else try_except
            (result ← eval_condition eval (hit b) fr;
             if (result : bool) then count_or_fire a p rel else mret rel)
            (mret (rel ∪ {[a]})))
      (with_object a (hit b) st).
Proof.
  intros Hb Hp Ht. unfold visit.
  rewrite (bind_Return _ _ _ _ _ (enabled_getitem_present _ _ _ _ _ Hb Hp)). simpl.
  rewrite (bind_Return _ _ _ _ _ (load_Some _ _ _ Hb)).
  rewrite Ht. simpl.
  unfold mbind at 1. unfold M_bind, bind at 1. simpl.
  unfold mbind at 1. unfold M_bind, bind at 1. simpl.
  fold (hit b). by rewrite (bind_Return _ _ _ _ _ (load_with_object _ _ _)).
Qed.

Lemma eval_condition_yields b fr t st :
  eval (default "" (condition b)) (f_globals fr) (f_locals fr) = EvalYields t →
  eval_condition eval (hit b) fr st = Return t st.
Proof. intros H. unfold eval_condition. simpl. by rewrite H. Qed.

Lemma eval_condition_raises b fr st :
  eval (default "" (condition b)) (f_globals fr) (f_locals fr) = EvalRaises →
  eval_condition eval (hit b) fr st = Raise EvalFailure st.
Proof. intros H. unfold eval_condition. simpl. by rewrite H. Qed.

(** Past the condition, a pass returns what the ignore-count test on the
    counted instance returns. *)
Lemma visit_passes a b p fr rel st r s :
  objects st !! a = Some b → enabled b !! p = Some true → trip b fr = Val true →
  passes b fr →
  count_or_fire a p rel (with_object a (hit b) st) = Return r s →
  visit eval fr p a rel st = Return r s.
Proof.
  intros Hb Hp Ht Hpass Hcf. rewrite (visit_counts _ _ _ _ _ _ Hb Hp Ht).
  destruct Hpass as [Hc|[Hc He]]; rewrite Hc; simpl; [done|].
  unfold try_except.
  rewrite (bind_Return _ _ _ _ _ (eval_condition_yields _ _ _ _ He)).
  by rewrite Hcf.
Qed.

Lemma visit_suppressed a b p fr rel st n :
  objects st !! a = Some b → enabled b !! p = Some true → trip b fr = Val true →
  passes b fr → ignored b !! p = Some n → (0 < n)%Z →
  visit eval fr p a rel st =
    Return rel
      (with_object a (set_ignored (<[p := (n - 1)%Z]> (ignored b)) (hit b)) st).
Proof.
  intros Hb Hp Ht Hpass Hi Hn. apply (visit_passes _ _ _ _ _ _ _ _ Hb Hp Ht Hpass).
  rewrite (count_or_fire_suppresses a (hit b) p rel _ n).
  - by rewrite with_object_twice.
  - simpl. apply lookup_insert_eq.
  - done.
  - done.
Qed.

Lemma visit_fires a b p fr rel st :
  objects st !! a = Some b → enabled b !! p = Some true → trip b fr = Val true →
  passes b fr → (default 0 (ignored b !! p) ≤ 0)%Z → temporary b = false →
  visit eval fr p a rel st =
    Return (rel ∪ {[a]}) (with_object a (touch_ignored p (hit b)) st).
Proof.
  intros Hb Hp Ht Hpass Hn Htmp. apply (visit_passes _ _ _ _ _ _ _ _ Hb Hp Ht Hpass).
  rewrite (count_or_fire_fires a (hit b) p rel _).
  - by rewrite with_object_twice.
  - simpl. apply lookup_insert_eq.
  - done.
  - done.
Qed.

Lemma visit_retires a b p fr rel st :
  objects st !! a = Some b → enabled b !! p = Some true → trip b fr = Val true →
  passes b fr → (default 0 (ignored b !! p) ≤ 0)%Z → temporary b = true →
  registered st a b →
  visit eval fr p a rel st =
    Return (rel ∪ {[a]}) (retired a (touch_ignored p (hit b)) st).
Proof.
  intros Hb Hp Ht Hpass Hn Htmp Hreg.
  apply (visit_passes _ _ _ _ _ _ _ _ Hb Hp Ht Hpass).
  rewrite (count_or_fire_retires a (hit b) p rel _).
  - by rewrite retired_with_object.
  - simpl. apply lookup_insert_eq.
  - done.
  - done.
  - by apply (registered_with_object st a b).
Qed.

Lemma visit_condition_raises a b p fr rel st :
  objects st !! a = Some b → enabled b !! p = Some true → trip b fr = Val true →
  condition_raises b fr →
  visit eval fr p a rel st = Return (rel ∪ {[a]}) (with_object a (hit b) st).
Proof.
  intros Hb Hp Ht [Hc He]. rewrite (visit_counts _ _ _ _ _ _ Hb Hp Ht).
  rewrite Hc. simpl. unfold try_except.
  by rewrite (bind_Raise _ _ _ _ _ (eval_condition_raises _ _ _ He)).
Qed.

Lemma visit_condition_false a b p fr rel st :
  objects st !! a = Some b → enabled b !! p = Some true → trip b fr = Val true →
  condition_set (condition b) = true →
  eval (default "" (condition b)) (f_globals fr) (f_locals fr) = EvalYields false →
  visit eval fr p a rel st = Return rel (with_object a (hit b) st).
Proof.
  intros Hb Hp Ht Hc He. rewrite (visit_counts _ _ _ _ _ _ Hb Hp Ht).
  rewrite Hc. simpl. unfold try_except.
  by rewrite (bind_Return _ _ _ _ _ (eval_condition_yields _ _ _ _ He)).
Qed.

Lemma visit_not_enabled a b p fr rel st :
  objects st !! a = Some b → enabled b !! p ≠ Some true →
  visit eval fr p a rel st =
    Return rel
      (with_object a
         (set_enabled (<[p := default false (enabled b !! p)]> (enabled b)) b) st).
Proof.
  intros Hb Hp. unfold visit.
  destruct (enabled b !! p) as [[]|] eqn:He; [done| |].
  - rewrite (bind_Return _ _ _ _ _ (enabled_getitem_present _ _ _ _ _ Hb He)).
    simpl. rewrite insert_id by done.
    replace (set_enabled (enabled b) b) with b by by destruct b.
    by rewrite with_object_same.
  - by rewrite (bind_Return _ _ _ _ _ (enabled_getitem_missing _ _ _ _ Hb He)).
Qed.

Lemma visit_not_tripped a b p fr rel st :
  objects st !! a = Some b → enabled b !! p = Some true → trip b fr = Val false →
  visit eval fr p a rel st = Return rel st.
Proof.
  intros Hb Hp Ht. unfold visit.
  rewrite (bind_Return _ _ _ _ _ (enabled_getitem_present _ _ _ _ _ Hb Hp)). simpl.
  rewrite (bind_Return _ _ _ _ _ (load_Some _ _ _ Hb)).
  by rewrite Ht.
Qed.

(** The loop only ever adds to [relevant]. *)
Lemma visit_grows fr p a rel st rel' st' :
  visit eval fr p a rel st = Return rel' st' → rel ⊆ rel'.
Proof.
  assert (Hcf : ∀ s r' s', count_or_fire a p rel s = Return r' s' → rel ⊆ r').
  { intros s r' s'. unfold count_or_fire, mbind, M_bind, bind.
    destruct (ignored_getitem a p s) as [n s1|]; [|done].
    destruct (0 <? n)%Z.
    - destruct (ignored_getitem a p s1) as [m s2|]; [|done].
      destruct (ignored_setitem a p (m - 1) s2); [|done].
      intros [= <- _]. done.
    - destruct (load a s1) as [b s2|]; [|done].
      destruct (temporary b).
      + destruct (_remove a s2); [|done]. intros [= <- _]. apply union_subseteq_l.
      + intros [= <- _]. apply union_subseteq_l. }
  unfold visit, mbind, M_bind, bind.
  destruct (enabled_getitem a p st) as [on s1|]; [|done].
  destruct (negb on); [by intros [= <- _]|].
  destruct (load a s1) as [b s2|]; [|done].
  destruct (lift (trip b fr) s2) as [t s3|]; [|done].
  destruct (negb t); [by intros [= <- _]|].
  destruct (store a (set_hits (hits b + 1) b) s3) as [[] s4|]; [|done].
  destruct (load a s4) as [b' s5|]; [|done].
  destruct (negb (condition_set (condition b'))); [apply Hcf|].
  unfold try_except.
  destruct (eval_condition eval b' fr s5) as [r s6|].
  - destruct r.
    + destruct (count_or_fire a p rel s6) eqn:Hc.
      * intros [= <- _]. by eapply Hcf.
      * intros [= <- _]. apply union_subseteq_l.
    + by intros [= <- _].
  - intros [= <- _]. apply union_subseteq_l.
Qed.

Lemma relevant_loop_grows fr p possible rel st rel' st' :
  relevant_loop eval fr p possible rel st = Return rel' st' → rel ⊆ rel'.
Proof.
  revert rel st. induction possible as [|a rest IH]; intros rel st; simpl.
  - by intros [= <- _].
  - unfold mbind, M_bind, bind.
    destruct (visit eval fr p a rel st) as [r1 s1|] eqn:Hv; [|done].
    intros H. apply IH in H. apply visit_grows in Hv. set_solver.
Qed.

Lemma relevant_loop_cons fr p a rest rel st rel1 st1 :
  visit eval fr p a rel st = Return rel1 st1 →
  relevant_loop eval fr p (a :: rest) rel st = relevant_loop eval fr p rest rel1 st1.
Proof. intros H. simpl. by rewrite (bind_Return _ _ _ _ _ H). Qed.

Lemma relevant_loop_one fr p a rel st rel1 st1 :
  visit eval fr p a rel st = Return rel1 st1 →
  relevant_loop eval fr p [a] rel st = Return rel1 st1.
Proof. intros H. by rewrite (relevant_loop_cons _ _ _ _ _ _ _ _ H). Qed.

(** [relevant_breakpoints] itself: with no entry under either key of the
    position it returns the empty set; as soon as one of the two keys has
    an entry, the sum of a set and a list raises [TypeError] before any
    candidate is looked at. *)
Lemma relevant_breakpoints_no_entry fr p st :
  _break_locations st !! frame_location_by_line fr = None →
  _break_locations st !! frame_location_by_function fr = None →
  relevant_breakpoints eval fr p st = Return ∅ st.
Proof.
  intros H1 H2. unfold relevant_breakpoints, mbind, M_bind, bind, get.
  unfold get_or_empty_list. by rewrite H1, H2.
Qed.

Lemma relevant_breakpoints_entry fr p st :
  is_Some (_break_locations st !! frame_location_by_line fr) ∨
  is_Some (_break_locations st !! frame_location_by_function fr) →
  relevant_breakpoints eval fr p st = Raise TypeError st.
Proof.
  intros H. unfold relevant_breakpoints, mbind, M_bind, bind, get.
  unfold get_or_empty_list.
  destruct H as [[s Hs]|[s Hs]]; rewrite Hs.
  - done.
  - by destruct (_break_locations st !! frame_location_by_line fr).
Qed.

End evaluator_facts.

(** ** Ids are stable *)

Section id_stability.

Import Breakpoint.

Variable eval : string → gmap string pyobject → gmap string pyobject → eval_result.

(** [st'] has the class counter of [st] and the same [_id] in every
    instance. *)
Definition same_ids (st st' : registry) : Prop :=
  _id_counter st' = _id_counter st ∧
  ∀ a, _id <$> objects st' !! a = _id <$> objects st !! a.

(** A computation that, however it ends, leaves all ids as they were. *)
Definition keeps_ids {A} (m : M A) : Prop :=
  ∀ st, same_ids st (final_store (m st)).

Lemma same_ids_refl st : same_ids st st.
Proof. done. Qed.

Lemma same_ids_trans st1 st2 st3 :
  same_ids st1 st2 → same_ids st2 st3 → same_ids st1 st3.
Proof.
  intros [Hc1 Ho1] [Hc2 Ho2]. split; [congruence|].
  intros a. by rewrite Ho2, Ho1.
Qed.

Lemma same_ids_with_object st a b b' :
  objects st !! a = Some b → _id b' = _id b → same_ids st (with_object a b' st).
Proof.
  intros Hb Hid. split; [done|]. intros a'. simpl.
  destruct (decide (a' = a)) as [->|Hne].
  - rewrite lookup_insert_eq, Hb. simpl. by rewrite Hid.
  - by rewrite lookup_insert_ne.
Qed.

Lemma keeps_ids_ret {A} (x : A) : keeps_ids (mret x).
Proof. intros st. apply same_ids_refl. Qed.

Lemma keeps_ids_raise {A} e : keeps_ids (raise (A := A) e).
Proof. intros st. apply same_ids_refl. Qed.

Lemma keeps_ids_bind {A B} (m : M A) (k : A → M B) :
  keeps_ids m → (∀ x, keeps_ids (k x)) → keeps_ids (m ≫= k).
Proof.
  intros Hm Hk st. unfold mbind, M_bind, bind. specialize (Hm st).
  destruct (m st) as [x st1|e st1]; simpl in *; [|done].
  eapply same_ids_trans; [exact Hm | apply Hk].
Qed.

Lemma keeps_ids_try_except {A} (body handler : M A) :
  keeps_ids body → keeps_ids handler → keeps_ids (try_except body handler).
Proof.
  intros Hb Hh st. unfold try_except. specialize (Hb st).
  destruct (body st) as [x st1|e st1]; simpl in *; [done|].
  eapply same_ids_trans; [exact Hb | apply Hh].
Qed.

Lemma keeps_ids_enable a p : keeps_ids (enable a p).
Proof.
  intros st. unfold enable, mbind, M_bind, bind, load, store.
  destruct (objects st !! a) as [b|] eqn:Hb; simpl; [|done].
  by apply (same_ids_with_object st a b).
Qed.

Lemma keeps_ids_disable a p : keeps_ids (disable a p).
Proof.
  intros st. unfold disable, mbind, M_bind, bind, load, store.
  destruct (objects st !! a) as [b|] eqn:Hb; simpl; [|done].
  by apply (same_ids_with_object st a b).
Qed.

Lemma keeps_ids_ignore a p n : keeps_ids (ignore a p n).
Proof.
  intros st. unfold ignore, mbind, M_bind, bind, load, store.
  destruct (objects st !! a) as [b|] eqn:Hb; simpl; [|done].
  by apply (same_ids_with_object st a b).
Qed.

Lemma keeps_ids_enabled_getitem a p : keeps_ids (enabled_getitem a p).
Proof.
  intros st. unfold enabled_getitem, mbind, M_bind, bind, load, store.
  destruct (objects st !! a) as [b|] eqn:Hb; simpl; [|done].
  destruct (enabled b !! p); simpl; [done|].
  by apply (same_ids_with_object st a b).
Qed.

Lemma keeps_ids_ignored_getitem a p : keeps_ids (ignored_getitem a p).
Proof.
  intros st. unfold ignored_getitem, mbind, M_bind, bind, load, store.
  destruct (objects st !! a) as [b|] eqn:Hb; simpl; [|done].
  destruct (ignored b !! p); simpl; [done|].
  by apply (same_ids_with_object st a b).
Qed.

Lemma keeps_ids_ignored_setitem a p v : keeps_ids (ignored_setitem a p v).
Proof.
  intros st. unfold ignored_setitem, mbind, M_bind, bind, load, store.
  destruct (objects st !! a) as [b|] eqn:Hb; simpl; [|done].
  by apply (same_ids_with_object st a b).
Qed.

Lemma keeps_ids_load_bind {A} a (k : breakpoint → M A) :
  (∀ b, keeps_ids (k b)) → keeps_ids (load a ≫= k).
Proof.
  intros Hk. apply keeps_ids_bind; [|done].
  intros st. unfold load. by destruct (objects st !! a).
Qed.

(** [_remove] leaves the [_id] slot as it is: a removed id is not handed
    to another instance, and the instance keeps naming it. *)
Lemma keeps_ids_remove a : keeps_ids (_remove a).
Proof.
  intros st. unfold _remove, mbind, M_bind, bind, load, store.
  destruct (objects st !! a) as [b|] eqn:Hb; simpl; [|done].
  pose proof (same_ids_with_object st a b (set_enabled ∅ b) Hb eq_refl) as H.
  destruct (_id b) as [i|]; simpl; [|done].
  destruct (_instances st !! i); simpl; [|done].
  destruct (_break_locations st !! location b) as [s|]; simpl; [|done].
  by destruct (decide (a ∈ s)).
Qed.

Lemma keeps_ids_count_or_fire a p rel : keeps_ids (count_or_fire a p rel).
Proof.
  unfold count_or_fire. apply keeps_ids_bind; [apply keeps_ids_ignored_getitem|].
  intros n. destruct (0 <? n)%Z.
  - apply keeps_ids_bind; [apply keeps_ids_ignored_getitem|]. intros m.
    apply keeps_ids_bind; [apply keeps_ids_ignored_setitem|]. intros _.
    apply keeps_ids_ret.
  - apply keeps_ids_load_bind. intros b. destruct (temporary b).
    + apply keeps_ids_bind; [apply keeps_ids_remove|]. intros _.
      apply keeps_ids_ret.
    + apply keeps_ids_ret.
Qed.

Lemma keeps_ids_visit fr p a rel : keeps_ids (visit eval fr p a rel).
Proof.
  unfold visit. apply keeps_ids_bind; [apply keeps_ids_enabled_getitem|].
  intros on. destruct (negb on); [apply keeps_ids_ret|].
  intros st. unfold mbind at 1. unfold M_bind, bind at 1. unfold load at 1.
  destruct (objects st !! a) as [b|] eqn:Hb; simpl; [|done].
  unfold mbind at 1. unfold M_bind, bind at 1.
  destruct (trip b fr) as [t|e]; simpl; [|done].
  destruct (negb t); simpl; [done|].
  unfold mbind at 1. unfold M_bind, bind at 1. simpl.
  eapply same_ids_trans;
    [by apply (same_ids_with_object st a b (set_hits (hits b + 1) b))|].
  apply keeps_ids_load_bind. intros b'.
  destruct (negb (condition_set (condition b'))); [apply keeps_ids_count_or_fire|].
  apply keeps_ids_try_except; [|apply keeps_ids_ret].
  apply keeps_ids_bind.
  - intros st'. unfold eval_condition. by destruct (eval _ _ _).
  - intros r. destruct r; [apply keeps_ids_count_or_fire | apply keeps_ids_ret].
Qed.

Lemma keeps_ids_relevant_loop fr p possible rel :
  keeps_ids (relevant_loop eval fr p possible rel).
Proof.
  revert rel. induction possible as [|a rest IH]; intros rel; simpl.
  - apply keeps_ids_ret.
  - apply keeps_ids_bind; [apply keeps_ids_visit | intros r; apply IH].
Qed.

Lemma keeps_ids_relevant_breakpoints fr p :
  keeps_ids (relevant_breakpoints eval fr p).
Proof.
  unfold relevant_breakpoints. apply keeps_ids_bind; [by intros st|].
  intros st0. apply keeps_ids_bind; [|intros l; apply keeps_ids_relevant_loop].
  intros st. unfold lift. by destruct (py_add _ _).
Qed.

(** Along such computations an assigned id stays, and ids stay below the
    counter. *)
Lemma same_ids_keeps_id st st' a b i :
  same_ids st st' → objects st !! a = Some b → _id b = Some i →
  ∃ b', objects st' !! a = Some b' ∧ _id b' = Some i.
Proof.
  intros [_ Ho] Hb Hi. specialize (Ho a). rewrite Hb in Ho. simpl in Ho.
  destruct (objects st' !! a) as [b'|]; [|done].
  exists b'. split; [done|]. simpl in Ho. congruence.
Qed.

Lemma same_ids_bounded st st' :
  same_ids st st' → ids_bounded st → ids_bounded st'.
Proof.
  intros [Hc Ho] Hst a b' i Hb' Hi. rewrite Hc. specialize (Ho a).
  rewrite Hb' in Ho. simpl in Ho.
  destruct (objects st !! a) as [b|] eqn:Hb; [|done].
  apply (Hst a b i Hb). simpl in Ho. congruence.
Qed.

End id_stability.

Section evaluator_claims.

Import Breakpoint.

Variable eval : string → gmap string pyobject → gmap string pyobject → eval_result.

(** The two parties of the scenario. *)
Definition P1 : party := Some 1.
Definition P2 : party := Some 2.

(** The breakpoint at line 10 of [a.py], registered and enabled for
    [P1]. *)
Definition armed_a10 : registry :=
  final_store (enable 1%positive P1 one_registered).

(** The instance as the scenario has left it. *)
Definition armed_bp : breakpoint :=
  set_enabled (<[P1 := true]> ∅) (set_id 1 bp_a10).

(** On the scenario of C1 the candidate loop, handed the breakpoint,
    does what the scenario expects: one hit and the breakpoint for [P1],
    then nothing and no further hit for [P2]. *)
Lemma scenario_loop_alone :
  ∃ st1 st2,
    relevant_loop eval frame_a10 P1 [1%positive] ∅ armed_a10 = Return {[1%positive]} st1 ∧
    hits <$> objects st1 !! 1%positive = Some 1%Z ∧
    relevant_loop eval frame_a10 P2 [1%positive] ∅ st1 = Return ∅ st2 ∧
    hits <$> objects st2 !! 1%positive = Some 1%Z.
Proof.
  assert (Hv1 : visit eval frame_a10 P1 1%positive ∅ armed_a10 =
                Return (∅ ∪ {[1%positive]})
                  (with_object 1%positive (touch_ignored P1 (hit armed_bp)) armed_a10)).
  { apply visit_fires; try reflexivity. by left. }
  rewrite (left_id_L ∅ (∪)) in Hv1.
  eexists _, _. split; [|split; [|split]].
  - apply relevant_loop_one, Hv1.
  - reflexivity.
  - eapply relevant_loop_one.
    apply (visit_not_enabled eval _ (touch_ignored P1 (hit armed_bp)));
      [reflexivity | done].
  - reflexivity.
Qed.

(** The same breakpoint enabled for [P1] but never registered: the
    constructor alone enters nothing in the indices. *)
Definition enabled_only_a10 : registry :=
  final_store (enable 1%positive P1 one_detached).

(** C1: on the scenario itself, breakpoint registered at [("a.py", 10)]
    and enabled for [P1], frame at line 10 of [a.py], the call for [P1]
    raises [TypeError] when it adds the set stored under the line key to
    the empty list of the function key; it returns no set, and [hits]
    stays 0.  Had the breakpoint only been constructed and enabled, the
    call would return the empty set. *)
Theorem C1_scenario_raises_TypeError :
  (_break_locations armed_a10 !! frame_location_by_line frame_a10 = Some {[1%positive]} ∧
   _break_locations armed_a10 !! frame_location_by_function frame_a10 = None ∧
   relevant_breakpoints eval frame_a10 P1 armed_a10 = Raise TypeError armed_a10 ∧
   hits <$> objects armed_a10 !! 1%positive = Some 0%Z)
  ∧
  relevant_breakpoints eval frame_a10 P1 enabled_only_a10 = Return ∅ enabled_only_a10.
Proof.
  split.
  - split; [reflexivity|]. split; [reflexivity|]. split; [|reflexivity].
    apply relevant_breakpoints_entry. left. by eexists.
  - by apply relevant_breakpoints_no_entry.
Qed.

(** X28: when the condition of an enabled breakpoint that trips raises
    during evaluation, the pass of the loop over that breakpoint ends
    normally with the breakpoint added to [relevant], only the hit counted
    and the party's ignore count as it was; the loop goes on with the next
    candidate, and whatever set it returns contains the breakpoint. *)
Theorem loop_fires_on_raising_condition a b p fr rel st :
  objects st !! a = Some b →
  enabled b !! p = Some true →
  trip b fr = Val true →
  condition_raises eval b fr →
  let st' := with_object a (hit b) st in
  visit eval fr p a rel st = Return (rel ∪ {[a]}) st' ∧
  ignored <$> objects st' !! a = Some (ignored b) ∧
  relevant_loop eval fr p [a] rel st = Return (rel ∪ {[a]}) st' ∧
  (∀ rest,
     relevant_loop eval fr p (a :: rest) rel st =
     relevant_loop eval fr p rest (rel ∪ {[a]}) st') ∧
  (∀ rest rel' st'',
     relevant_loop eval fr p (a :: rest) rel st = Return rel' st'' → a ∈ rel').
Proof.
  intros Hb Hp Ht Hraise st'.
  pose proof (visit_condition_raises eval _ _ _ _ rel _ Hb Hp Ht Hraise) as Hv.
  split; [done|].
  split; [subst st'; simpl; by rewrite lookup_insert_eq|].
  split; [by apply relevant_loop_one|].
  split; [intros rest; by apply relevant_loop_cons|].
  intros rest rel' st''. rewrite (relevant_loop_cons _ _ _ _ _ _ _ _ _ Hv).
  intros H%relevant_loop_grows. set_solver.
Qed.

(** The registry when, after [ignore(p, n)], [k] passes have been
    suppressed: [k] more hits, [n - k] passes left to ignore. *)
Definition after_passes (a : addr) (b : breakpoint) (p : party) (n k : Z)
    (st : registry) : registry :=
  with_object a
    (set_ignored (<[p := (n - k)%Z]> (ignored b)) (set_hits (hits b + k)%Z b)) st.

Lemma after_passes_start a b p n st :
  objects st !! a = Some b →
  ignore a p n st = Return tt (after_passes a b p n 0 st).
Proof.
  intros Hb. unfold ignore.
  rewrite (bind_Return _ _ _ _ _ (load_Some _ _ _ Hb)).
  unfold store, after_passes. do 3 f_equal.
  - by rewrite Z.sub_0_r.
  - destruct b; unfold set_hits; simpl. by rewrite Z.add_0_r.
Qed.

Lemma after_passes_step a b p n k fr st :
  enabled b !! p = Some true → trip b fr = Val true → passes eval b fr →
  (k < n)%Z →
  visit eval fr p a ∅ (after_passes a b p n k st) =
    Return ∅ (after_passes a b p n (k + 1) st).
Proof.
  intros Hp Ht Hpass Hk. unfold after_passes.
  rewrite (visit_suppressed eval a
             (set_ignored (<[p := (n - k)%Z]> (ignored b))
                (set_hits (hits b + k)%Z b)) p fr ∅ _ (n - k)%Z).
  - rewrite with_object_twice. unfold hit, set_ignored, set_hits; simpl.
    rewrite insert_insert_eq.
    replace (n - (k + 1))%Z with (n - k - 1)%Z by lia.
    by replace (hits b + (k + 1))%Z with (hits b + k + 1)%Z by lia.
  - simpl. apply lookup_insert_eq.
  - done.
  - done.
  - done.
  - simpl. apply lookup_insert_eq.
  - lia.
Qed.

(** X29: the loop handed one candidate, a breakpoint enabled for the
    party, not temporary or else known to both indices, whose condition is
    absent or evaluates to a true value at each of these trips: after
    [ignore(party, n)] with [n > 0], each of the next [n] passes over it
    that trip adds nothing to [relevant], counts one hit and lowers the
    party's ignore count by one, and the pass after these adds the
    breakpoint to [relevant]. *)
Theorem loop_suppresses_n_passes a b p n st :
  objects st !! a = Some b →
  enabled b !! p = Some true →
  (0 < n)%Z →
  (temporary b = true → registered st a b) →
  ignore a p n st = Return tt (after_passes a b p n 0 st) ∧
  (∀ k fr, (0 ≤ k < n)%Z → trip b fr = Val true → passes eval b fr →
     let st' := after_passes a b p n (k + 1) st in
     relevant_loop eval fr p [a] ∅ (after_passes a b p n k st) = Return ∅ st' ∧
     hits <$> objects st' !! a = Some (hits b + k + 1)%Z ∧
     (λ x, ignored x !! p) <$> objects st' !! a = Some (Some (n - k - 1)%Z)) ∧
  (∀ fr, trip b fr = Val true → passes eval b fr →
     ∃ st',
       relevant_loop eval fr p [a] ∅ (after_passes a b p n n st) = Return {[a]} st' ∧
       hits <$> objects st' !! a = Some (hits b + n + 1)%Z).
Proof.
  intros Hb Hp Hn Hreg. split; [by apply after_passes_start|]. split.
  - intros k fr [Hk0 Hk] Ht Hpass st'. split; [|split].
    + apply relevant_loop_one. by apply after_passes_step.
    + subst st'. unfold after_passes; simpl. rewrite lookup_insert_eq. simpl.
      f_equal; lia.
    + subst st'. unfold after_passes; simpl. rewrite lookup_insert_eq. simpl.
      rewrite lookup_insert_eq. do 2 f_equal; lia.
  - intros fr Ht Hpass. unfold after_passes.
    set (bn := set_ignored (<[p := (n - n)%Z]> (ignored b))
                 (set_hits (hits b + n)%Z b)).
    assert (Hbn : objects (with_object a bn st) !! a = Some bn).
    { simpl. apply lookup_insert_eq. }
    assert (Hzero : (default 0 (ignored bn !! p) ≤ 0)%Z).
    { subst bn; simpl. rewrite lookup_insert_eq. simpl. lia. }
    destruct (temporary b) eqn:Htmp.
    + eexists. split.
      * apply relevant_loop_one. rewrite <- (left_id_L ∅ (∪) {[a]}).
        apply (visit_retires eval a bn); try done.
        apply (registered_with_object st a b); [by apply Hreg | done | done].
      * simpl. rewrite lookup_insert_eq. simpl. f_equal; lia.
    + eexists. split.
      * apply relevant_loop_one. rewrite <- (left_id_L ∅ (∪) {[a]}).
        by apply (visit_fires eval a bn).
      * simpl. rewrite lookup_insert_eq. simpl. f_equal; lia.
Qed.

(** X30: a pass of the loop over a temporary breakpoint that both
    indices know, and that is enabled and trips: a pass suppressed by the
    party's ignore count leaves it in both indices; a pass that fires it
    from the ignore-count test (condition absent or true) takes it out of
    [_instances] and out of its location's set in that same pass, after
    which a pass over it adds nothing; a pass that fires it because its
    condition raised leaves it in both indices. *)
Theorem loop_retires_on_counted_fire a b p fr rel st :
  objects st !! a = Some b →
  temporary b = true →
  enabled b !! p = Some true →
  trip b fr = Val true →
  registered st a b →
  (∀ n, passes eval b fr → ignored b !! p = Some n → (0 < n)%Z →
     ∃ st', visit eval fr p a rel st = Return rel st' ∧
            _instances st' = _instances st ∧
            _break_locations st' = _break_locations st)
  ∧
  (passes eval b fr → (default 0 (ignored b !! p) ≤ 0)%Z →
     ∃ st', visit eval fr p a rel st = Return (rel ∪ {[a]}) st' ∧
            (∀ i, _id b = Some i → _instances st' !! i = None) ∧
            (∃ s, _break_locations st' !! location b = Some s ∧ a ∉ s) ∧
            (∀ fr' p' rel', ∃ st'',
                visit eval fr' p' a rel' st' = Return rel' st''))
  ∧
  (condition_raises eval b fr →
     ∃ st', visit eval fr p a rel st = Return (rel ∪ {[a]}) st' ∧
            _instances st' = _instances st ∧
            _break_locations st' = _break_locations st).
Proof.
  intros Hb Htmp Hp Ht Hreg. split; [|split].
  - intros n Hpass Hi Hn. eexists. split; [by eapply visit_suppressed | done].
  - intros Hpass Hn. eexists. split; [by apply visit_retires|].
    split; [|split].
    + intros i Hi. by apply (retired_unregistered a (touch_ignored p (hit b))).
    + destruct Hreg as (i & _ & Hi & _).
      by apply (retired_unregistered a (touch_ignored p (hit b)) st i).
    + intros fr' p' rel'. eexists.
      eapply visit_not_enabled; [simpl; apply lookup_insert_eq | done].
  - intros Hraise. eexists. split; [by apply visit_condition_raises | done].
Qed.

End evaluator_claims.

(** ** The evaluator on concrete registries *)

Section evaluator_examples.

Import Breakpoint.

(** Two evaluators: every condition raises, every condition is true. *)
Definition eval_raises (_ : string) (_ _ : gmap string pyobject) : eval_result :=
  EvalRaises.

Definition eval_true (_ : string) (_ _ : gmap string pyobject) : eval_result :=
  EvalYields true.

(** The registry in which [b] has been constructed at address 1,
    registered, and enabled for [P1]. *)
Definition armed (b : breakpoint) : registry :=
  final_store
    ((new 1%positive b;; _add 1%positive;; enable 1%positive P1) fresh_registry).

(** The same instance as [armed b] holds it. *)
Definition in_arms (b : breakpoint) : breakpoint :=
  set_enabled (<[P1 := true]> (enabled b)) (set_id 1 b).

Definition bp_temporary : breakpoint :=
  __init__ "a.py" (IntLike 10) true None "".

Definition bp_temporary_boom : breakpoint :=
  __init__ "a.py" (IntLike 10) true (Some "boom") "".

Definition bp_boom : breakpoint :=
  __init__ "a.py" (IntLike 10) false (Some "boom") "".

Lemma armed_unfold b :
  _id b = None →
  armed b =
    with_object 1%positive (in_arms b)
      (registered_as (with_object 1%positive b fresh_registry) 1%positive b).
Proof.
  intros Hid. unfold armed.
  assert (Hnew : new 1%positive b fresh_registry =
                 Return tt (with_object 1%positive b fresh_registry)) by done.
  rewrite (bind_Return _ _ _ _ _ Hnew).
  assert (Hobj : objects (with_object 1%positive b fresh_registry) !! 1%positive
                 = Some b) by apply lookup_insert_eq.
  rewrite (bind_Return _ _ _ _ _ (add_detached _ _ _ Hobj Hid)).
  unfold enable.
  assert (Hload : objects (registered_as (with_object 1%positive b fresh_registry)
                             1%positive b) !! 1%positive = Some (set_id 1 b)).
  { simpl. apply lookup_insert_eq. }
  by rewrite (bind_Return _ _ _ _ _ (load_Some _ _ _ Hload)).
Qed.

Lemma armed_registered b :
  _id b = None → registered (armed b) 1%positive (in_arms b).
Proof.
  intros Hid. rewrite (armed_unfold _ Hid).
  exists 1%Z, {[1%positive]}. split; [done|].
  split; [simpl; by rewrite lookup_insert_eq|].
  split; [|by apply elem_of_singleton].
  change (location (in_arms b)) with (location b). simpl.
  rewrite lookup_insert_eq, lookup_empty. simpl. by rewrite (left_id_L ∅ (∪)).
Qed.

Lemma armed_object b :
  _id b = None → objects (armed b) !! 1%positive = Some (in_arms b).
Proof. intros Hid. rewrite (armed_unfold _ Hid). apply lookup_insert_eq. Qed.

(** Whatever [b] is, the registry [armed b] holds its set under the key of
    its location, so a frame with that line key or function key makes the
    evaluator raise at the sum of lines 167-168. *)
Lemma armed_raises eval b fr p :
  _id b = None →
  location b = frame_location_by_line fr ∨
  location b = frame_location_by_function fr →
  relevant_breakpoints eval fr p (armed b) = Raise TypeError (armed b).
Proof.
  intros Hid Hloc. apply relevant_breakpoints_entry.
  destruct (armed_registered b Hid) as (i & s & _ & _ & Hs & _).
  change (location (in_arms b)) with (location b) in Hs.
  destruct Hloc as [<-|<-]; [left | right]; by eexists.
Qed.

(** C3: a temporary breakpoint at [("a.py", 10)], constructed, registered
    and enabled for [P1], and a frame at that position.  The call for
    [P1] raises [TypeError] at the sum of lines 167-168, before the loop
    looks at a candidate: the breakpoint, which is enabled and trips on the
    frame, is in no returned set, is not counted, and stays in both
    indices, where the claim has it fire and be removed. *)
Theorem C3_temporary_scenario_raises_TypeError eval :
  let st := armed bp_temporary in
  let b := in_arms bp_temporary in
  objects st !! 1%positive = Some b ∧
  temporary b = true ∧
  enabled b !! P1 = Some true ∧
  trip b frame_a10 = Val true ∧
  default 0%Z (ignored b !! P1) = 0%Z ∧
  condition_set (condition b) = false ∧
  relevant_breakpoints eval frame_a10 P1 st = Raise TypeError st ∧
  hits b = 0%Z ∧
  _instances st !! 1%Z = Some 1%positive ∧
  _break_locations st !! frame_location_by_line frame_a10 = Some {[1%positive]}.
Proof.
  intros st b.
  assert (H : relevant_breakpoints eval frame_a10 P1 st = Raise TypeError st).
  { apply armed_raises; [done | by left]. }
  split_and!; try reflexivity; exact H.
Qed.

(** C4: the breakpoint at [("a.py", 10)], registered and enabled for
    [P1], after [ignore(P1, 2)], and a frame at that position.  The call
    for [P1] raises [TypeError] at the sum of lines 167-168 and writes
    nothing: no hit is counted, the ignore count stays 2, and since the
    registry is as before, every further call does the same; no trip is
    suppressed and none ever fires. *)
Theorem C4_ignore_scenario_raises_TypeError eval :
  let st := final_store (ignore 1%positive P1 2 (armed bp_a10)) in
  (∃ b, objects st !! 1%positive = Some b ∧
        enabled b !! P1 = Some true ∧
        trip b frame_a10 = Val true ∧
        ignored b !! P1 = Some 2%Z ∧
        hits b = 0%Z) ∧
  relevant_breakpoints eval frame_a10 P1 st = Raise TypeError st ∧
  final_store (relevant_breakpoints eval frame_a10 P1 st) = st.
Proof.
  intros st.
  assert (H : relevant_breakpoints eval frame_a10 P1 st = Raise TypeError st).
  { apply relevant_breakpoints_entry. left. by eexists. }
  split; [eexists; split_and!; reflexivity|].
  split; [exact H | by rewrite H].
Qed.

(** C5: a breakpoint at [("a.py", 10)] whose condition raises whenever
    it is evaluated, registered and enabled for [P1], and a frame at that
    position.  The call for [P1] raises [TypeError] at the sum of lines
    167-168: the condition is not evaluated, the breakpoint is in no
    returned set, and an exception does leave the evaluator. *)
Theorem C5_raising_condition_scenario_raises_TypeError :
  let st := armed bp_boom in
  let b := in_arms bp_boom in
  objects st !! 1%positive = Some b ∧
  enabled b !! P1 = Some true ∧
  trip b frame_a10 = Val true ∧
  condition_raises eval_raises b frame_a10 ∧
  relevant_breakpoints eval_raises frame_a10 P1 st = Raise TypeError st ∧
  hits b = 0%Z.
Proof.
  intros st b.
  assert (H : relevant_breakpoints eval_raises frame_a10 P1 st = Raise TypeError st).
  { apply armed_raises; [done | by left]. }
  assert (Hc : condition_raises eval_raises b frame_a10) by (by split).
  split; [reflexivity|]. split; [reflexivity|]. split; [reflexivity|].
  split; [exact Hc|]. split; [exact H | reflexivity].
Qed.

(** Handed the candidate, the loop adds a temporary breakpoint whose
    condition raises and yet leaves it in both indices, so that the next
    pass at the same position adds it again. *)
Lemma fire_on_error_keeps_temporary :
  ∃ st' st'',
    temporary bp_temporary_boom = true ∧
    relevant_loop eval_raises frame_a10 P1 [1%positive] ∅ (armed bp_temporary_boom)
      = Return {[1%positive]} st' ∧
    _instances st' !! 1%Z = Some 1%positive ∧
    _break_locations st' !! frame_location_by_line frame_a10 = Some {[1%positive]} ∧
    relevant_loop eval_raises frame_a10 P1 [1%positive] ∅ st'
      = Return {[1%positive]} st''.
Proof.
  eexists _, _. split; [reflexivity|]. split; [vm_compute; reflexivity|].
  split; [reflexivity|]. split; [reflexivity|]. vm_compute; reflexivity.
Qed.

(** Handed the candidate after [ignore(P1, 1)], the loop adds a
    breakpoint whose condition raises at the very next trip, and the
    ignore count is still 1. *)
Lemma fire_on_error_despite_ignore :
  ∃ st',
    relevant_loop eval_raises frame_a10 P1 [1%positive] ∅
      (final_store (ignore 1%positive P1 1 (armed bp_boom)))
      = Return {[1%positive]} st' ∧
    (λ x, ignored x !! P1) <$> objects st' !! 1%positive = Some (Some 1%Z) ∧
    hits <$> objects st' !! 1%positive = Some 1%Z.
Proof.
  eexists. split; [vm_compute; reflexivity|]. split; reflexivity.
Qed.

Lemma loop_fires_on_raising_condition_witness :
  objects (armed bp_boom) !! 1%positive = Some (in_arms bp_boom) ∧
  enabled (in_arms bp_boom) !! P1 = Some true ∧
  trip (in_arms bp_boom) frame_a10 = Val true ∧
  condition_raises eval_raises (in_arms bp_boom) frame_a10 ∧
  relevant_loop eval_raises frame_a10 P1 [1%positive] ∅ (armed bp_boom) =
    Return (∅ ∪ {[1%positive]})
      (with_object 1%positive (hit (in_arms bp_boom)) (armed bp_boom)) ∧
  ignored <$>
    objects (with_object 1%positive (hit (in_arms bp_boom)) (armed bp_boom))
      !! 1%positive = Some (ignored (in_arms bp_boom)).
Proof.
  assert (H1 : objects (armed bp_boom) !! 1%positive = Some (in_arms bp_boom))
    by reflexivity.
  assert (H2 : enabled (in_arms bp_boom) !! P1 = Some true) by reflexivity.
  assert (H3 : trip (in_arms bp_boom) frame_a10 = Val true) by reflexivity.
  assert (H4 : condition_raises eval_raises (in_arms bp_boom) frame_a10).
  { split; reflexivity. }
  pose proof (loop_fires_on_raising_condition eval_raises 1%positive _ P1 frame_a10 ∅ _
                H1 H2 H3 H4) as H.
  cbv zeta in H. destruct H as (_ & Hign & Hloop & _).
  split; [exact H1|]. split; [exact H2|]. split; [exact H3|].
  split; [exact H4|]. split; [exact Hloop | exact Hign].
Defined.

(** The example of the specification: a temporary breakpoint at function
    [foo], enabled for [P1], told to ignore two passes. *)
Definition bp_foo_temporary : breakpoint :=
  __init__ "a.py" (NotInt "foo") true None "".

Lemma loop_suppresses_n_passes_witness :
  let b := in_arms bp_foo_temporary in
  let st := armed bp_foo_temporary in
  objects st !! 1%positive = Some b ∧
  enabled b !! P1 = Some true ∧
  (0 < 2)%Z ∧
  registered st 1%positive b ∧
  trip b frame_foo_entry = Val true ∧
  passes eval_true b frame_foo_entry ∧
  ignore 1%positive P1 2 st = Return tt (after_passes 1%positive b P1 2 0 st) ∧
  relevant_loop eval_true frame_foo_entry P1 [1%positive] ∅
    (after_passes 1%positive b P1 2 0 st) =
    Return ∅ (after_passes 1%positive b P1 2 1 st) ∧
  relevant_loop eval_true frame_foo_entry P1 [1%positive] ∅
    (after_passes 1%positive b P1 2 1 st) =
    Return ∅ (after_passes 1%positive b P1 2 2 st) ∧
  ∃ st',
    relevant_loop eval_true frame_foo_entry P1 [1%positive] ∅
      (after_passes 1%positive b P1 2 2 st) = Return {[1%positive]} st' ∧
    hits <$> objects st' !! 1%positive = Some 3%Z.
Proof.
  intros b st.
  assert (H1 : objects st !! 1%positive = Some b) by reflexivity.
  assert (H2 : enabled b !! P1 = Some true) by reflexivity.
  assert (H3 : (0 < 2)%Z) by lia.
  assert (H4 : registered st 1%positive b) by (by apply armed_registered).
  assert (H5 : trip b frame_foo_entry = Val true) by reflexivity.
  assert (H6 : passes eval_true b frame_foo_entry) by (by left).
  destruct (loop_suppresses_n_passes eval_true 1%positive b P1 2 st
              H1 H2 H3 (λ _, H4)) as (Hstart & Hnext & Hlast).
  destruct (Hnext 0%Z frame_foo_entry ltac:(lia) H5 H6) as (Hfirst & _).
  destruct (Hnext 1%Z frame_foo_entry ltac:(lia) H5 H6) as (Hsecond & _).
  repeat (split; [assumption|]).
  exact (Hlast frame_foo_entry H5 H6).
Defined.

Lemma loop_retires_on_counted_fire_witness :
  let b := in_arms bp_temporary in
  let st := armed bp_temporary in
  let b1 := set_ignored (<[P1 := 1%Z]> (ignored b)) b in
  let st1 := with_object 1%positive b1 st in
  let c := in_arms bp_temporary_boom in
  let stc := armed bp_temporary_boom in
  (registered st1 1%positive b1 ∧
   ∃ st', visit eval_true frame_a10 P1 1%positive ∅ st1 = Return ∅ st' ∧
          _instances st' = _instances st1 ∧
          _break_locations st' = _break_locations st1)
  ∧
  (registered st 1%positive b ∧
   ∃ st', visit eval_true frame_a10 P1 1%positive ∅ st = Return (∅ ∪ {[1%positive]}) st' ∧
          (∀ i, _id b = Some i → _instances st' !! i = None) ∧
          (∃ s, _break_locations st' !! location b = Some s ∧ 1%positive ∉ s) ∧
          (∀ fr' p' rel', ∃ st'',
              visit eval_true fr' p' 1%positive rel' st' = Return rel' st''))
  ∧
  (registered stc 1%positive c ∧
   ∃ st', visit eval_raises frame_a10 P1 1%positive ∅ stc = Return (∅ ∪ {[1%positive]}) st' ∧
          _instances st' = _instances stc ∧
          _break_locations st' = _break_locations stc).
Proof.
  intros b st b1 st1 c stc.
  assert (Hreg : registered st 1%positive b) by (by apply armed_registered).
  assert (Hreg1 : registered st1 1%positive b1).
  { by apply (registered_with_object st 1%positive b). }
  assert (Hregc : registered stc 1%positive c) by (by apply armed_registered).
  destruct (loop_retires_on_counted_fire eval_true 1%positive b1 P1
              frame_a10 ∅ st1 eq_refl eq_refl eq_refl eq_refl Hreg1) as (HA & _ & _).
  destruct (loop_retires_on_counted_fire eval_true 1%positive b P1
              frame_a10 ∅ st eq_refl eq_refl eq_refl eq_refl Hreg) as (_ & HB & _).
  destruct (loop_retires_on_counted_fire eval_raises 1%positive c P1
              frame_a10 ∅ stc eq_refl eq_refl eq_refl eq_refl Hregc) as (_ & _ & HC).
  split; [|split].
  - split; [exact Hreg1|].
    apply (HA 1%Z); [by left | reflexivity | lia].
  - split; [exact Hreg|]. apply HB; [by left | reflexivity].
  - split; [exact Hregc|]. apply HC. split; reflexivity.
Defined.

End evaluator_examples.

(** * Properties of the stream hijacker *)

Section hijack_facts.

Import SysHijack.

Lemma hijack_bind_Return {A B} (m : M A) (k : A → M B) w x w' :
  m w = Return x w' → (m ≫= k) w = k x w'.
Proof. intros H. unfold mbind, M_bind, bind. by rewrite H. Qed.

Lemma hijack_bind_Raise {A B} (m : M A) (k : A → M B) w e w' :
  m w = Raise e w' → (m ≫= k) w = Raise e w'.
Proof. intros H. unfold mbind, M_bind, bind. by rewrite H. Qed.

(** A world whose instance targets [t], a thread with sys-state [sys]. *)
Definition targets (w : world) (t : thread) (sys : gmap string value) : Prop :=
  slots w !! "_target_thread" = Some (ThreadRef t) ∧ thread_sys w !! t = Some sys.

Lemma thread_sys_targets w t sys : targets w t sys → _thread_sys w = Return t w.
Proof.
  intros [Hs Ht]. unfold _thread_sys, _thread_state.
  assert (Htt : target_thread w = Return (ThreadRef t) w).
  { unfold target_thread. by rewrite Hs. }
  rewrite (hijack_bind_Return _ _ _ _ _ Htt). unfold getThreadState.
  rewrite Ht. by rewrite decide_True by by eexists.
Qed.

Lemma targets_with_sys w t sys sys' :
  targets w t sys → targets (with_sys t sys' w) t sys'.
Proof. intros [Hs Ht]. split; [done | apply lookup_insert_eq]. Qed.

Lemma targets_with_slot w t sys name v :
  targets w t sys → name ≠ "_target_thread" → targets (with_slot name v w) t sys.
Proof.
  intros [Hs Ht] Hne. split; [|done]. simpl. by rewrite lookup_insert_ne.
Qed.

Lemma with_sys_twice t s s' w : with_sys t s' (with_sys t s w) = with_sys t s' w.
Proof. unfold with_sys; simpl. by rewrite insert_insert_eq. Qed.

Lemma read_slot_set w name v : slots w !! name = Some v → read_slot name w = Return v w.
Proof. intros H. unfold read_slot, mbind, M_bind, bind, get. by rewrite H. Qed.

(** [__getattr__] never hands a value back. *)
Lemma getattr_raises attribute w :
  ∃ e, __getattr__ attribute w = Raise e w.
Proof.
  unfold __getattr__, _thread_sys, _thread_state, mbind, M_bind, bind.
  unfold target_thread, getThreadState.
  destruct (slots w !! "_target_thread") as [[o|t|? ? ? ?]|]; try by eexists.
  destruct (decide (is_Some (thread_sys w !! t))); by eexists.
Qed.

Lemma getattr_TypeError attribute w t sys :
  targets w t sys → __getattr__ attribute w = Raise TypeError w.
Proof.
  intros H. unfold __getattr__.
  by rewrite (hijack_bind_Return _ _ _ _ _ (thread_sys_targets _ _ _ H)).
Qed.

(** Writing a name that is not an assignable slot lands on the sys-state
    object of the target thread. *)
Lemma setattr_forwarded attribute v w t sys :
  targets w t sys → attribute ∉ assignable_slots →
  __setattr__ attribute v w = Return tt (with_sys t (<[attribute := v]> sys) w).
Proof.
  intros H Hn. unfold __setattr__. rewrite bool_decide_eq_false_2 by done.
  rewrite (hijack_bind_Return _ _ _ _ _ (thread_sys_targets _ _ _ H)).
  unfold sys_setattr. destruct H as [_ Ht]. by rewrite Ht.
Qed.

Lemma setattr_slot attribute v w :
  attribute ∈ assignable_slots →
  __setattr__ attribute v w = Return tt (with_slot attribute v w).
Proof. intros H. unfold __setattr__. by rewrite bool_decide_eq_true_2. Qed.

Lemma capture_one_spec slot name v w t sys :
  targets w t sys → sys !! name = Some v →
  slot ∈ assignable_slots →
  capture_one slot name w = Return tt (with_slot slot v w).
Proof.
  intros H Hv Hin. unfold capture_one.
  rewrite (hijack_bind_Return _ _ _ _ _ (thread_sys_targets _ _ _ H)).
  assert (Hget : sys_getattr t name w = Return v w).
  { unfold sys_getattr. destruct H as [_ Ht]. by rewrite Ht, Hv. }
  rewrite (hijack_bind_Return _ _ _ _ _ Hget). by apply setattr_slot.
Qed.

Lemma install_one_spec name x w t sys i o e d :
  targets w t sys → slots w !! "_io_proxy" = Some (ProxyIO i o e d) →
  proxy_getattr (ProxyIO i o e d) name w = Return x w →
  install_one name w = Return tt (with_sys t (<[name := x]> sys) w).
Proof.
  intros H Hp Hx. unfold install_one.
  rewrite (hijack_bind_Return _ _ _ _ _ (read_slot_set _ _ _ Hp)).
  rewrite (hijack_bind_Return _ _ _ _ _ Hx).
  rewrite (hijack_bind_Return _ _ _ _ _ (thread_sys_targets _ _ _ H)).
  unfold sys_setattr. destruct H as [_ Ht]. by rewrite Ht.
Qed.

Lemma restore_one_spec name slot v w t sys :
  targets w t sys → slots w !! slot = Some v →
  restore_one name slot w = Return tt (with_sys t (<[name := v]> sys) w).
Proof.
  intros H Hv. unfold restore_one.
  rewrite (hijack_bind_Return _ _ _ _ _ (read_slot_set _ _ _ Hv)).
  rewrite (hijack_bind_Return _ _ _ _ _ (thread_sys_targets _ _ _ H)).
  unfold sys_setattr. destruct H as [_ Ht]. by rewrite Ht.
Qed.

Lemma is_slot name :
  bool_decide (name ∈ assignable_slots) = true → name ∈ assignable_slots.
Proof. apply bool_decide_eq_true_1. Qed.

Lemma is_no_slot name :
  bool_decide (name ∈ assignable_slots) = false → name ∉ assignable_slots.
Proof. apply bool_decide_eq_false_1. Qed.

Lemma is_no_member name :
  bool_decide (name ∈ members) = false → name ∉ members.
Proof. apply bool_decide_eq_false_1. Qed.

(** The slots of an instance that has its target, an object in
    [_io_proxy] and the four captured originals. *)
Definition hijacked_slots (t : thread) (proxy i0 o0 e0 d0 : value) : gmap string value :=
  <["_original_displayhook" := d0]>
    (<["_original_stderr" := e0]>
       (<["_original_stdout" := o0]>
          (<["_original_stdin" := i0]>
             (<["_io_proxy" := proxy]>
                (<["_target_thread" := ThreadRef t]> ∅))))).

(** The four endpoints written over a sys-state object. *)
Definition with_endpoints (i o e d : value) (sys : gmap string value) :
    gmap string value :=
  <["displayhook" := d]> (<["stderr" := e]> (<["stdout" := o]> (<["stdin" := i]> sys))).

(** A sys-state object that has the four endpoints. *)
Definition has_endpoints (sys : gmap string value) (i o e d : value) : Prop :=
  sys !! "stdin" = Some i ∧ sys !! "stdout" = Some o ∧
  sys !! "stderr" = Some e ∧ sys !! "displayhook" = Some d.

(** The world in full hijack: the instance with all its slots, the
    target thread's sys-state carrying [_init_time] and the four endpoints
    of the proxy. *)
Definition hijacked (ths : gmap thread (gmap string value)) (t : thread)
    (sys : gmap string value) (pi po pe pd : positive) (now i0 o0 e0 d0 : value) :
    world :=
  {| thread_sys :=
       <[t := with_endpoints (Object pi) (Object po) (Object pe) (Object pd)
                (<["_init_time" := now]> sys)]> ths;
     slots := hijacked_slots t (ProxyIO pi po pe pd) i0 o0 e0 d0 |}.

Lemma install_spec w t sys pi po pe pd :
  targets w t sys → slots w !! "_io_proxy" = Some (ProxyIO pi po pe pd) →
  _install w =
    Return tt
      (with_sys t
         (with_endpoints (Object pi) (Object po) (Object pe) (Object pd) sys) w).
Proof.
  intros H Hp. unfold _install.
  rewrite (hijack_bind_Return _ _ _ _ _
             (install_one_spec "stdin" (Object pi) _ _ _ _ _ _ _ H Hp eq_refl)).
  rewrite (hijack_bind_Return _ _ _ _ _
             (install_one_spec "stdout" (Object po) _ _ _ _ _ _ _
                (targets_with_sys _ _ _ _ H) Hp eq_refl)).
  rewrite with_sys_twice.
  rewrite (hijack_bind_Return _ _ _ _ _
             (install_one_spec "stderr" (Object pe) _ _ _ _ _ _ _
                (targets_with_sys _ _ _ _ H) Hp eq_refl)).
  rewrite with_sys_twice.
  rewrite (install_one_spec "displayhook" (Object pd) _ _ _ _ _ _ _
             (targets_with_sys _ _ _ _ H) Hp eq_refl).
  by rewrite with_sys_twice.
Qed.

Lemma restore_spec w t sys i0 o0 e0 d0 :
  targets w t sys →
  slots w !! "_original_stdin" = Some i0 →
  slots w !! "_original_stdout" = Some o0 →
  slots w !! "_original_stderr" = Some e0 →
  slots w !! "_original_displayhook" = Some d0 →
  _restore w = Return tt (with_sys t (with_endpoints i0 o0 e0 d0 sys) w).
Proof.
  intros H Hi Ho He Hd. unfold _restore.
  rewrite (hijack_bind_Return _ _ _ _ _ (restore_one_spec "stdin" _ _ _ _ _ H Hi)).
  rewrite (hijack_bind_Return _ _ _ _ _
             (restore_one_spec "stdout" _ _ _ _ _ (targets_with_sys _ _ _ _ H) Ho)).
  rewrite with_sys_twice.
  rewrite (hijack_bind_Return _ _ _ _ _
             (restore_one_spec "stderr" _ _ _ _ _ (targets_with_sys _ _ _ _ H) He)).
  rewrite with_sys_twice.
  rewrite (restore_one_spec "displayhook" _ _ _ _ _ (targets_with_sys _ _ _ _ H) Hd).
  by rewrite with_sys_twice.
Qed.

(** The constructor stops at line 26, whatever its arguments and the
    world: [_target_thread] has been assigned, and nothing else. *)
Lemma init_raises thread_arg now w :
  __init__ thread_arg now w = Raise NameError (with_slot "_target_thread" thread_arg w).
Proof.
  unfold __init__.
  by rewrite (hijack_bind_Return _ _ _ _ _
                (setattr_slot "_target_thread" _ _ (is_slot "_target_thread" eq_refl))).
Qed.

(** The statements of the constructor other than line 26, run by hand
    with an object that has the four endpoints in the place of the proxy,
    lead to [hijacked]. *)
Lemma hijacked_by_assignments ths t sys pi po pe pd now i0 o0 e0 d0 :
  ths !! t = Some sys → has_endpoints sys i0 o0 e0 d0 →
  (__setattr__ "_target_thread" (ThreadRef t);;
   __setattr__ "_io_proxy" (ProxyIO pi po pe pd);;
   __setattr__ "_init_time" now;;
   capture_one "_original_stdin" "stdin";;
   capture_one "_original_stdout" "stdout";;
   capture_one "_original_stderr" "stderr";;
   capture_one "_original_displayhook" "displayhook";;
   _install) (blank ths) =
    Return tt (hijacked ths t sys pi po pe pd now i0 o0 e0 d0).
Proof.
  intros Ht (Hi & Ho & He & Hd).
  rewrite (hijack_bind_Return _ _ _ _ _
             (setattr_slot "_target_thread" _ _ (is_slot "_target_thread" eq_refl))).
  rewrite (hijack_bind_Return _ _ _ _ _
             (setattr_slot "_io_proxy" _ _ (is_slot "_io_proxy" eq_refl))).
  set (w2 := with_slot "_io_proxy" _ _).
  assert (H2 : targets w2 t sys) by (split; [reflexivity | exact Ht]).
  rewrite (hijack_bind_Return _ _ _ _ _
             (setattr_forwarded "_init_time" now _ _ _ H2 (is_no_slot "_init_time" eq_refl))).
  set (sys3 := <["_init_time" := now]> sys).
  set (w3 := with_sys t sys3 w2).
  assert (H3 : targets w3 t sys3) by exact (targets_with_sys _ _ _ _ H2).
  assert (Hi3 : sys3 !! "stdin" = Some i0) by (subst sys3; by rewrite lookup_insert_ne).
  assert (Ho3 : sys3 !! "stdout" = Some o0) by (subst sys3; by rewrite lookup_insert_ne).
  assert (He3 : sys3 !! "stderr" = Some e0) by (subst sys3; by rewrite lookup_insert_ne).
  assert (Hd3 : sys3 !! "displayhook" = Some d0)
    by (subst sys3; by rewrite lookup_insert_ne).
  rewrite (hijack_bind_Return _ _ _ _ _
             (capture_one_spec "_original_stdin" "stdin" i0 _ _ _ H3 Hi3
                (is_slot "_original_stdin" eq_refl))).
  set (w4 := with_slot "_original_stdin" i0 w3).
  assert (H4 : targets w4 t sys3) by by apply targets_with_slot.
  rewrite (hijack_bind_Return _ _ _ _ _
             (capture_one_spec "_original_stdout" "stdout" o0 _ _ _ H4 Ho3
                (is_slot "_original_stdout" eq_refl))).
  set (w5 := with_slot "_original_stdout" o0 w4).
  assert (H5 : targets w5 t sys3) by by apply targets_with_slot.
  rewrite (hijack_bind_Return _ _ _ _ _
             (capture_one_spec "_original_stderr" "stderr" e0 _ _ _ H5 He3
                (is_slot "_original_stderr" eq_refl))).
  set (w6 := with_slot "_original_stderr" e0 w5).
  assert (H6 : targets w6 t sys3) by by apply targets_with_slot.
  rewrite (hijack_bind_Return _ _ _ _ _
             (capture_one_spec "_original_displayhook" "displayhook" d0 _ _ _ H6 Hd3
                (is_slot "_original_displayhook" eq_refl))).
  set (w7 := with_slot "_original_displayhook" d0 w6).
  assert (H7 : targets w7 t sys3) by by apply targets_with_slot.
  rewrite (install_spec w7 t sys3 pi po pe pd H7 eq_refl).
  unfold hijacked, with_sys. f_equal. f_equal. simpl.
  by rewrite insert_insert_eq.
Qed.

Lemma with_endpoints_twice i o e d sys :
  with_endpoints i o e d (with_endpoints i o e d sys) = with_endpoints i o e d sys.
Proof.
  apply map_eq. intros k. unfold with_endpoints. rewrite !lookup_insert.
  repeat case_decide; done.
Qed.

Lemma with_endpoints_has i o e d sys :
  has_endpoints (with_endpoints i o e d sys) i o e d.
Proof.
  unfold has_endpoints, with_endpoints. rewrite !lookup_insert.
  repeat split; repeat case_decide; done.
Qed.

Lemma hijacked_targets ths t sys pi po pe pd now i0 o0 e0 d0 :
  targets (hijacked ths t sys pi po pe pd now i0 o0 e0 d0) t
    (with_endpoints (Object pi) (Object po) (Object pe) (Object pd)
       (<["_init_time" := now]> sys)).
Proof. split; [reflexivity | apply lookup_insert_eq]. Qed.

Lemma property_Return name fget w x w' :
  fget w = Return x w' → property name fget w = Return x w'.
Proof. intros H. unfold property. by rewrite H. Qed.

Lemma property_Raise name fget w e w' :
  fget w = Raise e w' → e ≠ AttributeError → property name fget w = Raise e w'.
Proof. intros H He. unfold property. rewrite H. by destruct e. Qed.

(** A getter that raises [AttributeError] ends in [__getattr__]. *)
Lemma property_falls_back name fget w w' :
  fget w = Raise AttributeError w' → property name fget w = __getattr__ name w'.
Proof. intros H. unfold property. by rewrite H. Qed.

Lemma accessor_target name slot x w t pi po pe pd :
  slots w !! "_target_thread" = Some (ThreadRef t) →
  slots w !! "_io_proxy" = Some (ProxyIO pi po pe pd) →
  proxy_getattr (ProxyIO pi po pe pd) name w = Return x w →
  accessor name slot t w = Return x w.
Proof.
  intros Ht Hp Hx. unfold accessor. apply property_Return.
  assert (Htt : target_thread w = Return (ThreadRef t) w).
  { unfold target_thread. by rewrite Ht. }
  rewrite (hijack_bind_Return _ _ _ _ _ Htt).
  rewrite bool_decide_eq_true_2 by done.
  by rewrite (hijack_bind_Return _ _ _ _ _ (read_slot_set _ _ _ Hp)).
Qed.

Lemma accessor_other name slot v w t u :
  slots w !! "_target_thread" = Some (ThreadRef t) → u ≠ t →
  slots w !! slot = Some v →
  accessor name slot u w = Return v w.
Proof.
  intros Ht Hu Hv. unfold accessor. apply property_Return.
  assert (Htt : target_thread w = Return (ThreadRef t) w).
  { unfold target_thread. by rewrite Ht. }
  rewrite (hijack_bind_Return _ _ _ _ _ Htt).
  rewrite bool_decide_eq_false_2 by congruence.
  by apply read_slot_set.
Qed.

(** When the object in [_io_proxy] lacks the endpoint, the getter's
    [AttributeError] sends the lookup on to [__getattr__], and the caller
    sees its [TypeError]. *)
Lemma accessor_without_endpoint name slot o w t sys :
  targets w t sys → slots w !! "_io_proxy" = Some (Object o) →
  accessor name slot t w = Raise TypeError w.
Proof.
  intros Hw Hp. unfold accessor.
  rewrite (property_falls_back name _ w w); [by eapply getattr_TypeError|].
  assert (Htt : target_thread w = Return (ThreadRef t) w).
  { unfold target_thread. destruct Hw as [-> _]. done. }
  rewrite (hijack_bind_Return _ _ _ _ _ Htt).
  rewrite bool_decide_eq_true_2 by done.
  by rewrite (hijack_bind_Return _ _ _ _ _ (read_slot_set _ _ _ Hp)).
Qed.

End hijack_facts.

(** ** The hijacker on a concrete process *)

Section hijack_examples.

Import SysHijack.

(** A sys-state object with the four endpoints and a [path]. *)
Definition sys_main : gmap string value :=
  <["path" := Object 14]>
    (<["displayhook" := Object 13]>
       (<["stderr" := Object 12]>
          (<["stdout" := Object 11]> (<["stdin" := Object 10]> ∅)))).

(** Two threads, each with a sys-state of its own; thread 1 is the
    target. *)
Definition two_threads : gmap thread (gmap string value) :=
  <[2%positive := sys_main]> (<[1%positive := sys_main]> ∅).

Definition hijacked_main : world :=
  hijacked two_threads 1%positive sys_main 20 21 22 23 (Object 30)
    (Object 10) (Object 11) (Object 12) (Object 13).

Lemma sys_main_endpoints :
  has_endpoints sys_main (Object 10) (Object 11) (Object 12) (Object 13).
Proof. repeat split. Qed.

(** The instance as line 24 leaves it, beside the two threads: only
    [_target_thread] is set. *)
Definition half_built_main : world :=
  with_slot "_target_thread" (ThreadRef 1%positive) (blank two_threads).

(** C8: constructing a hijacker for thread 1, which has a sys-state with
    the four endpoints.  The constructor raises [NameError] at line 26:
    there is no constructed instance, nothing has been captured or
    installed, and the sys-state of every thread is as before.  On what is
    left, the instance with [_target_thread] alone, no accessor returns an
    endpoint, for the target thread or another, and [__del__] raises as
    well. *)
Theorem C8_construction_raises_NameError :
  two_threads !! 1%positive = Some sys_main ∧
  has_endpoints sys_main (Object 10) (Object 11) (Object 12) (Object 13) ∧
  __init__ (ThreadRef 1%positive) (Object 30) (blank two_threads)
    = Raise NameError half_built_main ∧
  thread_sys half_built_main = two_threads ∧
  slots half_built_main = {["_target_thread" := ThreadRef 1%positive]} ∧
  (stdin 1%positive half_built_main = Raise TypeError half_built_main ∧
   stdout 1%positive half_built_main = Raise TypeError half_built_main ∧
   stderr 1%positive half_built_main = Raise TypeError half_built_main ∧
   displayhook 1%positive half_built_main = Raise TypeError half_built_main) ∧
  (stdin 2%positive half_built_main = Raise TypeError half_built_main ∧
   stdout 2%positive half_built_main = Raise TypeError half_built_main ∧
   stderr 2%positive half_built_main = Raise TypeError half_built_main ∧
   displayhook 2%positive half_built_main = Raise TypeError half_built_main) ∧
  __del__ half_built_main = Raise TypeError half_built_main.
Proof.
  split; [reflexivity|]. split; [apply sys_main_endpoints|].
  split; [apply init_raises|].
  split; [reflexivity|]. split; [reflexivity|].
  split; [by repeat split|]. split; [by repeat split|]. reflexivity.
Qed.

(** C10: [_init_time] is no assignable slot, and an assignment to it on
    an instance that has its target is forwarded to the sys-state of the
    target thread; but the constructor, for every thread and every world,
    raises [NameError] at line 26 and so never reaches that assignment at
    line 28: it leaves every sys-state as it found it. *)
Theorem C10_constructor_stops_before_init_time ths t now :
  ("_init_time" ∉ assignable_slots) ∧
  __init__ (ThreadRef t) now (blank ths)
    = Raise NameError (with_slot "_target_thread" (ThreadRef t) (blank ths)) ∧
  thread_sys (final_store (__init__ (ThreadRef t) now (blank ths))) = ths ∧
  __setattr__ "_init_time" (Object 30) half_built_main =
    Return tt
      (with_sys 1%positive (<["_init_time" := Object 30]> sys_main) half_built_main).
Proof.
  split; [by apply is_no_slot|].
  split; [apply init_raises|].
  split; [by rewrite init_raises|]. reflexivity.
Qed.

(** C9: an instance whose target is thread 1, as line 24 leaves it.
    [path] is no member of the class and the thread's sys-state object has
    it, yet reading it through [__getattr__] raises [TypeError] instead of
    returning that attribute; writing it does reach the sys-state object.
    The same holds once all the slots are filled. *)
Theorem C9_forwarded_read_raises_TypeError :
  ("path" ∉ members) ∧
  sys_getattr 1%positive "path" half_built_main = Return (Object 14) half_built_main ∧
  __getattr__ "path" half_built_main = Raise TypeError half_built_main ∧
  (∃ w',
     __setattr__ "path" (Object 15) half_built_main = Return tt w' ∧
     sys_getattr 1%positive "path" w' = Return (Object 15) w') ∧
  sys_getattr 1%positive "path" hijacked_main = Return (Object 14) hijacked_main ∧
  __getattr__ "path" hijacked_main = Raise TypeError hijacked_main.
Proof.
  split; [by apply is_no_member|].
  split; [reflexivity|]. split; [reflexivity|].
  split; [eexists; split; reflexivity|].
  split; [reflexivity|].
  by eapply getattr_TypeError, hijacked_targets.
Qed.

End hijack_examples.

(** * Further properties of the registry *)

Section resolution_in_full.

Import Breakpoint.

(** What one reference contributes to the result: the instance itself,
    the instance [_instances] has under the integer, the members of the set
    [_break_locations] has under the string, or nothing for any other
    object; [None] when the subscript fails. *)
Definition expansion (st : registry) (r : reference) : option (list addr) :=
  match r with
  | RefBreakpoint a => Some [a]
  | RefInt i => (λ a, [a]) <$> _instances st !! i
  | RefStr s => elements <$> _break_locations st !! KeyStr s
  | RefOther => Some []
  end.

Lemma resolve_loop_expansions st rs acc :
  resolve_loop st rs acc =
    match mapM (expansion st) rs with
    | Some ls => Val (acc ++ concat ls)
    | None => Exc KeyError
    end.
Proof.
  revert acc. induction rs as [|r rest IH]; intros acc; simpl.
  - by rewrite app_nil_r.
  - destruct r as [a|i|s|]; simpl.
    + rewrite IH. destruct (mapM (expansion st) rest); simpl; [|done].
      by rewrite <- app_assoc.
    + destruct (_instances st !! i) as [a|]; simpl; [|done].
      rewrite IH. destruct (mapM (expansion st) rest); simpl; [|done].
      by rewrite <- app_assoc.
    + destruct (_break_locations st !! KeyStr s) as [bs|]; simpl; [|done].
      rewrite IH. destruct (mapM (expansion st) rest); simpl; [|done].
      by rewrite <- app_assoc.
    + rewrite IH. by destruct (mapM (expansion st) rest).
Qed.

Lemma resolve_loop_app st rs1 rs2 acc :
  resolve_loop st (rs1 ++ rs2) acc =
    match resolve_loop st rs1 acc with
    | Val l => resolve_loop st rs2 l
    | Exc e => Exc e
    end.
Proof.
  revert acc. induction rs1 as [|r rest IH]; intros acc; simpl; [done|].
  destruct r as [a|i|s|]; simpl; try apply IH.
  - destruct (_instances st !! i); [apply IH | done].
  - destruct (_break_locations st !! KeyStr s); [apply IH | done].
Qed.

(** X1: [resolve_breakpoints] returns the contributions of the references
    in input order, one after the other: an instance is passed through
    (registered or not), an integer gives the instance registered under
    it, an object of another kind gives nothing; it fails, with
    [KeyError], exactly when one subscript fails.  A single reference is
    the collection of that one reference, and resolving a concatenation is
    resolving its two parts in turn. *)
Theorem resolve_breakpoints_in_order st rs rs' r :
  resolve_breakpoints st (Collection rs) =
    match mapM (expansion st) rs with
    | Some ls => Val (concat ls)
    | None => Exc KeyError
    end ∧
  resolve_breakpoints st (Single r) = resolve_breakpoints st (Collection [r]) ∧
  resolve_breakpoints st (Collection (rs ++ rs')) =
    match resolve_breakpoints st (Collection rs),
          resolve_breakpoints st (Collection rs') with
    | Val l, Val l' => Val (l ++ l')
    | _, _ => Exc KeyError
    end.
Proof.
  split; [apply resolve_loop_expansions|]. split; [done|].
  unfold resolve_breakpoints. rewrite resolve_loop_app.
  rewrite !resolve_loop_expansions. simpl.
  destruct (mapM (expansion st) rs) as [ls|]; [|done].
  rewrite resolve_loop_expansions.
  by destruct (mapM (expansion st) rs').
Qed.

End resolution_in_full.

Section lifecycle.

Import Breakpoint.

Lemma registered_as_registered st self b :
  registered (registered_as st self b) self (set_id (_id_counter st + 1) b).
Proof.
  exists (_id_counter st + 1)%Z,
         (default ∅ (_break_locations st !! location b) ∪ {[self]}).
  split; [done|]. split; [simpl; by rewrite lookup_insert_eq|].
  split; [simpl; by rewrite lookup_insert_eq|].
  apply elem_of_union_r. by apply elem_of_singleton.
Qed.

(** X2: once a detached instance is registered, resolving its new id
    gives that instance, every other integer resolves as before, and both
    indices know the instance, so that it can be removed. *)
Theorem register_then_resolve st self b :
  objects st !! self = Some b →
  _id b = None →
  let i := (_id_counter st + 1)%Z in
  let st' := final_store (_add self st) in
  resolve_breakpoints st' (Single (RefInt i)) = Val [self] ∧
  resolve_breakpoints st' (Collection [RefBreakpoint self; RefInt i]) = Val [self; self] ∧
  (∀ j, j ≠ i →
     resolve_breakpoints st' (Single (RefInt j)) =
     resolve_breakpoints st (Single (RefInt j))) ∧
  registered st' self (set_id i b).
Proof.
  intros Hb Hid i st'. subst st'. rewrite (add_detached _ _ _ Hb Hid).
  simpl final_store. unfold resolve_breakpoints, resolve_loop. simpl.
  rewrite lookup_insert_eq. split; [done|]. split; [done|]. split.
  - intros j Hj. by rewrite lookup_insert_ne.
  - apply registered_as_registered.
Qed.

Lemma register_then_resolve_witness :
  objects one_detached !! 1%positive = Some bp_a10 ∧
  _id bp_a10 = None ∧
  resolve_breakpoints one_registered (Single (RefInt 1)) = Val [1%positive] ∧
  registered one_registered 1%positive (set_id 1 bp_a10).
Proof.
  assert (H1 : objects one_detached !! 1%positive = Some bp_a10) by reflexivity.
  assert (H2 : _id bp_a10 = None) by reflexivity.
  destruct (register_then_resolve one_detached 1%positive bp_a10 H1 H2)
    as (Hr & _ & _ & Hreg).
  split; [exact H1|]. split; [exact H2|]. split; [exact Hr | exact Hreg].
Defined.

Lemma set_enabled_twice e e' b :
  set_enabled e' (set_enabled e b) = set_enabled e' b.
Proof. done. Qed.

(** X3: removing an instance that both indices know clears its enabled
    map, makes its id unresolvable and takes it out of its location's
    set, which stays in [_break_locations] under the same key; the
    instance keeps its id, so registering it again does nothing, and
    removing it again raises [KeyError] without further effect. *)
Theorem remove_is_final st a b i :
  objects st !! a = Some b →
  _id b = Some i →
  registered st a b →
  let st' := retired a b st in
  _remove a st = Return tt st' ∧
  objects st' !! a = Some (set_enabled ∅ b) ∧
  resolve_breakpoints st' (Single (RefInt i)) = Exc KeyError ∧
  _break_locations st' !! location b =
    Some (default ∅ (_break_locations st !! location b) ∖ {[a]}) ∧
  _add a st' = Return tt st' ∧
  _remove a st' = Raise KeyError st'.
Proof.
  intros Hb Hi Hreg st'.
  assert (Hobj : objects st' !! a = Some (set_enabled ∅ b)).
  { subst st'. unfold retired. simpl. apply lookup_insert_eq. }
  assert (Hins : _instances st' !! i = None).
  { subst st'. unfold retired. simpl. rewrite Hi. apply lookup_delete_eq. }
  split; [by apply remove_registered|]. split; [done|].
  split; [unfold resolve_breakpoints, resolve_loop; by rewrite Hins|].
  split; [subst st'; unfold retired; simpl; apply lookup_insert_eq|].
  split; [by apply (add_registered st' a (set_enabled ∅ b) i)|].
  unfold _remove.
  rewrite (bind_Return _ _ _ _ _ (load_Some _ _ _ Hobj)).
  assert (Hst : store a (set_enabled ∅ (set_enabled ∅ b)) st' = Return tt st').
  { unfold store. change (set_enabled ∅ (set_enabled ∅ b)) with (set_enabled ∅ b).
    by rewrite with_object_same. }
  rewrite (bind_Return _ _ _ _ _ Hst).
  change (_id (set_enabled ∅ b)) with (_id b). rewrite Hi.
  unfold mbind, M_bind, bind, get. by rewrite Hins.
Qed.

Lemma remove_is_final_witness :
  objects one_registered !! 1%positive = Some (set_id 1 bp_a10) ∧
  registered one_registered 1%positive (set_id 1 bp_a10) ∧
  _remove 1%positive one_registered =
    Return tt (retired 1%positive (set_id 1 bp_a10) one_registered) ∧
  resolve_breakpoints (retired 1%positive (set_id 1 bp_a10) one_registered)
    (Single (RefInt 1)) = Exc KeyError.
Proof.
  assert (H1 : objects one_registered !! 1%positive = Some (set_id 1 bp_a10))
    by reflexivity.
  assert (H2 : registered one_registered 1%positive (set_id 1 bp_a10)).
  { exists 1%Z, {[1%positive]}. split; [done|]. split; [by eexists|].
    split; [reflexivity | by apply elem_of_singleton]. }
  destruct (remove_is_final one_registered 1%positive _ 1%Z H1 eq_refl H2)
    as (Hrm & _ & Hres & _).
  split; [exact H1|]. split; [exact H2|]. split; [exact Hrm | exact Hres].
Defined.

(** X4: when [_remove] raises, it has already cleared the enabled map of
    the instance; the exception is [AttributeError] exactly when no id was
    ever assigned and [KeyError] otherwise, the location index is as it
    was, and [_instances] has lost at most the instance's id. *)
Theorem remove_failure_still_disables st a b e st' :
  objects st !! a = Some b →
  _remove a st = Raise e st' →
  objects st' = <[a := set_enabled ∅ b]> (objects st) ∧
  _break_locations st' = _break_locations st ∧
  _id_counter st' = _id_counter st ∧
  match _id b with
  | None => e = AttributeError ∧ _instances st' = _instances st
  | Some i =>
      e = KeyError ∧
      (_instances st' = _instances st ∨ _instances st' = delete i (_instances st))
  end.
Proof.
  intros Hb. unfold _remove.
  rewrite (bind_Return _ _ _ _ _ (load_Some _ _ _ Hb)).
  unfold mbind, M_bind, bind, store, get, set_instances, set_break_locations, raise.
  simpl. destruct (_id b) as [i|]; simpl.
  - destruct (_instances st !! i); simpl.
    + destruct (_break_locations st !! location b) as [s|]; simpl.
      * destruct (decide (a ∈ s)); [done|]. intros [= <- <-]. simpl.
        repeat split; by right.
      * intros [= <- <-]. simpl. repeat split; by right.
    + intros [= <- <-]. simpl. repeat split; by left.
  - intros [= <- <-]. simpl. by repeat split.
Qed.

Lemma remove_failure_still_disables_witness :
  let b := set_enabled (<[Some 1 := true]> ∅) bp_a10 in
  let st := with_object 1%positive b fresh_registry in
  objects st !! 1%positive = Some b ∧
  _remove 1%positive st =
    Raise AttributeError (with_object 1%positive (set_enabled ∅ b) st) ∧
  objects (with_object 1%positive (set_enabled ∅ b) st) =
    <[1%positive := set_enabled ∅ b]> (objects st).
Proof.
  intros b st.
  assert (H1 : objects st !! 1%positive = Some b) by reflexivity.
  assert (H2 : _remove 1%positive st =
               Raise AttributeError (with_object 1%positive (set_enabled ∅ b) st))
    by reflexivity.
  destruct (remove_failure_still_disables st 1%positive b _ _ H1 H2) as (Ho & _).
  split; [exact H1|]. split; [exact H2 | exact Ho].
Defined.

End lifecycle.

(** * What a pass of the evaluator can and cannot change *)

Section effects.

Import Breakpoint.

Variable eval : string → gmap string pyobject → gmap string pyobject → eval_result.

(** The asking party, and the instances the computation is run on. *)
Variable p : party.
Variable A : addr → Prop.

(** [U] relates an instance to what may be written back in its place,
    [R] a registry to a later one.  [R] is assumed to be a preorder that
    accepts the elementary writes of the evaluator. *)
Variable U : breakpoint → breakpoint → Prop.
Variable R : registry → registry → Prop.

Hypothesis U_enabled : ∀ b e, U b (set_enabled e b).
Hypothesis U_ignored : ∀ b v, U b (set_ignored (<[p := v]> (ignored b)) b).
Hypothesis R_refl : ∀ st, R st st.
Hypothesis R_trans : ∀ st1 st2 st3, R st1 st2 → R st2 st3 → R st1 st3.
Hypothesis R_object :
  ∀ st a b b', A a → objects st !! a = Some b → U b b' →
               R st (with_object a b' st).
Hypothesis R_remove : ∀ st a, A a → R st (final_store (_remove a st)).

(** However the computation ends, its final store is [R]-related to the
    initial one. *)
Definition keeps {X} (m : M X) : Prop := ∀ st, R st (final_store (m st)).

Lemma keeps_ret {X} (x : X) : keeps (mret x).
Proof. intros st. apply R_refl. Qed.

Lemma keeps_bind {X Y} (m : M X) (k : X → M Y) :
  keeps m → (∀ x, keeps (k x)) → keeps (m ≫= k).
Proof.
  intros Hm Hk st. unfold mbind, M_bind, bind. specialize (Hm st).
  destruct (m st) as [x st1|e st1]; simpl in *; [|done].
  eapply R_trans; [exact Hm | apply Hk].
Qed.

Lemma keeps_try_except {X} (body handler : M X) :
  keeps body → keeps handler → keeps (try_except body handler).
Proof.
  intros Hb Hh st. unfold try_except. specialize (Hb st).
  destruct (body st) as [x st1|e st1]; simpl in *; [done|].
  eapply R_trans; [exact Hb | apply Hh].
Qed.

Lemma keeps_load_bind {X} a (k : breakpoint → M X) :
  (∀ b, keeps (k b)) → keeps (load a ≫= k).
Proof.
  intros Hk. apply keeps_bind; [|done].
  intros st. unfold load. destruct (objects st !! a); apply R_refl.
Qed.

Lemma keeps_enabled_getitem a : A a → keeps (enabled_getitem a p).
Proof.
  intros Ha st. unfold enabled_getitem, mbind, M_bind, bind, load, store.
  destruct (objects st !! a) as [b|] eqn:Hb; simpl; [|apply R_refl].
  destruct (enabled b !! p); simpl; [apply R_refl|].
  by apply (R_object st a b).
Qed.

Lemma keeps_ignored_getitem a : A a → keeps (ignored_getitem a p).
Proof.
  intros Ha st. unfold ignored_getitem, mbind, M_bind, bind, load, store.
  destruct (objects st !! a) as [b|] eqn:Hb; simpl; [|apply R_refl].
  destruct (ignored b !! p); simpl; [apply R_refl|].
  by apply (R_object st a b).
Qed.

Lemma keeps_ignored_setitem a v : A a → keeps (ignored_setitem a p v).
Proof.
  intros Ha st. unfold ignored_setitem, mbind, M_bind, bind, load, store.
  destruct (objects st !! a) as [b|] eqn:Hb; simpl; [|apply R_refl].
  by apply (R_object st a b).
Qed.

Lemma keeps_remove a : A a → keeps (_remove a).
Proof. intros Ha st. by apply R_remove. Qed.

Lemma keeps_count_or_fire a rel : A a → keeps (count_or_fire a p rel).
Proof.
  intros Ha.
  unfold count_or_fire. apply keeps_bind; [by apply keeps_ignored_getitem|].
  intros n. destruct (0 <? n)%Z.
  - apply keeps_bind; [by apply keeps_ignored_getitem|]. intros m.
    apply keeps_bind; [by apply keeps_ignored_setitem|]. intros _.
    apply keeps_ret.
  - apply keeps_load_bind. intros b. destruct (temporary b).
    + apply keeps_bind; [by apply keeps_remove|]. intros _. apply keeps_ret.
    + apply keeps_ret.
Qed.

(** What [visit] still does once a pass has been counted. *)
Lemma keeps_after_count fr a rel b :
  A a →
  keeps
    (if negb (condition_set (condition b))
     then count_or_fire a p rel
     else try_except
            (result ← eval_condition eval b fr;
             if (result : bool) then count_or_fire a p rel else mret rel)
            (mret (rel ∪ {[a]}))).
Proof.
  intros Ha.
  destruct (negb (condition_set (condition b))); [by apply keeps_count_or_fire|].
  apply keeps_try_except; [|apply keeps_ret].
  apply keeps_bind.
  - intros st'. unfold eval_condition. destruct (eval _ _ _); apply R_refl.
  - intros r. destruct r; [by apply keeps_count_or_fire | apply keeps_ret].
Qed.

Lemma keeps_visit fr a rel :
  A a → (∀ b, U b (set_hits (hits b + 1) b)) → keeps (visit eval fr p a rel).
Proof.
  intros Ha U_hits.
  unfold visit. apply keeps_bind; [by apply keeps_enabled_getitem|].
  intros on. destruct (negb on); [apply keeps_ret|].
  intros st. unfold mbind at 1. unfold M_bind, bind at 1. unfold load at 1.
  destruct (objects st !! a) as [b|] eqn:Hb; simpl; [|apply R_refl].
  unfold mbind at 1. unfold M_bind, bind at 1.
  destruct (trip b fr) as [t|e]; simpl; [|apply R_refl].
  destruct (negb t); simpl; [apply R_refl|].
  unfold mbind at 1. unfold M_bind, bind at 1. simpl.
  eapply R_trans; [by apply (R_object st a b (set_hits (hits b + 1) b))|].
  apply keeps_load_bind. intros b'. by apply keeps_after_count.
Qed.

Lemma keeps_relevant_loop fr possible rel :
  (∀ a, a ∈ possible → A a) →
  (∀ b, U b (set_hits (hits b + 1) b)) →
  keeps (relevant_loop eval fr p possible rel).
Proof.
  intros HA U_hits. revert rel.
  induction possible as [|a rest IH]; intros rel; simpl.
  - apply keeps_ret.
  - apply keeps_bind.
    + apply keeps_visit; [apply HA, list_elem_of_here | done].
    + intros r. apply IH. intros a' Ha'. by apply HA, list_elem_of_further.
Qed.

End effects.

Section effects_of_remove.

Import Breakpoint.

Variable A : addr → Prop.
Variable U : breakpoint → breakpoint → Prop.
Variable R : registry → registry → Prop.

Hypothesis U_enabled : ∀ b e, U b (set_enabled e b).
Hypothesis R_refl : ∀ st, R st st.
Hypothesis R_trans : ∀ st1 st2 st3, R st1 st2 → R st2 st3 → R st1 st3.
Hypothesis R_object :
  ∀ st a b b', A a → objects st !! a = Some b → U b b' →
               R st (with_object a b' st).
Hypothesis R_instances :
  ∀ st i, R st (with_instances (delete i (_instances st)) st).
Hypothesis R_locations :
  ∀ st k s a, _break_locations st !! k = Some s →
    R st (with_break_locations (<[k := s ∖ {[a]}]> (_break_locations st)) st).

(** [_remove] is made of three such writes. *)
Lemma remove_by_writes st a : A a → R st (final_store (_remove a st)).
Proof.
  intros Ha. unfold _remove, mbind, M_bind, bind, load, store, get.
  unfold set_instances, set_break_locations, raise.
  destruct (objects st !! a) as [b|] eqn:Hb; simpl; [|apply R_refl].
  pose proof (R_object st a b (set_enabled ∅ b) Ha Hb (U_enabled _ _)) as H1.
  destruct (_id b) as [i|]; simpl; [|done].
  destruct (_instances st !! i); simpl; [|done].
  assert (H2 : R st (with_instances (delete i (_instances st))
                       (with_object a (set_enabled ∅ b) st))).
  { eapply R_trans; [exact H1|].
    apply (R_instances (with_object a (set_enabled ∅ b) st)). }
  destruct (_break_locations st !! location b) as [s|] eqn:Hs; simpl; [|done].
  destruct (decide (a ∈ s)); simpl; [|done].
  eapply R_trans; [exact H2|].
  by apply (R_locations (with_instances _ (with_object a _ st))).
Qed.

End effects_of_remove.

Section evaluator_effects.

Import Breakpoint.

Variable eval : string → gmap string pyobject → gmap string pyobject → eval_result.

(** Everything of an instance but its counters and per-party maps. *)
Definition same_settings (b b' : breakpoint) : Prop :=
  _id b' = _id b ∧ _filename b' = _filename b ∧
  _line_number b' = _line_number b ∧ _function_name b' = _function_name b ∧
  temporary b' = temporary b ∧ condition b' = condition b ∧ note b' = note b.

(** An instance later on, as seen by the parties other than [p]. *)
Definition moved_on (p : party) (b b' : breakpoint) : Prop :=
  same_settings b b' ∧ (hits b ≤ hits b')%Z ∧
  ∀ q, q ≠ p → ignored b' !! q = ignored b !! q.

(** A registry later on: same counter, no index entry gained, no
    location key gained or lost, every instance still there and
    [moved_on], instances outside [A] untouched. *)
Definition pass_effect (A : addr → Prop) (p : party) (st st' : registry) : Prop :=
  _id_counter st' = _id_counter st ∧
  (∀ i a, _instances st' !! i = Some a → _instances st !! i = Some a) ∧
  (∀ k s, _break_locations st !! k = Some s →
          ∃ s', _break_locations st' !! k = Some s' ∧ s' ⊆ s) ∧
  (∀ k, _break_locations st !! k = None → _break_locations st' !! k = None) ∧
  (∀ a b, objects st !! a = Some b →
          ∃ b', objects st' !! a = Some b' ∧ moved_on p b b') ∧
  (∀ a, objects st !! a = None → objects st' !! a = None) ∧
  (∀ a, ¬ A a → objects st' !! a = objects st !! a).

Lemma moved_on_refl p b : moved_on p b b.
Proof. by repeat split. Qed.

Lemma moved_on_trans p b1 b2 b3 :
  moved_on p b1 b2 → moved_on p b2 b3 → moved_on p b1 b3.
Proof.
  intros ((?&?&?&?&?&?&?) & Hh1 & Hi1) ((?&?&?&?&?&?&?) & Hh2 & Hi2).
  split; [repeat split; congruence|]. split; [lia|].
  intros q Hq. by rewrite Hi2, Hi1.
Qed.

Lemma pass_effect_refl A p st : pass_effect A p st st.
Proof.
  split; [done|]. split; [done|]. split; [by eauto|]. split; [done|].
  split; [|done]. intros a b Hb. exists b. split; [done | apply moved_on_refl].
Qed.

Lemma pass_effect_trans A p st1 st2 st3 :
  pass_effect A p st1 st2 → pass_effect A p st2 st3 → pass_effect A p st1 st3.
Proof.
  intros (Hc1 & Hi1 & Hl1 & Hk1 & Ho1 & Hn1 & Ha1)
         (Hc2 & Hi2 & Hl2 & Hk2 & Ho2 & Hn2 & Ha2).
  split; [congruence|]. split; [by eauto|]. split.
  { intros k s Hs. destruct (Hl1 k s Hs) as (s' & Hs' & Hsub).
    destruct (Hl2 k s' Hs') as (s'' & Hs'' & Hsub'). exists s''.
    split; [done | by etrans]. }
  split; [by eauto|]. split.
  { intros a b Hb. destruct (Ho1 a b Hb) as (b' & Hb' & Hm).
    destruct (Ho2 a b' Hb') as (b'' & Hb'' & Hm'). exists b''.
    split; [done | by eapply moved_on_trans]. }
  split; [by eauto|].
  intros a Ha. by rewrite (Ha2 a Ha), (Ha1 a Ha).
Qed.

Lemma pass_effect_object A p st a b b' :
  A a → objects st !! a = Some b → moved_on p b b' →
  pass_effect A p st (with_object a b' st).
Proof.
  intros Ha Hb Hm. split; [done|]. split; [done|]. split; [by eauto|].
  split; [done|]. simpl. split; [|split].
  - intros a' b0 Hb0. destruct (decide (a' = a)) as [->|Hne].
    + rewrite lookup_insert_eq. exists b'. split; [done|]. congruence.
    + rewrite lookup_insert_ne by done. exists b0.
      split; [done | apply moved_on_refl].
  - intros a' Hn. rewrite lookup_insert_ne; [done|]. intros <-. congruence.
  - intros a' Hn. rewrite lookup_insert_ne; [done|]. by intros <-.
Qed.

Lemma pass_effect_instances A p st i :
  pass_effect A p st (with_instances (delete i (_instances st)) st).
Proof.
  split; [done|]. split.
  { simpl. intros j a Hj. apply lookup_delete_Some in Hj. by destruct Hj. }
  split; [by eauto|]. split; [done|]. split; [|done].
  intros a b Hb. exists b. split; [done | apply moved_on_refl].
Qed.

Lemma pass_effect_locations A p st k s a :
  _break_locations st !! k = Some s →
  pass_effect A p st
    (with_break_locations (<[k := s ∖ {[a]}]> (_break_locations st)) st).
Proof.
  intros Hs. split; [done|]. split; [done|]. simpl. split.
  { intros k' s0 Hs0. destruct (decide (k' = k)) as [->|Hne].
    - rewrite lookup_insert_eq. eexists. split; [done|].
      rewrite Hs in Hs0. injection Hs0 as <-. by apply subseteq_difference_l.
    - rewrite lookup_insert_ne by done. by eauto. }
  split.
  { intros k' Hn. rewrite lookup_insert_ne; [done|]. intros <-. congruence. }
  split; [|done].
  intros a' b Hb. exists b. split; [done | apply moved_on_refl].
Qed.

Lemma moved_on_enabled p b e : moved_on p b (set_enabled e b).
Proof. by repeat split. Qed.

Lemma moved_on_ignored p b v :
  moved_on p b (set_ignored (<[p := v]> (ignored b)) b).
Proof.
  split; [by repeat split|]. split; [done|].
  intros q Hq. simpl. by rewrite lookup_insert_ne.
Qed.

Lemma moved_on_hits p b : moved_on p b (set_hits (hits b + 1) b).
Proof. split; [by repeat split|]. split; [simpl; lia | done]. Qed.

(** The loop over any candidates, however it ends. *)
Lemma relevant_loop_effect p fr possible rel st :
  pass_effect (λ a, a ∈ possible) p st
    (final_store (relevant_loop eval fr p possible rel st)).
Proof.
  apply (keeps_relevant_loop eval p (λ a, a ∈ possible) (moved_on p)
           (pass_effect (λ a, a ∈ possible) p)).
  - apply moved_on_enabled.
  - apply moved_on_ignored.
  - apply pass_effect_refl.
  - apply pass_effect_trans.
  - apply pass_effect_object.
  - intros st0 a0. apply (remove_by_writes (λ a, a ∈ possible) (moved_on p)).
    + apply moved_on_enabled.
    + apply pass_effect_refl.
    + apply pass_effect_trans.
    + apply pass_effect_object.
    + apply pass_effect_instances.
    + apply pass_effect_locations.
  - done.
  - apply moved_on_hits.
Qed.

End evaluator_effects.

Section evaluator_effect_theorems.

Import Breakpoint.

Variable eval : string → gmap string pyobject → gmap string pyobject → eval_result.

Lemma same_settings_location b b' : same_settings b b' → location b' = location b.
Proof.
  intros (_ & Hf & Hl & Hn & _). unfold location, filename, function_name, line_number.
  by rewrite Hf, Hl, Hn.
Qed.

Lemma same_settings_trip b b' fr : same_settings b b' → trip b' fr = trip b fr.
Proof.
  intros (_ & Hf & Hl & Hn & _).
  unfold trip, _function_first_line, function_name, line_number.
  by rewrite Hl, Hn.
Qed.

(** X5: whatever the candidates, the party and the way it ends, the loop
    of the evaluator leaves every instance its id, file, line, function
    name, temporary flag, condition and note, hence its location key and
    the frames it trips on, and never lowers its hit count. *)
Theorem evaluator_keeps_settings p fr possible rel st a b :
  objects st !! a = Some b →
  ∃ b',
    objects (final_store (relevant_loop eval fr p possible rel st)) !! a = Some b' ∧
    same_settings b b' ∧
    location b' = location b ∧
    (∀ fr', trip b' fr' = trip b fr') ∧
    (hits b ≤ hits b')%Z.
Proof.
  intros Hb.
  destruct (relevant_loop_effect eval p fr possible rel st)
    as (_ & _ & _ & _ & Ho & _).
  destruct (Ho a b Hb) as (b' & Hb' & Hs & Hh & _).
  exists b'. split; [done|]. split; [done|].
  split; [by apply same_settings_location|].
  split; [intros fr'; by apply same_settings_trip | done].
Qed.

(** X6: a pass of the loop on behalf of one party leaves the ignore
    counts of every other party as they were, and leaves an instance that
    is not among the candidates exactly as it was. *)
Theorem evaluator_isolates p fr possible rel st a b :
  objects st !! a = Some b →
  ∃ b',
    objects (final_store (relevant_loop eval fr p possible rel st)) !! a = Some b' ∧
    (∀ q, q ≠ p → ignored b' !! q = ignored b !! q) ∧
    (a ∉ possible → b' = b).
Proof.
  intros Hb.
  destruct (relevant_loop_effect eval p fr possible rel st)
    as (_ & _ & _ & _ & Ho & _ & Hout).
  destruct (Ho a b Hb) as (b' & Hb' & _ & _ & Hi).
  exists b'. split; [done|]. split; [done|].
  intros Hn. specialize (Hout a Hn). congruence.
Qed.

(** X7: the loop never registers anything: the class counter is
    unchanged, [_instances] gains no entry, [_break_locations] keeps
    exactly its keys with sets that can only have lost members, and no
    instance comes into being. *)
Theorem evaluator_never_registers p fr possible rel st :
  let st' := final_store (relevant_loop eval fr p possible rel st) in
  _id_counter st' = _id_counter st ∧
  (∀ i a, _instances st' !! i = Some a → _instances st !! i = Some a) ∧
  (∀ k s, _break_locations st !! k = Some s →
          ∃ s', _break_locations st' !! k = Some s' ∧ s' ⊆ s) ∧
  (∀ k, _break_locations st !! k = None → _break_locations st' !! k = None) ∧
  (∀ a, objects st !! a = None → objects st' !! a = None).
Proof.
  destruct (relevant_loop_effect eval p fr possible rel st)
    as (Hc & Hi & Hl & Hk & _ & Hn & _).
  done.
Qed.

End evaluator_effect_theorems.

Section hit_counting.

Import Breakpoint.

Variable eval : string → gmap string pyobject → gmap string pyobject → eval_result.

(** Two registries whose instances have the same hit counts. *)
Definition same_hits (st st' : registry) : Prop :=
  ∀ a, hits <$> objects st' !! a = hits <$> objects st !! a.

Lemma same_hits_object st a b b' :
  objects st !! a = Some b → hits b' = hits b → same_hits st (with_object a b' st).
Proof.
  intros Hb Hh a'. simpl. destruct (decide (a' = a)) as [->|Hne].
  - rewrite lookup_insert_eq, Hb. simpl. by rewrite Hh.
  - by rewrite lookup_insert_ne.
Qed.

(** Once the hit is counted, nothing in the rest of the pass touches
    [hits]. *)
Lemma after_count_same_hits p fr a rel b st :
  same_hits st
    (final_store
       ((if negb (condition_set (condition b))
         then count_or_fire a p rel
         else try_except
                (result ← eval_condition eval b fr;
                 if (result : bool) then count_or_fire a p rel else mret rel)
                (mret (rel ∪ {[a]}))) st)).
Proof.
  assert (Htrans : ∀ st1 st2 st3,
             same_hits st1 st2 → same_hits st2 st3 → same_hits st1 st3).
  { intros st1 st2 st3 H1 H2 a'. by rewrite H2, H1. }
  apply (keeps_after_count eval p (λ _, True) (λ b b', hits b' = hits b) same_hits);
    try done.
  - intros st0 a0 b0 b' _. apply same_hits_object.
  - intros st0 a0. apply (remove_by_writes (λ _, True) (λ b b', hits b' = hits b));
      try done.
    intros st1 a1 b1 b' _. apply same_hits_object.
Qed.

Lemma visit_trip_raises p fr a rel st b e :
  objects st !! a = Some b → enabled b !! p = Some true → trip b fr = Exc e →
  visit eval fr p a rel st = Raise e st.
Proof.
  intros Hb Hp Ht. unfold visit.
  rewrite (bind_Return _ _ _ _ _ (enabled_getitem_present _ _ _ _ _ Hb Hp)). simpl.
  rewrite (bind_Return _ _ _ _ _ (load_Some _ _ _ Hb)).
  by rewrite Ht.
Qed.

(** X8: a pass over an instance raises its hit count by one exactly when
    the instance is enabled for the asking party and trips on the frame,
    and leaves it alone otherwise; the condition, the ignore count, the
    temporary flag and the way the pass ends make no difference. *)
Theorem hits_count_enabled_trips p fr a rel st b :
  objects st !! a = Some b →
  hits <$> objects (final_store (visit eval fr p a rel st)) !! a =
    Some (match enabled b !! p, trip b fr with
          | Some true, Val true => (hits b + 1)%Z
          | _, _ => hits b
          end).
Proof.
  intros Hb.
  assert (Hoff : enabled b !! p ≠ Some true →
                 hits <$> objects (final_store (visit eval fr p a rel st)) !! a
                 = Some (hits b)).
  { intros Hp. rewrite (visit_not_enabled eval _ _ _ _ _ _ Hb Hp). simpl.
    by rewrite lookup_insert_eq. }
  destruct (enabled b !! p) as [[]|] eqn:Hp; [|by apply Hoff..].
  destruct (trip b fr) as [[]|e] eqn:Ht.
  - rewrite (visit_counts eval _ _ _ _ _ _ Hb Hp Ht).
    pose proof (after_count_same_hits p fr a rel (hit b)
                  (with_object a (hit b) st) a) as H.
    change (condition (hit b)) with (condition b) in H at 1.
    rewrite H. simpl. by rewrite lookup_insert_eq.
  - rewrite (visit_not_tripped eval _ _ _ _ _ _ Hb Hp Ht). simpl. by rewrite Hb.
  - rewrite (visit_trip_raises _ _ _ _ _ _ _ Hb Hp Ht). simpl. by rewrite Hb.
Qed.

End hit_counting.

(** * The registry keeps itself consistent *)

Section consistency.

Import Breakpoint.

(** No two instances hold the same id. *)
Definition ids_unique (st : registry) : Prop :=
  ∀ a a' b b' i,
    objects st !! a = Some b → objects st !! a' = Some b' →
    _id b = Some i → _id b' = Some i → a = a'.

(** Every entry of [_instances] is an instance with that id which sits in
    the set of its location. *)
Definition indexed (st : registry) : Prop :=
  ∀ i a, _instances st !! i = Some a →
    ∃ b s, objects st !! a = Some b ∧ _id b = Some i ∧
           _break_locations st !! location b = Some s ∧ a ∈ s.

(** Every member of a set of [_break_locations] is an instance of that
    location which [_instances] has under its id. *)
Definition located (st : registry) : Prop :=
  ∀ k s a, _break_locations st !! k = Some s → a ∈ s →
    ∃ b i, objects st !! a = Some b ∧ location b = k ∧ _id b = Some i ∧
           _instances st !! i = Some a.

Definition consistent (st : registry) : Prop :=
  ids_bounded st ∧ ids_unique st ∧ indexed st ∧ located st.

Lemma same_settings_refl b : same_settings b b.
Proof. by repeat split. Qed.

Lemma same_settings_sym b b' : same_settings b b' → same_settings b' b.
Proof. intros (?&?&?&?&?&?&?). by repeat split. Qed.

Lemma fresh_registry_consistent : consistent fresh_registry.
Proof.
  split; [apply fresh_registry_bounded|]. split; [|split].
  - intros a a' b b' i H. simpl in H. by rewrite lookup_empty in H.
  - intros i a H. simpl in H. by rewrite lookup_empty in H.
  - intros k s a H. simpl in H. by rewrite lookup_empty in H.
Qed.

(** The instances of [with_object a b' st], when [b'] has the settings of
    the instance it replaces. *)
Lemma with_object_back st a b b' x y :
  objects st !! a = Some b → same_settings b b' →
  objects (with_object a b' st) !! x = Some y →
  ∃ y0, objects st !! x = Some y0 ∧ same_settings y0 y.
Proof.
  intros Hb Hs. simpl. destruct (decide (x = a)) as [->|Hne].
  - rewrite lookup_insert_eq. intros [= <-]. by exists b.
  - rewrite lookup_insert_ne by done. intros Hy. exists y.
    split; [done | apply same_settings_refl].
Qed.

Lemma with_object_forth st a b b' x y0 :
  objects st !! a = Some b → same_settings b b' →
  objects st !! x = Some y0 →
  ∃ y, objects (with_object a b' st) !! x = Some y ∧ same_settings y0 y.
Proof.
  intros Hb Hs Hy. simpl. destruct (decide (x = a)) as [->|Hne].
  - rewrite lookup_insert_eq. exists b'. split; [done|]. congruence.
  - rewrite lookup_insert_ne by done. exists y0.
    split; [done | apply same_settings_refl].
Qed.

Lemma consistent_with_object st a b b' :
  consistent st → objects st !! a = Some b → same_settings b b' →
  consistent (with_object a b' st).
Proof.
  intros (Hbd & Hun & Hix & Hlo) Hb Hs. split; [|split; [|split]].
  - intros x y i Hy Hi.
    destruct (with_object_back _ _ _ _ _ _ Hb Hs Hy) as (y0 & Hy0 & (Hid & _)).
    apply (Hbd x y0 i Hy0). congruence.
  - intros x x' y y' i Hy Hy' Hi Hi'.
    destruct (with_object_back _ _ _ _ _ _ Hb Hs Hy) as (y0 & Hy0 & (Hid & _)).
    destruct (with_object_back _ _ _ _ _ _ Hb Hs Hy') as (y0' & Hy0' & (Hid' & _)).
    apply (Hun x x' y0 y0' i Hy0 Hy0'); congruence.
  - intros i x Hx. destruct (Hix i x Hx) as (y0 & s & Hy0 & Hi & Hl & Hin).
    destruct (with_object_forth _ _ _ _ _ _ Hb Hs Hy0) as (y & Hy & Hss).
    exists y, s. split; [done|]. split; [destruct Hss; congruence|].
    rewrite (same_settings_location _ _ Hss). done.
  - intros k s x Hk Hin. destruct (Hlo k s x Hk Hin) as (y0 & i & Hy0 & Hl & Hi & Hx).
    destruct (with_object_forth _ _ _ _ _ _ Hb Hs Hy0) as (y & Hy & Hss).
    exists y, i. split; [done|].
    split; [by rewrite (same_settings_location _ _ Hss)|].
    split; [destruct Hss; congruence | done].
Qed.

Lemma consistent_new st a b :
  consistent st → objects st !! a = None → _id b = None →
  consistent (final_store (new a b st)).
Proof.
  intros (Hbd & Hun & Hix & Hlo) Hn Hid. split; [by apply new_bounded|].
  simpl. split; [|split].
  - intros x x' y y' i. simpl.
    destruct (decide (x = a)) as [->|Hx]; [rewrite lookup_insert_eq; congruence|].
    destruct (decide (x' = a)) as [->|Hx']; [rewrite lookup_insert_eq; congruence|].
    rewrite !lookup_insert_ne by done. apply Hun.
  - intros i x Hx. destruct (Hix i x Hx) as (y & s & Hy & Hi & Hl & Hin).
    exists y, s. simpl. rewrite lookup_insert_ne; [done|]. intros <-. congruence.
  - intros k s x Hk Hin. destruct (Hlo k s x Hk Hin) as (y & i & Hy & Hl & Hi & Hx).
    exists y, i. simpl. rewrite lookup_insert_ne; [done|]. intros <-. congruence.
Qed.

Lemma consistent_registered_as st self b :
  consistent st → objects st !! self = Some b → _id b = None →
  consistent (registered_as st self b).
Proof.
  intros (Hbd & Hun & Hix & Hlo) Hb Hid.
  assert (Hother : ∀ x y j, objects st !! x = Some y → _id y = Some j →
                            x ≠ self ∧ j ≠ (_id_counter st + 1)%Z).
  { intros x y j Hy Hj. split; [intros ->; congruence|].
    specialize (Hbd x y j Hy Hj). lia. }
  split; [by apply registered_as_bounded|]. split; [|split].
  - intros x x' y y' j. simpl.
    destruct (decide (x = self)) as [->|Hx];
      destruct (decide (x' = self)) as [->|Hx']; [done| | |].
    + rewrite lookup_insert_eq, lookup_insert_ne by done.
      intros [= <-] Hy'. simpl. intros [= <-] Hj.
      by destruct (Hother _ _ _ Hy' Hj).
    + rewrite lookup_insert_eq, lookup_insert_ne by done.
      intros Hy [= <-] Hj. simpl. intros [= <-].
      by destruct (Hother _ _ _ Hy Hj).
    + rewrite !lookup_insert_ne by done. apply Hun.
  - intros j x. simpl. destruct (decide (j = _id_counter st + 1)%Z) as [->|Hj].
    + rewrite lookup_insert_eq. intros [= <-].
      eexists _, _. rewrite lookup_insert_eq. split; [done|]. split; [done|].
      rewrite location_set_id, lookup_insert_eq. split; [done|].
      apply elem_of_union_r. by apply elem_of_singleton.
    + rewrite lookup_insert_ne by done. intros Hx.
      destruct (Hix j x Hx) as (y & s & Hy & Hi & Hl & Hin).
      destruct (Hother _ _ _ Hy Hi) as [Hne _].
      rewrite lookup_insert_ne by done.
      destruct (decide (location y = location b)) as [Heq|Hloc].
      * exists y. eexists. split; [done|]. split; [done|].
        rewrite Heq, lookup_insert_eq. split; [done|].
        apply elem_of_union_l. rewrite Heq in Hl. by rewrite Hl.
      * exists y, s. by rewrite lookup_insert_ne.
  - intros k s x. simpl. destruct (decide (k = location b)) as [->|Hk].
    + rewrite lookup_insert_eq. intros [= <-] [Hin|Hin%elem_of_singleton]%elem_of_union.
      * destruct (_break_locations st !! location b) as [s0|] eqn:Hs0;
          [|by apply not_elem_of_empty in Hin].
        destruct (Hlo _ _ _ Hs0 Hin) as (y & j & Hy & Hl & Hi & Hx).
        destruct (Hother _ _ _ Hy Hi) as [Hne Hj].
        exists y, j. by rewrite !lookup_insert_ne.
      * subst x. eexists _, _. rewrite !lookup_insert_eq. done.
    + rewrite lookup_insert_ne by done. intros Hs Hin.
      destruct (Hlo _ _ _ Hs Hin) as (y & j & Hy & Hl & Hi & Hx).
      destruct (Hother _ _ _ Hy Hi) as [Hne Hj].
      exists y, j. by rewrite !lookup_insert_ne.
Qed.

Lemma consistent_add st self : consistent st → consistent (final_store (_add self st)).
Proof.
  intros Hst. destruct (objects st !! self) as [b|] eqn:Hb.
  - destruct (_id b) as [i|] eqn:Hid.
    + by rewrite (add_registered _ _ _ _ Hb Hid).
    + rewrite (add_detached _ _ _ Hb Hid). by apply consistent_registered_as.
  - unfold _add, mbind, M_bind, bind, load. by rewrite Hb.
Qed.

Lemma consistent_retired st a b i :
  consistent st → objects st !! a = Some b → _id b = Some i →
  _instances st !! i = Some a →
  consistent (retired a b st).
Proof.
  intros Hst Hb Hi Hia.
  pose proof (consistent_with_object st a b (set_enabled ∅ b) Hst Hb
                ltac:(by repeat split)) as (Hbd & Hun & Hix & Hlo).
  assert (Hb1 : objects (with_object a (set_enabled ∅ b) st) !! a
                = Some (set_enabled ∅ b)) by apply lookup_insert_eq.
  destruct (Hix i a Hia) as (b1 & s & Hb1' & _ & Hs & Hin).
  rewrite Hb1 in Hb1'. injection Hb1' as <-.
  change (location (set_enabled ∅ b)) with (location b) in Hs.
  simpl in Hs.
  unfold retired. rewrite Hi, Hs. simpl default.
  split; [exact Hbd|]. split; [exact Hun|]. split.
  - intros j x. simpl. intros [Hji Hx]%lookup_delete_Some.
    destruct (Hix j x Hx) as (y & s0 & Hy & Hj & Hl & Hx0).
    assert (x ≠ a).
    { intros ->. simpl in Hy. rewrite lookup_insert_eq in Hy.
      injection Hy as <-. simpl in Hj. congruence. }
    exists y. simpl in Hl.
    destruct (decide (location y = location b)) as [Heq|Hne].
    + exists (s ∖ {[a]}). split; [done|]. split; [done|].
      rewrite Heq, lookup_insert_eq. split; [done|].
      rewrite Heq, Hs in Hl. injection Hl as <-.
      apply elem_of_difference. split; [done|]. by intros ?%elem_of_singleton.
    + exists s0. split; [done|]. split; [done|].
      by rewrite lookup_insert_ne.
  - intros k s' x. simpl. destruct (decide (k = location b)) as [->|Hk].
    + rewrite lookup_insert_eq. intros [= <-] [Hx Hxa]%elem_of_difference.
      destruct (Hlo (location b) s x Hs Hx) as (y & j & Hy & Hl & Hj & Hjx).
      exists y, j. split; [done|]. split; [done|]. split; [done|].
      apply lookup_delete_Some. split; [|done].
      intros <-. simpl in Hjx. rewrite Hia in Hjx. injection Hjx as <-.
      apply Hxa. by apply elem_of_singleton.
    + rewrite lookup_insert_ne by done. intros Hs' Hx.
      destruct (Hlo k s' x Hs' Hx) as (y & j & Hy & Hl & Hj & Hjx).
      exists y, j. split; [done|]. split; [done|]. split; [done|].
      apply lookup_delete_Some. split; [|done].
      intros <-. simpl in Hjx. rewrite Hia in Hjx. injection Hjx as <-.
      simpl in Hy. rewrite lookup_insert_eq in Hy. injection Hy as <-.
      by apply Hk.
Qed.

(** In a consistent registry an entry of [_instances] under the id of
    an instance is that instance, which is then registered. *)
Lemma consistent_entry st a b i a' :
  consistent st → objects st !! a = Some b → _id b = Some i →
  _instances st !! i = Some a' →
  a' = a ∧ registered st a b.
Proof.
  intros (_ & Hun & Hix & _) Hb Hi Hia.
  destruct (Hix i a' Hia) as (b' & s & Hb' & Hi' & Hs & Hin).
  assert (a' = a) as -> by by eapply Hun.
  split; [done|]. rewrite Hb in Hb'. injection Hb' as <-.
  exists i, s. split; [done|]. split; [by eexists | done].
Qed.

Lemma consistent_remove st a : consistent st → consistent (final_store (_remove a st)).
Proof.
  intros Hst. destruct (objects st !! a) as [b|] eqn:Hb.
  - assert (Hoff : consistent (with_object a (set_enabled ∅ b) st)).
    { apply (consistent_with_object st a b); [done | done | by repeat split]. }
    destruct (_id b) as [i|] eqn:Hi.
    + destruct (_instances st !! i) as [a'|] eqn:Hia.
      * destruct (consistent_entry _ _ _ _ _ Hst Hb Hi Hia) as [-> Hreg].
        rewrite (remove_registered _ _ _ Hb Hreg). by eapply consistent_retired.
      * unfold _remove.
        rewrite (bind_Return _ _ _ _ _ (load_Some _ _ _ Hb)).
        unfold mbind, M_bind, bind, store, get. simpl. rewrite Hi. simpl.
        by rewrite Hia.
    + unfold _remove.
      rewrite (bind_Return _ _ _ _ _ (load_Some _ _ _ Hb)).
      unfold mbind, M_bind, bind, store. simpl. by rewrite Hi.
  - unfold _remove, mbind, M_bind, bind, load. by rewrite Hb.
Qed.

End consistency.

Section consistency_of_passes.

Import Breakpoint.

Variable eval : string → gmap string pyobject → gmap string pyobject → eval_result.

Lemma consistent_update st a (f : breakpoint → breakpoint) :
  (∀ b, same_settings b (f b)) → consistent st →
  consistent (final_store ((b ← load a; store a (f b)) st)).
Proof.
  intros Hf Hst. unfold mbind, M_bind, bind, load, store.
  destruct (objects st !! a) as [b|] eqn:Hb; simpl; [|done].
  by apply (consistent_with_object st a b).
Qed.

Lemma consistent_relevant_loop p fr possible rel st :
  consistent st →
  consistent (final_store (relevant_loop eval fr p possible rel st)).
Proof.
  revert st.
  apply (keeps_relevant_loop eval p (λ _, True) same_settings
           (λ st st', consistent st → consistent st')).
  - intros b e. by repeat split.
  - intros b v. by repeat split.
  - by intros st.
  - intros st1 st2 st3 H1 H2 H. by apply H2, H1.
  - intros st a b b' _ Hb Hs Hst. by apply (consistent_with_object st a b).
  - intros st a _. apply consistent_remove.
  - done.
  - intros b. by repeat split.
Qed.

Lemma trip_raises_AttributeError b fr e : trip b fr = Exc e → e = AttributeError.
Proof.
  unfold trip, _function_first_line, func_first_line.
  repeat case_match; congruence.
Qed.

(** On an instance both indices know, the ignore-count test returns. *)
Lemma count_or_fire_returns a b p rel st :
  objects st !! a = Some b → registered st a b →
  ∃ rel' st', count_or_fire a p rel st = Return rel' st'.
Proof.
  intros Hb Hreg.
  destruct (decide (0 < default 0 (ignored b !! p))%Z) as [Hn|Hn].
  - destruct (ignored b !! p) as [n|] eqn:Hi; [|simpl in Hn; lia].
    eexists _, _. by eapply count_or_fire_suppresses.
  - destruct (temporary b) eqn:Ht.
    + eexists _, _. apply count_or_fire_retires; [done | lia | done | done].
    + eexists _, _. apply count_or_fire_fires; [done | lia | done].
Qed.

Lemma visit_counted_returns a b p fr rel st :
  objects st !! a = Some b → enabled b !! p = Some true → trip b fr = Val true →
  registered st a b →
  ∃ rel' st', visit eval fr p a rel st = Return rel' st'.
Proof.
  intros Hb Hp Ht Hreg. rewrite (visit_counts eval _ _ _ _ _ _ Hb Hp Ht).
  assert (Hcf : ∃ rel' st',
             count_or_fire a p rel (with_object a (hit b) st) = Return rel' st').
  { apply (count_or_fire_returns a (hit b)); [apply lookup_insert_eq|].
    by apply (registered_with_object st a b). }
  destruct (negb (condition_set (condition b))); [done|].
  unfold try_except, mbind, M_bind, bind.
  destruct (eval_condition eval (hit b) fr (with_object a (hit b) st))
    as [[] s1|e s1] eqn:He; [| by eexists _, _ | by eexists _, _].
  assert (s1 = with_object a (hit b) st) as ->.
  { unfold eval_condition, raise, mret, M_ret, ret in He.
    destruct (eval _ _ _); [discriminate | by injection He]. }
  destruct Hcf as (r & s2 & ->). by eexists _, _.
Qed.

End consistency_of_passes.

Section consistency_theorems.

Import Breakpoint.

Variable eval : string → gmap string pyobject → gmap string pyobject → eval_result.

Lemma consistent_visit p fr a rel st :
  consistent st → consistent (final_store (visit eval fr p a rel st)).
Proof.
  intros Hst.
  pose proof (consistent_relevant_loop eval p fr [a] rel st Hst) as H.
  simpl in H. unfold mbind, M_bind, bind in H.
  by destruct (visit eval fr p a rel st).
Qed.

(** X9: consistency of the registry (no id above the counter, no id held
    twice, every entry of [_instances] an instance with that id that sits
    in the set of its location, every member of a location's set an
    instance of that location that [_instances] has under its id) holds
    when the class is loaded and is kept by construction at an unused
    address, by [_add], [_remove], [enable], [disable], [ignore] and by the
    evaluator, however each of them ends. *)
Theorem registry_stays_consistent st :
  consistent st →
  (∀ a b, objects st !! a = None → _id b = None →
          consistent (final_store (new a b st))) ∧
  (∀ a, consistent (final_store (_add a st))) ∧
  (∀ a, consistent (final_store (_remove a st))) ∧
  (∀ a q, consistent (final_store (enable a q st)) ∧
          consistent (final_store (disable a q st))) ∧
  (∀ a q n, consistent (final_store (ignore a q n st))) ∧
  (∀ fr q possible rel,
     consistent (final_store (relevant_loop eval fr q possible rel st))) ∧
  (∀ fr q, consistent (final_store (relevant_breakpoints eval fr q st))).
Proof.
  intros Hst.
  split; [intros a b; by apply consistent_new|].
  split; [intros a; by apply consistent_add|].
  split; [intros a; by apply consistent_remove|].
  split.
  { intros a q. split.
    - apply (consistent_update st a
               (λ b, set_enabled (<[q := true]> (enabled b)) b)); [|done].
      intros b. by repeat split.
    - apply (consistent_update st a
               (λ b, set_enabled (<[q := false]> (enabled b)) b)); [|done].
      intros b. by repeat split. }
  split.
  { intros a q n.
    apply (consistent_update st a
             (λ b, set_ignored (<[q := n]> (ignored b)) b)); [|done].
    intros b. by repeat split. }
  split; [intros fr q possible rel; by apply consistent_relevant_loop|].
  intros fr q. unfold relevant_breakpoints, mbind, M_bind, bind, get, lift.
  destruct (py_add _ _) as [possible|e]; simpl; [|done].
  by apply consistent_relevant_loop.
Qed.

(** X10: in a consistent registry, a pass over a member of a location's
    set finds the instance, and ends normally in a consistent registry
    unless the instance is enabled for the party and [trip] raises, which
    it only does with [AttributeError]; in particular retiring a
    temporary breakpoint never fails there. *)
Theorem pass_over_member_returns p fr rel st k s a :
  consistent st →
  _break_locations st !! k = Some s →
  a ∈ s →
  ∃ b,
    objects st !! a = Some b ∧ location b = k ∧
    match enabled b !! p, trip b fr with
    | Some true, Exc e =>
        e = AttributeError ∧ visit eval fr p a rel st = Raise AttributeError st
    | _, _ =>
        ∃ rel' st', visit eval fr p a rel st = Return rel' st' ∧ consistent st'
    end.
Proof.
  intros Hst Hk Hin.
  pose proof Hst as (_ & _ & _ & Hlo).
  destruct (Hlo k s a Hk Hin) as (b & i & Hb & Hl & Hi & Hia).
  assert (Hreg : registered st a b).
  { exists i, s. rewrite Hl. split; [done|]. split; [by eexists | done]. }
  exists b. split; [done|]. split; [done|].
  pose proof (consistent_visit p fr a rel st Hst) as Hfin.
  assert (Hoff : enabled b !! p ≠ Some true →
                 ∃ rel' st', visit eval fr p a rel st = Return rel' st' ∧
                             consistent st').
  { intros Hp. rewrite (visit_not_enabled eval _ _ _ _ _ _ Hb Hp) in Hfin |- *.
    by eexists _, _. }
  destruct (enabled b !! p) as [[]|] eqn:Hp.
  - destruct (trip b fr) as [[]|e] eqn:Ht.
    + destruct (visit_counted_returns eval _ _ _ _ rel _ Hb Hp Ht Hreg)
        as (rel' & st' & Hv).
      rewrite Hv in Hfin |- *. by eexists _, _.
    + rewrite (visit_not_tripped eval _ _ _ _ _ _ Hb Hp Ht). by eexists _, _.
    + pose proof (trip_raises_AttributeError _ _ _ Ht) as ->.
      split; [done|]. by apply (visit_trip_raises eval _ _ _ _ _ b).
  - by apply Hoff.
  - by apply Hoff.
Qed.

End consistency_theorems.

Section consistency_examples.

Import Breakpoint.

Lemma registry_stays_consistent_witness :
  consistent fresh_registry ∧
  consistent one_detached ∧
  consistent (final_store (_remove 1%positive fresh_registry)).
Proof.
  pose proof fresh_registry_consistent as H.
  destruct (registry_stays_consistent eval_true fresh_registry H)
    as (Hnew & _ & Hrm & _).
  split; [exact H|]. split; [|exact (Hrm 1%positive)].
  exact (Hnew 1%positive bp_a10 eq_refl eq_refl).
Defined.

Lemma pass_over_member_returns_witness :
  consistent (armed bp_temporary) ∧
  _break_locations (armed bp_temporary) !! frame_location_by_line frame_a10
    = Some {[1%positive]} ∧
  1%positive ∈ ({[1%positive]} : gset addr) ∧
  ∃ b,
    objects (armed bp_temporary) !! 1%positive = Some b ∧
    location b = frame_location_by_line frame_a10 ∧
    match enabled b !! P1, trip b frame_a10 with
    | Some true, Exc e =>
        e = AttributeError ∧
        visit eval_true frame_a10 P1 1%positive ∅ (armed bp_temporary)
          = Raise AttributeError (armed bp_temporary)
    | _, _ =>
        ∃ rel' st',
          visit eval_true frame_a10 P1 1%positive ∅ (armed bp_temporary)
            = Return rel' st' ∧ consistent st'
    end.
Proof.
  assert (H0 : consistent (armed bp_temporary)).
  { unfold armed.
    destruct (registry_stays_consistent eval_true fresh_registry
                fresh_registry_consistent) as (Hnew & _).
    pose proof (Hnew 1%positive bp_temporary eq_refl eq_refl) as H1.
    destruct (registry_stays_consistent eval_true _ H1) as (_ & Hadd & _).
    pose proof (Hadd 1%positive) as H2.
    destruct (registry_stays_consistent eval_true _ H2) as (_ & _ & _ & Hen & _).
    exact (proj1 (Hen 1%positive P1)). }
  assert (H1 : _break_locations (armed bp_temporary)
                 !! frame_location_by_line frame_a10 = Some {[1%positive]})
    by reflexivity.
  assert (H2 : 1%positive ∈ ({[1%positive]} : gset addr))
    by by apply elem_of_singleton.
  split; [exact H0|]. split; [exact H1|]. split; [exact H2|].
  exact (pass_over_member_returns eval_true P1 frame_a10 ∅ _ _ _ _ H0 H1 H2).
Defined.

End consistency_examples.

Section evaluator_effect_examples.

Import Breakpoint.

Lemma evaluator_keeps_settings_witness :
  objects (armed bp_temporary) !! 1%positive = Some (in_arms bp_temporary) ∧
  ∃ b',
    objects (final_store (relevant_loop eval_true frame_a10 P1 [1%positive] ∅
                            (armed bp_temporary))) !! 1%positive = Some b' ∧
    same_settings (in_arms bp_temporary) b' ∧
    location b' = location (in_arms bp_temporary) ∧
    (∀ fr', trip b' fr' = trip (in_arms bp_temporary) fr') ∧
    (hits (in_arms bp_temporary) ≤ hits b')%Z.
Proof.
  assert (H : objects (armed bp_temporary) !! 1%positive
              = Some (in_arms bp_temporary)) by reflexivity.
  split; [exact H|].
  exact (evaluator_keeps_settings eval_true P1 frame_a10 [1%positive] ∅ _ _ _ H).
Defined.

(** A registry in which [P2] has asked to ignore three passes. *)
Definition armed_ignored_by_P2 : registry :=
  final_store (ignore 1%positive P2 3 (armed bp_a10)).

Lemma evaluator_isolates_witness :
  ∃ b,
    objects armed_ignored_by_P2 !! 1%positive = Some b ∧
    ignored b !! P2 = Some 3%Z ∧
    ∃ b',
      objects (final_store (relevant_loop eval_true frame_a10 P1 [1%positive] ∅
                              armed_ignored_by_P2)) !! 1%positive = Some b' ∧
      (∀ q, q ≠ P1 → ignored b' !! q = ignored b !! q) ∧
      (1%positive ∉ [1%positive] → b' = b).
Proof.
  eexists. split; [reflexivity|]. split; [reflexivity|].
  exact (evaluator_isolates eval_true P1 frame_a10 [1%positive] ∅
           armed_ignored_by_P2 1%positive _ eq_refl).
Defined.

Lemma hits_count_enabled_trips_witness :
  objects (armed bp_boom) !! 1%positive = Some (in_arms bp_boom) ∧
  hits <$> objects (final_store (visit eval_raises frame_a10 P1 1%positive ∅
                                   (armed bp_boom))) !! 1%positive
    = Some 1%Z ∧
  hits <$> objects (final_store (visit eval_raises frame_a10 P2 1%positive ∅
                                   (armed bp_boom))) !! 1%positive
    = Some 0%Z.
Proof.
  assert (H : objects (armed bp_boom) !! 1%positive = Some (in_arms bp_boom))
    by reflexivity.
  split; [exact H|]. split.
  - exact (hits_count_enabled_trips eval_raises P1 frame_a10 1%positive ∅ _ _ H).
  - exact (hits_count_enabled_trips eval_raises P2 frame_a10 1%positive ∅ _ _ H).
Defined.

End evaluator_effect_examples.

(** * Further properties of the evaluator *)

Section evaluator_edges.

Import Breakpoint.

Variable eval : string → gmap string pyobject → gmap string pyobject → eval_result.

(** X11: [relevant_breakpoints] has two outcomes only, and neither
    writes to the registry: with no entry under the line key and none
    under the function key of the frame it returns the empty set; with an
    entry under either, it raises [TypeError].  It never returns a
    breakpoint. *)
Theorem relevant_breakpoints_empty_or_TypeError fr p st :
  (if decide (_break_locations st !! frame_location_by_line fr = None ∧
              _break_locations st !! frame_location_by_function fr = None)
   then relevant_breakpoints eval fr p st = Return ∅ st
   else relevant_breakpoints eval fr p st = Raise TypeError st) ∧
  (∀ rel st', relevant_breakpoints eval fr p st = Return rel st' →
              rel = ∅ ∧ st' = st) ∧
  final_store (relevant_breakpoints eval fr p st) = st.
Proof.
  assert (H : if decide (_break_locations st !! frame_location_by_line fr = None ∧
                         _break_locations st !! frame_location_by_function fr = None)
              then relevant_breakpoints eval fr p st = Return ∅ st
              else relevant_breakpoints eval fr p st = Raise TypeError st).
  { case_decide as Hk.
    - destruct Hk. by apply relevant_breakpoints_no_entry.
    - apply relevant_breakpoints_entry.
      destruct (_break_locations st !! frame_location_by_line fr) eqn:H1;
        [left; by eexists|].
      destruct (_break_locations st !! frame_location_by_function fr) eqn:H2;
        [right; by eexists|].
      by destruct Hk. }
  split; [exact H|].
  case_decide; rewrite H; split; try done; by intros rel st' [= <- <-].
Qed.

(** X12: registering an instance whose location is the line key or the
    function key of a frame makes [relevant_breakpoints] raise
    [TypeError] on that frame for every party, and removing the instance
    does not mend it: [_remove] leaves the set, now without the instance,
    under the key. *)
Theorem position_raises_once_registered fr p st a b :
  objects st !! a = Some b →
  _id b = None →
  location b = frame_location_by_line fr ∨
  location b = frame_location_by_function fr →
  let st1 := final_store (_add a st) in
  let st2 := final_store (_remove a st1) in
  relevant_breakpoints eval fr p st1 = Raise TypeError st1 ∧
  _remove a st1 = Return tt st2 ∧
  relevant_breakpoints eval fr p st2 = Raise TypeError st2.
Proof.
  intros Hb Hid Hloc st1 st2.
  assert (H1 : st1 = registered_as st a b).
  { unfold st1. by rewrite (add_detached _ _ _ Hb Hid). }
  assert (Hobj : objects st1 !! a = Some (set_id (_id_counter st + 1) b)).
  { rewrite H1. simpl. apply lookup_insert_eq. }
  assert (Hreg : registered st1 a (set_id (_id_counter st + 1) b)).
  { rewrite H1. apply registered_as_registered. }
  assert (H2 : st2 = retired a (set_id (_id_counter st + 1) b) st1).
  { unfold st2. by rewrite (remove_registered _ _ _ Hobj Hreg). }
  assert (Hk1 : is_Some (_break_locations st1 !! location b)).
  { rewrite H1. simpl. rewrite lookup_insert_eq. by eexists. }
  assert (Hk2 : is_Some (_break_locations st2 !! location b)).
  { rewrite H2. unfold retired. simpl. rewrite lookup_insert_eq. by eexists. }
  split; [|split].
  - apply relevant_breakpoints_entry. destruct Hloc as [<-|<-]; auto.
  - rewrite H2. by apply remove_registered.
  - apply relevant_breakpoints_entry. destruct Hloc as [<-|<-]; auto.
Qed.

(** X13: enabling is per party, and [disable] undoes it: after
    [disable(p)] a pass for [p] changes nothing at all, whatever the frame
    and the condition; and a pass for a party [q] for which the breakpoint
    is not enabled, while it is enabled for [p], adds nothing, counts no
    hit and leaves the ignore counts and both indices alone. *)
Theorem enabling_is_per_party p q fr rel st a b :
  objects st !! a = Some b →
  q ≠ p →
  enabled b !! q ≠ Some true →
  let off := final_store (disable a p st) in
  let on := final_store (enable a p st) in
  visit eval fr p a rel off = Return rel off ∧
  ∃ st',
    visit eval fr q a rel on = Return rel st' ∧
    _instances st' = _instances st ∧
    _break_locations st' = _break_locations st ∧
    ∃ b', objects st' !! a = Some b' ∧ hits b' = hits b ∧
          ignored b' = ignored b ∧ enabled b' !! p = Some true.
Proof.
  intros Hb Hq Hoff off on.
  assert (Hd : off = with_object a (set_enabled (<[p := false]> (enabled b)) b) st).
  { unfold off, disable. by rewrite (bind_Return _ _ _ _ _ (load_Some _ _ _ Hb)). }
  assert (He : on = with_object a (set_enabled (<[p := true]> (enabled b)) b) st).
  { unfold on, enable. by rewrite (bind_Return _ _ _ _ _ (load_Some _ _ _ Hb)). }
  split.
  - rewrite Hd.
    rewrite (visit_not_enabled eval a
               (set_enabled (<[p := false]> (enabled b)) b) p fr rel).
    + simpl. rewrite lookup_insert_eq. simpl. rewrite insert_insert_eq.
      by rewrite with_object_twice.
    + simpl. apply lookup_insert_eq.
    + simpl. by rewrite lookup_insert_eq.
  - rewrite He. eexists. split.
    + apply (visit_not_enabled eval a
               (set_enabled (<[p := true]> (enabled b)) b) q fr rel).
      * simpl. apply lookup_insert_eq.
      * simpl. by rewrite lookup_insert_ne.
    + split; [done|]. split; [done|]. eexists. simpl.
      rewrite lookup_insert_eq. split; [done|]. simpl.
      split; [done|]. split; [done|].
      rewrite lookup_insert_ne by done. apply lookup_insert_eq.
Qed.

End evaluator_edges.

Section evaluator_edges_2.

Import Breakpoint.

Variable eval : string → gmap string pyobject → gmap string pyobject → eval_result.

(** X14: an ignore count that is zero or negative suppresses nothing and
    is not counted down.  For a breakpoint that is enabled for [p], and
    that is not temporary or else is known to both indices: after
    [ignore(p, n)] with [n <= 0], the next pass over it that trips and
    passes the condition adds it to [relevant] and counts one hit, and the
    count of [p] is still [n]. *)
Theorem nonpositive_ignore_fires p n fr rel st a b :
  objects st !! a = Some b →
  enabled b !! p = Some true →
  trip b fr = Val true →
  passes eval b fr →
  (temporary b = true → registered st a b) →
  (n ≤ 0)%Z →
  ∃ st' b',
    visit eval fr p a rel (final_store (ignore a p n st)) = Return (rel ∪ {[a]}) st' ∧
    objects st' !! a = Some b' ∧
    ignored b' !! p = Some n ∧
    hits b' = (hits b + 1)%Z.
Proof.
  intros Hb Hp Ht Hpass Hreg Hn.
  assert (Hi : final_store (ignore a p n st) =
               with_object a (set_ignored (<[p := n]> (ignored b)) b) st).
  { unfold ignore. by rewrite (bind_Return _ _ _ _ _ (load_Some _ _ _ Hb)). }
  rewrite Hi. set (bi := set_ignored (<[p := n]> (ignored b)) b).
  assert (Hbi : objects (with_object a bi st) !! a = Some bi).
  { simpl. apply lookup_insert_eq. }
  assert (Hni : (default 0 (ignored bi !! p) ≤ 0)%Z).
  { subst bi. simpl. by rewrite lookup_insert_eq. }
  destruct (temporary b) eqn:Htmp.
  - eexists _, _. split.
    + apply (visit_retires eval a bi); try done.
      by apply (registered_with_object st a b); [apply Hreg | |].
    + simpl. rewrite lookup_insert_eq. split; [done|]. simpl.
      rewrite !lookup_insert_eq. done.
  - eexists _, _. split.
    + by apply (visit_fires eval a bi).
    + simpl. rewrite lookup_insert_eq. split; [done|]. simpl.
      rewrite !lookup_insert_eq. done.
Qed.

(** X15: a trip whose condition evaluates to a false value is counted as
    a hit and has no other effect: nothing is added, the party's ignore
    count stays, a temporary breakpoint is not retired. *)
Theorem false_condition_only_counts p fr rel st a b :
  objects st !! a = Some b →
  enabled b !! p = Some true →
  trip b fr = Val true →
  condition_set (condition b) = true →
  eval (default "" (condition b)) (f_globals fr) (f_locals fr) = EvalYields false →
  let st' := with_object a (hit b) st in
  visit eval fr p a rel st = Return rel st' ∧
  objects st' !! a = Some (hit b) ∧
  hits (hit b) = (hits b + 1)%Z ∧
  ignored (hit b) = ignored b ∧
  enabled (hit b) = enabled b ∧
  _instances st' = _instances st ∧
  _break_locations st' = _break_locations st.
Proof.
  intros Hb Hp Ht Hc He st'.
  split; [by apply visit_condition_false|].
  split; [apply lookup_insert_eq | done].
Qed.

(** A pass returns [relevant] as it was or with its candidate added. *)
Lemma visit_adds_at_most_candidate fr p a rel st rel' st' :
  visit eval fr p a rel st = Return rel' st' →
  rel' = rel ∨ rel' = rel ∪ {[a]}.
Proof.
  assert (Hcf : ∀ s r' s', count_or_fire a p rel s = Return r' s' →
                           r' = rel ∨ r' = rel ∪ {[a]}).
  { intros s r' s'. unfold count_or_fire, mbind, M_bind, bind.
    destruct (ignored_getitem a p s) as [n s1|]; [|done].
    destruct (0 <? n)%Z.
    - destruct (ignored_getitem a p s1) as [m s2|]; [|done].
      destruct (ignored_setitem a p (m - 1) s2); [|done].
      intros [= <- _]. by left.
    - destruct (load a s1) as [b s2|]; [|done].
      destruct (temporary b).
      + destruct (_remove a s2); [|done]. intros [= <- _]. by right.
      + intros [= <- _]. by right. }
  unfold visit, mbind, M_bind, bind.
  destruct (enabled_getitem a p st) as [on s1|]; [|done].
  destruct (negb on); [intros [= <- _]; by left|].
  destruct (load a s1) as [b s2|]; [|done].
  destruct (lift (trip b fr) s2) as [t s3|]; [|done].
  destruct (negb t); [intros [= <- _]; by left|].
  destruct (store a (set_hits (hits b + 1) b) s3) as [[] s4|]; [|done].
  destruct (load a s4) as [b' s5|]; [|done].
  destruct (negb (condition_set (condition b'))); [apply Hcf|].
  unfold try_except.
  destruct (eval_condition eval b' fr s5) as [r s6|].
  - destruct r.
    + destruct (count_or_fire a p rel s6) eqn:Hc.
      * intros [= <- _]. by eapply Hcf.
      * intros [= <- _]. by right.
    + intros [= <- _]. by left.
  - intros [= <- _]. by right.
Qed.

Lemma relevant_loop_within_candidates fr p possible rel st rel' st' :
  relevant_loop eval fr p possible rel st = Return rel' st' →
  rel' ⊆ rel ∪ list_to_set possible.
Proof.
  revert rel st. induction possible as [|a rest IH]; intros rel st; simpl.
  - intros [= <- _]. apply union_subseteq_l.
  - unfold mbind, M_bind, bind.
    destruct (visit eval fr p a rel st) as [r1 s1|] eqn:Hv; [|done].
    intros H. apply IH in H. intros x Hx. apply H in Hx.
    rewrite !elem_of_union in Hx. rewrite !elem_of_union.
    destruct (visit_adds_at_most_candidate _ _ _ _ _ _ _ Hv) as [->| ->].
    + destruct Hx as [Hx|Hx]; [by left | right; by right].
    + rewrite elem_of_union in Hx.
      destruct Hx as [[Hx|Hx]|Hx]; [by left | right; by left | right; by right].
Qed.

(** X16: what the evaluator reports is made of what it was handed: the
    set the loop returns contains the initial set and otherwise only
    candidates; and a single pass adds its candidate only if the
    breakpoint is enabled for the asking party and trips on the frame. *)
Theorem reports_only_enabled_tripping_candidates fr p possible rel st rel' st' :
  relevant_loop eval fr p possible rel st = Return rel' st' →
  rel ⊆ rel' ∧
  rel' ⊆ rel ∪ list_to_set possible ∧
  (∀ a b rel1 st1,
     objects st !! a = Some b →
     visit eval fr p a rel st = Return rel1 st1 →
     a ∉ rel → a ∈ rel1 →
     enabled b !! p = Some true ∧ trip b fr = Val true).
Proof.
  intros Hloop.
  split; [by eapply relevant_loop_grows|].
  split; [by eapply relevant_loop_within_candidates|].
  intros a b rel1 st1 Hb Hv Hout Hin.
  destruct (decide (enabled b !! p = Some true)) as [Hp|Hp].
  - split; [done|]. destruct (trip b fr) as [[]|e] eqn:Ht; [done| |].
    + rewrite (visit_not_tripped eval _ _ _ _ _ _ Hb Hp Ht) in Hv.
      injection Hv as <- _. done.
    + rewrite (visit_trip_raises eval _ _ _ _ _ _ _ Hb Hp Ht) in Hv. done.
  - rewrite (visit_not_enabled eval _ _ _ _ _ _ Hb Hp) in Hv.
    injection Hv as <- _. done.
Qed.

End evaluator_edges_2.

(** * Construction, keys and the module-level helper *)

Section construction.

Import Breakpoint.

(** X17: the function a function-keyed breakpoint is compared with is
    looked up in the caller's locals first: a local binding decides alone,
    whatever the globals hold, so that a local name bound to something
    that is no function makes [trip] raise [AttributeError] even when the
    global of that name is the function. *)
Theorem function_lookup_prefers_locals self fr back x :
  function_name self ≠ "" →
  co_name fr = function_name self →
  f_back fr = Some back →
  f_locals back !! function_name self = Some x →
  _function_first_line self fr = func_first_line x ∧
  trip self fr =
    match x with
    | PyFunction first => Val (Z.eqb (f_lineno fr) first)
    | PyOpaque => Exc AttributeError
    end.
Proof.
  intros Hn Hc Hback Hx.
  assert (H : _function_first_line self fr = func_first_line x).
  { unfold _function_first_line. by rewrite Hback, Hx. }
  split; [exact H|]. rewrite (trip_by_function _ _ Hn Hc), H. by destruct x.
Qed.

(** A frame of [foo] whose caller has a local [foo] that is no function,
    beside the global function [foo]. *)
Definition frame_foo_shadowed : frame :=
  {| co_filename := "a.py"; co_name := "foo"; f_lineno := 3;
     f_globals := {["foo" := PyFunction 3]}; f_locals := ∅;
     f_back := Some {| co_filename := "a.py"; co_name := "main"; f_lineno := 20;
                       f_globals := {["foo" := PyFunction 3]};
                       f_locals := {["foo" := PyOpaque]};
                       f_back := None |} |}.

Lemma function_lookup_prefers_locals_witness :
  function_name bp_foo ≠ "" ∧
  co_name frame_foo_shadowed = function_name bp_foo ∧
  trip bp_foo frame_foo_shadowed = Exc AttributeError.
Proof.
  assert (H1 : function_name bp_foo ≠ "") by discriminate.
  assert (H2 : co_name frame_foo_shadowed = function_name bp_foo) by reflexivity.
  split; [exact H1|]. split; [exact H2|].
  exact (proj2 (function_lookup_prefers_locals bp_foo frame_foo_shadowed _ PyOpaque
                  H1 H2 eq_refl eq_refl)).
Defined.

Lemma init_location_int file n tmp cond nt :
  location (__init__ file (IntLike n) tmp cond nt) = KeyTuple file (ByLine n).
Proof. done. Qed.

Lemma init_location_name file s tmp cond nt :
  s ≠ "" → location (__init__ file (NotInt s) tmp cond nt) = KeyTuple file (ByName s).
Proof.
  intros Hs. unfold location, __init__, function_name, filename. simpl.
  by rewrite (proj2 (str_truthy_true s) Hs).
Qed.

(** X18: the key a constructed breakpoint is registered under meets the
    keys computed from frames as follows.  Built from a line number, it
    is the line key of exactly the frames of that file at that line, is
    the function key of no frame, and the breakpoint trips on every frame
    it is the line key of.  Built from a function name, it is the function
    key of exactly the frames of that file running a function of that
    name, and the line key of none.  Built from the empty string, it is
    the key of no frame at all. *)
Theorem location_meets_frame_keys file tmp cond nt fr :
  (∀ n,
     let b := __init__ file (IntLike n) tmp cond nt in
     (location b = frame_location_by_line fr ↔
        file = co_filename fr ∧ n = f_lineno fr) ∧
     location b ≠ frame_location_by_function fr ∧
     (location b = frame_location_by_line fr → trip b fr = Val true)) ∧
  (∀ s, s ≠ "" →
     let b := __init__ file (NotInt s) tmp cond nt in
     (location b = frame_location_by_function fr ↔
        file = co_filename fr ∧ s = co_name fr) ∧
     location b ≠ frame_location_by_line fr) ∧
  (let b := __init__ file (NotInt "") tmp cond nt in
   location b ≠ frame_location_by_line fr ∧
   location b ≠ frame_location_by_function fr ∧
   trip b fr = Val false).
Proof.
  split; [|split].
  - intros n b. subst b. rewrite init_location_int.
    unfold frame_location_by_line, frame_location_by_function.
    split; [|split].
    + split; [by intros [= -> ->] | by intros [-> ->]].
    + discriminate.
    + intros [= -> ->]. unfold trip, __init__, function_name, line_number. simpl.
      by rewrite bool_decide_eq_true_2.
  - intros s Hs b. subst b. rewrite (init_location_name _ _ _ _ _ Hs).
    unfold frame_location_by_line, frame_location_by_function.
    split; [|discriminate].
    split; [by intros [= -> ->] | by intros [-> ->]].
  - simpl. split; [discriminate|]. split; [discriminate | done].
Qed.

(** [set_breakpoint(note)]: a [Breakpoint] is constructed for the file
    and line of the caller's frame and dropped; [a] is the address the
    instance is built at. *)
Definition set_breakpoint (a : addr) (caller : frame) (nt : string) : M unit :=
  new a (__init__ (co_filename caller) (IntLike (f_lineno caller)) false None nt).

(** X19: [set_breakpoint] arms nothing: the counter and both indices are
    as before, the instance it builds has no id and is enabled for nobody,
    every reference that resolved before resolves as before, and a
    position for which [relevant_breakpoints] returned the empty set still
    gets the empty set. *)
Theorem set_breakpoint_arms_nothing eval a caller nt st :
  objects st !! a = None →
  let st' := final_store (set_breakpoint a caller nt st) in
  _id_counter st' = _id_counter st ∧
  _instances st' = _instances st ∧
  _break_locations st' = _break_locations st ∧
  (∃ b, objects st' !! a = Some b ∧ _id b = None ∧ enabled b = ∅ ∧
        location b = frame_location_by_line caller) ∧
  (∀ refs, resolve_breakpoints st' refs = resolve_breakpoints st refs) ∧
  (∀ fr p, relevant_breakpoints eval fr p st = Return ∅ st →
           relevant_breakpoints eval fr p st' = Return ∅ st').
Proof.
  intros Hfree st'. split; [done|]. split; [done|]. split; [done|].
  split; [eexists; split; [apply lookup_insert_eq | done]|].
  split.
  - intros refs. unfold resolve_breakpoints.
    generalize (@nil addr).
    induction (match refs with Single r => [r] | Collection rs => rs end)
      as [|r rest IH]; intros acc; [done|].
    destruct r; simpl; try apply IH.
    + destruct (_instances st !! i); [apply IH | done].
    + destruct (_break_locations st !! KeyStr s); [apply IH | done].
  - intros fr p H.
    destruct (_break_locations st !! frame_location_by_line fr) eqn:H1.
    { rewrite relevant_breakpoints_entry in H; [done | left; by eexists]. }
    destruct (_break_locations st !! frame_location_by_function fr) eqn:H2.
    { rewrite relevant_breakpoints_entry in H; [done | right; by eexists]. }
    by apply relevant_breakpoints_no_entry.
Qed.

Lemma set_breakpoint_arms_nothing_witness :
  objects fresh_registry !! 1%positive = None ∧
  relevant_breakpoints eval_true frame_a10 P1
    (final_store (set_breakpoint 1%positive frame_a10 "" fresh_registry))
  = Return ∅ (final_store (set_breakpoint 1%positive frame_a10 "" fresh_registry)).
Proof.
  assert (H : objects fresh_registry !! 1%positive = None) by reflexivity.
  destruct (set_breakpoint_arms_nothing eval_true 1%positive frame_a10 ""
              fresh_registry H) as (_ & _ & _ & _ & _ & Hrel).
  split; [exact H|]. apply Hrel. reflexivity.
Defined.

(** X20: ids follow the order of registration: two detached instances
    registered one after the other get the next two values of the
    counter, and when they have the same location the set under that key
    holds both. *)
Theorem ids_follow_registration_order st a a' b b' :
  objects st !! a = Some b →
  objects st !! a' = Some b' →
  _id b = None →
  _id b' = None →
  a ≠ a' →
  let st' := final_store ((_add a;; _add a') st) in
  _id <$> objects st' !! a = Some (Some (_id_counter st + 1)%Z) ∧
  _id <$> objects st' !! a' = Some (Some (_id_counter st + 2)%Z) ∧
  _id_counter st' = (_id_counter st + 2)%Z ∧
  _instances st' !! (_id_counter st + 1)%Z = Some a ∧
  _instances st' !! (_id_counter st + 2)%Z = Some a' ∧
  (location b = location b' →
   ∃ s, _break_locations st' !! location b = Some s ∧ a ∈ s ∧ a' ∈ s).
Proof.
  intros Hb Hb' Hid Hid' Hne st'.
  assert (Hst' : st' = registered_as (registered_as st a b) a' b').
  { unfold st'. rewrite (bind_Return _ _ _ _ _ (add_detached _ _ _ Hb Hid)).
    rewrite (add_detached (registered_as st a b) a' b'); [done| |done].
    simpl. by rewrite lookup_insert_ne. }
  rewrite Hst'. simpl.
  replace (_id_counter st + 1 + 1)%Z with (_id_counter st + 2)%Z by lia.
  split; [by rewrite lookup_insert_ne, lookup_insert_eq|].
  split; [by rewrite lookup_insert_eq|]. split; [done|].
  split; [rewrite lookup_insert_ne by lia; by rewrite lookup_insert_eq|].
  split; [by rewrite lookup_insert_eq|].
  intros Hloc. rewrite <- Hloc. rewrite !lookup_insert_eq. simpl.
  eexists. split; [done|]. split.
  - apply elem_of_union_l, elem_of_union_r. by apply elem_of_singleton.
  - apply elem_of_union_r. by apply elem_of_singleton.
Qed.

Lemma ids_follow_registration_order_witness :
  let st := final_store ((new 1%positive bp_a10;; new 2%positive bp_temporary)
                           fresh_registry) in
  let st' := final_store ((_add 1%positive;; _add 2%positive) st) in
  objects st !! 1%positive = Some bp_a10 ∧
  objects st !! 2%positive = Some bp_temporary ∧
  _id <$> objects st' !! 1%positive = Some (Some 1%Z) ∧
  _id <$> objects st' !! 2%positive = Some (Some 2%Z) ∧
  ∃ s, _break_locations st' !! location bp_a10 = Some s ∧
       1%positive ∈ s ∧ 2%positive ∈ s.
Proof.
  intros st st'.
  assert (H1 : objects st !! 1%positive = Some bp_a10) by reflexivity.
  assert (H2 : objects st !! 2%positive = Some bp_temporary) by reflexivity.
  destruct (ids_follow_registration_order st 1%positive 2%positive _ _ H1 H2
              eq_refl eq_refl ltac:(discriminate))
    as (Ha & Hb & _ & _ & _ & Hloc).
  split; [exact H1|]. split; [exact H2|]. split; [exact Ha|].
  split; [exact Hb|]. exact (Hloc eq_refl).
Defined.

End construction.

Section evaluator_edge_examples.

Import Breakpoint.

Lemma position_raises_once_registered_witness :
  let st1 := final_store (_add 1%positive one_detached) in
  let st2 := final_store (_remove 1%positive st1) in
  objects one_detached !! 1%positive = Some bp_a10 ∧
  _id bp_a10 = None ∧
  location bp_a10 = frame_location_by_line frame_a10 ∧
  relevant_breakpoints eval_true frame_a10 P1 st1 = Raise TypeError st1 ∧
  _remove 1%positive st1 = Return tt st2 ∧
  relevant_breakpoints eval_true frame_a10 P1 st2 = Raise TypeError st2.
Proof.
  intros st1 st2.
  assert (H1 : objects one_detached !! 1%positive = Some bp_a10) by reflexivity.
  assert (H2 : _id bp_a10 = None) by reflexivity.
  assert (H3 : location bp_a10 = frame_location_by_line frame_a10) by reflexivity.
  split; [exact H1|]. split; [exact H2|]. split; [exact H3|].
  exact (position_raises_once_registered eval_true frame_a10 P1 one_detached
           1%positive bp_a10 H1 H2 (or_introl H3)).
Defined.

Lemma enabling_is_per_party_witness :
  objects one_registered !! 1%positive = Some (set_id 1 bp_a10) ∧
  P2 ≠ P1 ∧
  enabled (set_id 1 bp_a10) !! P2 ≠ Some true ∧
  visit eval_true frame_a10 P1 1%positive ∅
    (final_store (disable 1%positive P1 one_registered))
  = Return ∅ (final_store (disable 1%positive P1 one_registered)) ∧
  ∃ st',
    visit eval_true frame_a10 P2 1%positive ∅
      (final_store (enable 1%positive P1 one_registered)) = Return ∅ st'.
Proof.
  assert (H1 : objects one_registered !! 1%positive = Some (set_id 1 bp_a10))
    by reflexivity.
  assert (H2 : P2 ≠ P1) by discriminate.
  assert (H3 : enabled (set_id 1 bp_a10) !! P2 ≠ Some true) by discriminate.
  destruct (enabling_is_per_party eval_true P1 P2 frame_a10 ∅ one_registered
              1%positive _ H1 H2 H3) as (Hoff & st' & Hon & _).
  split; [exact H1|]. split; [exact H2|]. split; [exact H3|].
  split; [exact Hoff|]. by exists st'.
Defined.

Lemma nonpositive_ignore_fires_witness :
  objects (armed bp_a10) !! 1%positive = Some (in_arms bp_a10) ∧
  enabled (in_arms bp_a10) !! P1 = Some true ∧
  trip (in_arms bp_a10) frame_a10 = Val true ∧
  passes eval_true (in_arms bp_a10) frame_a10 ∧
  temporary (in_arms bp_a10) = false ∧
  (-2 ≤ 0)%Z ∧
  (∃ st' b',
     visit eval_true frame_a10 P1 1%positive ∅
       (final_store (ignore 1%positive P1 (-2) (armed bp_a10)))
     = Return (∅ ∪ {[1%positive]}) st' ∧
     objects st' !! 1%positive = Some b' ∧
     ignored b' !! P1 = Some (-2)%Z ∧
     hits b' = (hits (in_arms bp_a10) + 1)%Z) ∧
  temporary (in_arms bp_temporary) = true ∧
  registered (armed bp_temporary) 1%positive (in_arms bp_temporary) ∧
  ∃ st' b',
    visit eval_true frame_a10 P1 1%positive ∅
      (final_store (ignore 1%positive P1 0 (armed bp_temporary)))
    = Return (∅ ∪ {[1%positive]}) st' ∧
    objects st' !! 1%positive = Some b' ∧
    ignored b' !! P1 = Some 0%Z ∧
    hits b' = (hits (in_arms bp_temporary) + 1)%Z.
Proof.
  assert (H1 : objects (armed bp_a10) !! 1%positive = Some (in_arms bp_a10))
    by reflexivity.
  assert (H2 : enabled (in_arms bp_a10) !! P1 = Some true) by reflexivity.
  assert (H3 : trip (in_arms bp_a10) frame_a10 = Val true) by reflexivity.
  assert (H4 : passes eval_true (in_arms bp_a10) frame_a10) by (by left).
  assert (H5 : temporary (in_arms bp_a10) = false) by reflexivity.
  assert (H6 : (-2 ≤ 0)%Z) by lia.
  assert (H7 : temporary (in_arms bp_temporary) = true) by reflexivity.
  assert (H8 : registered (armed bp_temporary) 1%positive (in_arms bp_temporary))
    by (by apply armed_registered).
  split; [exact H1|]. split; [exact H2|]. split; [exact H3|]. split; [exact H4|].
  split; [exact H5|]. split; [exact H6|].
  split.
  { apply (nonpositive_ignore_fires eval_true P1 (-2) frame_a10 ∅ _ 1%positive _
             H1 H2 H3 H4); [|exact H6].
    intros Habs. rewrite H5 in Habs. discriminate. }
  split; [exact H7|]. split; [exact H8|].
  exact (nonpositive_ignore_fires eval_true P1 0 frame_a10 ∅
           (armed bp_temporary) 1%positive (in_arms bp_temporary)
           eq_refl eq_refl eq_refl (or_introl eq_refl) (λ _, H8) ltac:(lia)).
Defined.

(** An evaluator for which every condition is false. *)
Definition eval_false (_ : string) (_ _ : gmap string pyobject) : eval_result :=
  EvalYields false.

Lemma false_condition_only_counts_witness :
  let b := in_arms bp_temporary_boom in
  let st := armed bp_temporary_boom in
  objects st !! 1%positive = Some b ∧
  enabled b !! P1 = Some true ∧
  trip b frame_a10 = Val true ∧
  condition_set (condition b) = true ∧
  temporary b = true ∧
  visit eval_false frame_a10 P1 1%positive ∅ st
    = Return ∅ (with_object 1%positive (hit b) st) ∧
  _instances (with_object 1%positive (hit b) st) = _instances st.
Proof.
  intros b st.
  assert (H1 : objects st !! 1%positive = Some b) by reflexivity.
  assert (H2 : enabled b !! P1 = Some true) by reflexivity.
  assert (H3 : trip b frame_a10 = Val true) by reflexivity.
  assert (H4 : condition_set (condition b) = true) by reflexivity.
  destruct (false_condition_only_counts eval_false P1 frame_a10 ∅ st 1%positive b
              H1 H2 H3 H4 eq_refl) as (Hv & _ & _ & _ & _ & Hi & _).
  split; [exact H1|]. split; [exact H2|]. split; [exact H3|]. split; [exact H4|].
  split; [reflexivity|]. split; [exact Hv | exact Hi].
Defined.

Lemma reports_only_enabled_tripping_candidates_witness :
  ∃ st',
    relevant_loop eval_true frame_a10 P1 [1%positive] ∅ (armed bp_a10)
      = Return {[1%positive]} st' ∧
    (∅ : gset addr) ⊆ {[1%positive]} ∧
    ({[1%positive]} : gset addr) ⊆ ∅ ∪ list_to_set [1%positive].
Proof.
  eexists.
  assert (H : relevant_loop eval_true frame_a10 P1 [1%positive] ∅ (armed bp_a10)
              = Return {[1%positive]}
                  (final_store (relevant_loop eval_true frame_a10 P1 [1%positive] ∅
                                  (armed bp_a10)))) by (vm_compute; reflexivity).
  destruct (reports_only_enabled_tripping_candidates eval_true frame_a10 P1
              [1%positive] ∅ (armed bp_a10) _ _ H) as (Hl & Hu & _).
  split; [exact H|]. split; [exact Hl | exact Hu].
Defined.

End evaluator_edge_examples.

(** * Further properties of the stream hijacker *)

Section hijack_round_trips.

Import SysHijack.

Lemma with_endpoints_over i o e d i' o' e' d' sys :
  with_endpoints i o e d (with_endpoints i' o' e' d' sys) = with_endpoints i o e d sys.
Proof.
  apply map_eq. intros k. unfold with_endpoints. rewrite !lookup_insert.
  repeat case_decide; done.
Qed.

Lemma with_endpoints_same i o e d sys :
  has_endpoints sys i o e d → with_endpoints i o e d sys = sys.
Proof.
  intros (Hi & Ho & He & Hd). apply map_eq. intros k. unfold with_endpoints.
  rewrite !lookup_insert. repeat case_decide; congruence.
Qed.

Lemma has_endpoints_init_time sys now i o e d :
  has_endpoints sys i o e d → has_endpoints (<["_init_time" := now]> sys) i o e d.
Proof.
  intros (Hi & Ho & He & Hd). unfold has_endpoints.
  by rewrite !lookup_insert_ne.
Qed.

Lemma with_sys_hijacked ths t sys pi po pe pd now i0 o0 e0 d0 s :
  with_sys t s (hijacked ths t sys pi po pe pd now i0 o0 e0 d0) =
    {| thread_sys := <[t := s]> ths;
       slots := hijacked_slots t (ProxyIO pi po pe pd) i0 o0 e0 d0 |}.
Proof. unfold with_sys, hijacked. simpl. by rewrite insert_insert_eq. Qed.

(** The hijacker's world once it has been disposed of. *)
Definition disposed (ths : gmap thread (gmap string value)) (t : thread)
    (sys : gmap string value) (pi po pe pd : positive) (now i0 o0 e0 d0 : value) :
    world :=
  {| thread_sys := <[t := <["_init_time" := now]> sys]> ths;
     slots := hijacked_slots t (ProxyIO pi po pe pd) i0 o0 e0 d0 |}.

Lemma del_hijacked ths t sys pi po pe pd now i0 o0 e0 d0 :
  has_endpoints sys i0 o0 e0 d0 →
  _restore (hijacked ths t sys pi po pe pd now i0 o0 e0 d0) =
    Return tt (disposed ths t sys pi po pe pd now i0 o0 e0 d0).
Proof.
  intros Hsys.
  rewrite (restore_spec _ t _ i0 o0 e0 d0 (hijacked_targets _ _ _ _ _ _ _ _ _ _ _ _)
             eq_refl eq_refl eq_refl eq_refl).
  rewrite with_sys_hijacked, with_endpoints_over.
  by rewrite (with_endpoints_same _ _ _ _ _ (has_endpoints_init_time _ now _ _ _ _ Hsys)).
Qed.












(** X22: [_install] and [_restore] switch the target thread between two
    states and nothing else: on the hijacked world [_install] changes
    nothing, and [_restore] followed by [_install] gives the hijacked
    world back. *)
Theorem install_restore_switch ths t sys pi po pe pd now i0 o0 e0 d0 :
  has_endpoints sys i0 o0 e0 d0 →
  let w := hijacked ths t sys pi po pe pd now i0 o0 e0 d0 in
  let w' := disposed ths t sys pi po pe pd now i0 o0 e0 d0 in
  _install w = Return tt w ∧
  _restore w = Return tt w' ∧
  _install w' = Return tt w ∧
  (_restore;; _install) w = Return tt w ∧
  (_install;; _restore) w' = Return tt w'.
Proof.
  intros Hsys w w'.
  assert (Hw' : targets w' t (<["_init_time" := now]> sys)).
  { split; [reflexivity | apply lookup_insert_eq]. }
  assert (H1 : _install w = Return tt w).
  { unfold w.
    rewrite (install_spec _ t _ pi po pe pd
               (hijacked_targets _ _ _ _ _ _ _ _ _ _ _ _) eq_refl).
    by rewrite with_sys_hijacked, with_endpoints_over. }
  assert (H2 : _restore w = Return tt w') by by apply del_hijacked.
  assert (H3 : _install w' = Return tt w).
  { rewrite (install_spec w' t _ pi po pe pd Hw' eq_refl).
    unfold with_sys, w', disposed, w, hijacked. simpl.
    by rewrite insert_insert_eq. }
  split; [exact H1|]. split; [exact H2|]. split; [exact H3|].
  split.
  - by rewrite (hijack_bind_Return _ _ _ _ _ H2).
  - by rewrite (hijack_bind_Return _ _ _ _ _ H3).
Qed.

End hijack_round_trips.

Section hijack_attributes.

Import SysHijack.

(** X23: assigning to one of the accessor names on a hijacker does not
    change what the accessors return: the value goes to the target
    thread's sys-state under that name, the instance keeps its slots, and
    [_restore] afterwards still puts the four captured originals back. *)
Theorem assignment_to_accessor_is_forwarded
    ths t sys pi po pe pd now i0 o0 e0 d0 name v :
  name ∈ ["stdin"; "stdout"; "stderr"; "displayhook"] →
  has_endpoints sys i0 o0 e0 d0 →
  let w := hijacked ths t sys pi po pe pd now i0 o0 e0 d0 in
  ∃ w',
    __setattr__ name v w = Return tt w' ∧
    slots w' = slots w ∧
    (∃ sys', thread_sys w' !! t = Some sys' ∧ sys' !! name = Some v) ∧
    (stdin t w' = Return (Object pi) w' ∧ stdout t w' = Return (Object po) w' ∧
     stderr t w' = Return (Object pe) w' ∧ displayhook t w' = Return (Object pd) w') ∧
    (∀ u, u ≠ t →
       stdin u w' = Return i0 w' ∧ stdout u w' = Return o0 w' ∧
       stderr u w' = Return e0 w' ∧ displayhook u w' = Return d0 w') ∧
    _restore w' = Return tt (disposed ths t sys pi po pe pd now i0 o0 e0 d0).
Proof.
  intros Hname Hsys w.
  assert (Hno : name ∉ assignable_slots).
  { intros Hin. apply list_elem_of_In in Hname, Hin. simpl in Hname, Hin.
    destruct Hname as [<-|[<-|[<-|[<-|[]]]]];
      repeat (destruct Hin as [Hin|Hin]; [discriminate|]); done. }
  pose proof (hijacked_targets ths t sys pi po pe pd now i0 o0 e0 d0) as Hw.
  fold w in Hw.
  eexists. split; [by apply (setattr_forwarded name v w t _ Hw)|].
  split; [done|]. split.
  { eexists. split; [apply lookup_insert_eq | apply lookup_insert_eq]. }
  split.
  { repeat split;
      by apply (accessor_target _ _ _ (with_sys t _ w) t pi po pe pd). }
  split.
  { intros u Hu. repeat split; by apply (accessor_other _ _ _ (with_sys t _ w) t u). }
  rewrite (restore_spec _ t _ i0 o0 e0 d0 (targets_with_sys _ _ _ _ Hw)
             eq_refl eq_refl eq_refl eq_refl).
  rewrite with_sys_twice. unfold w. rewrite with_sys_hijacked. unfold disposed.
  do 3 f_equal.
  transitivity (with_endpoints i0 o0 e0 d0 (<["_init_time" := now]> sys));
    [|by apply with_endpoints_same, has_endpoints_init_time].
  apply map_eq. intros k. unfold with_endpoints. rewrite !lookup_insert.
  apply list_elem_of_In in Hname. simpl in Hname.
  destruct Hname as [<-|[<-|[<-|[<-|[]]]]]; repeat case_decide; done.
Qed.

(** X24: a slot of the instance holds what was last assigned to it,
    and assigning it leaves every thread's sys-state alone; reading a slot
    that was never assigned does not give [AttributeError] but ends in
    [__getattr__], which raises. *)
Theorem slots_hold_assignments name v w :
  name ∈ assignable_slots →
  (∃ w', __setattr__ name v w = Return tt w' ∧
         read_slot name w' = Return v w' ∧
         thread_sys w' = thread_sys w ∧
         (∀ other, other ≠ name → slots w' !! other = slots w !! other)) ∧
  (slots w !! name = None →
   ∃ e, read_slot name w = Raise e w ∧ e ≠ AttributeError).
Proof.
  intros Hin. split.
  - eexists. split; [by apply setattr_slot|].
    split; [apply read_slot_set; simpl; apply lookup_insert_eq|].
    split; [done|]. intros other Hne. simpl. by rewrite lookup_insert_ne.
  - intros Hn. unfold read_slot, mbind, M_bind, bind, get. rewrite Hn.
    unfold __getattr__, _thread_sys, _thread_state, mbind, M_bind, bind.
    unfold target_thread, getThreadState.
    destruct (slots w !! "_target_thread") as [[o|t|? ? ? ?]|];
      try (by eexists).
    destruct (decide (is_Some (thread_sys w !! t))); by eexists.
Qed.

(** X25: the constructor stops with [NameError] at line 26, and what it
    leaves is an instance with [_target_thread] alone, beside untouched
    sys-states.  On that instance [__del__], [_install], the four
    accessors for any calling thread and [__getattr__] for any name raise
    and change nothing: [TypeError] when the target thread has a
    sys-state, and the failure of [getThreadState] when it has none. *)
Theorem half_built_hijacker_raises ths t now :
  let w' := final_store (__init__ (ThreadRef t) now (blank ths)) in
  let e := if decide (is_Some (ths !! t)) then TypeError else TargetUnavailable in
  __init__ (ThreadRef t) now (blank ths) = Raise NameError w' ∧
  slots w' = {["_target_thread" := ThreadRef t]} ∧
  thread_sys w' = ths ∧
  __del__ w' = Raise e w' ∧
  _install w' = Raise e w' ∧
  (∀ name, __getattr__ name w' = Raise e w') ∧
  (∀ c, stdin c w' = Raise e w' ∧ stdout c w' = Raise e w' ∧
        stderr c w' = Raise e w' ∧ displayhook c w' = Raise e w').
Proof.
  intros w' e. subst w'. rewrite init_raises. simpl.
  set (w' := with_slot "_target_thread" (ThreadRef t) (blank ths)).
  assert (He : e ≠ AttributeError).
  { subst e. by destruct (decide (is_Some (ths !! t))). }
  assert (Htt : target_thread w' = Return (ThreadRef t) w') by reflexivity.
  assert (Hget : ∀ name, __getattr__ name w' = Raise e w').
  { intros name. unfold __getattr__, _thread_sys, _thread_state.
    unfold mbind, M_bind, bind. rewrite Htt. unfold getThreadState.
    change (thread_sys w') with ths. subst e.
    by destruct (decide (is_Some (ths !! t))). }
  assert (Hread : ∀ slot, slot ≠ "_target_thread" → read_slot slot w' = Raise e w').
  { intros slot Hne. unfold read_slot, mbind, M_bind, bind, get.
    change (slots w' !! slot) with ((<["_target_thread" := ThreadRef t]> ∅ :
                                       gmap string value) !! slot).
    rewrite lookup_insert_ne by done. rewrite lookup_empty. apply Hget. }
  assert (Hacc : ∀ name slot c, slot ≠ "_target_thread" →
                                accessor name slot c w' = Raise e w').
  { intros name slot c Hne. unfold accessor. apply property_Raise; [|done].
    rewrite (hijack_bind_Return _ _ _ _ _ Htt).
    case_bool_decide.
    - by apply hijack_bind_Raise, Hread.
    - by apply Hread. }
  split; [done|]. split; [done|]. split; [done|].
  split.
  { unfold __del__, _restore. apply hijack_bind_Raise.
    unfold restore_one. by apply hijack_bind_Raise, Hread. }
  split.
  { unfold _install. apply hijack_bind_Raise.
    unfold install_one. by apply hijack_bind_Raise, Hread. }
  split; [exact Hget|].
  intros c. repeat split; by apply Hacc.
Qed.

End hijack_attributes.

Section hijack_frames.

Import SysHijack.

(** The loop of [_getframe]: go to the caller while [depth] is positive
    and there is a frame; [n] is [depth] when positive, and 0 otherwise. *)
Fixpoint walk_back (n : nat) (fr : option Breakpoint.frame) :
    option Breakpoint.frame :=
  match n, fr with
  | O, _ => fr
  | S n', Some f => walk_back n' (Breakpoint.f_back f)
  | S _, None => None
  end.

(** [_getframe(depth)]; [thread_frame] gives the [frame] attribute of a
    thread's state, which is [None] for a thread that runs no Python
    code. *)
Definition _getframe (thread_frame : thread → option Breakpoint.frame)
    (depth : Z) : M (option Breakpoint.frame) :=
  t ← _thread_state;
  mret (walk_back (Z.to_nat depth) (thread_frame t)).

Lemma walk_back_succ n fr :
  walk_back (S n) fr = walk_back n fr ≫= Breakpoint.f_back.
Proof.
  revert fr. induction n as [|n IH]; intros fr.
  - by destruct fr.
  - destruct fr as [f|]; [|done].
    change (walk_back (S (S n)) (Some f))
      with (walk_back (S n) (Breakpoint.f_back f)).
    by rewrite IH.
Qed.

Lemma walk_back_stays_None n m fr :
  walk_back n fr = None → n ≤ m → walk_back m fr = None.
Proof.
  intros Hn Hle. induction Hle as [|m Hle IH]; [done|].
  by rewrite walk_back_succ, IH.
Qed.

(** X26: [_getframe] reads the stack of the target thread and changes
    nothing: a depth of zero or less gives the thread's current frame, the
    frame at depth [d + 1] is the caller of the frame at depth [d], and
    past the outermost frame the result is [None] at every larger
    depth. *)
Theorem getframe_walks_callers thread_frame w t sys :
  targets w t sys →
  (∀ d, (d ≤ 0)%Z → _getframe thread_frame d w = Return (thread_frame t) w) ∧
  (∀ d, (0 ≤ d)%Z →
     ∃ f, _getframe thread_frame d w = Return f w ∧
          _getframe thread_frame (d + 1) w = Return (f ≫= Breakpoint.f_back) w) ∧
  (∀ d d', (0 ≤ d ≤ d')%Z →
     _getframe thread_frame d w = Return None w →
     _getframe thread_frame d' w = Return None w).
Proof.
  intros Hw.
  assert (Hts : _thread_state w = Return t w).
  { pose proof (thread_sys_targets _ _ _ Hw) as H. done. }
  assert (Hget : ∀ d, _getframe thread_frame d w =
                      Return (walk_back (Z.to_nat d) (thread_frame t)) w).
  { intros d. unfold _getframe. by rewrite (hijack_bind_Return _ _ _ _ _ Hts). }
  split; [|split].
  - intros d Hd. rewrite Hget. by replace (Z.to_nat d) with 0 by lia.
  - intros d Hd. eexists. split; [apply Hget|]. rewrite Hget.
    replace (Z.to_nat (d + 1)) with (S (Z.to_nat d)) by lia.
    by rewrite walk_back_succ.
  - intros d d' Hd. rewrite !Hget. intros [= H]. f_equal.
    apply (walk_back_stays_None (Z.to_nat d)); [done | lia].
Qed.

End hijack_frames.

Section hijack_other_threads.

Import SysHijack.

(** A computation that leaves the sys-state of thread [u] and the target
    of the instance as they are, when [u] is not the target. *)
Definition spares (u : thread) {X} (m : M X) : Prop :=
  ∀ w, slots w !! "_target_thread" ≠ Some (ThreadRef u) →
       thread_sys (final_store (m w)) !! u = thread_sys w !! u ∧
       slots (final_store (m w)) !! "_target_thread" = slots w !! "_target_thread".

Lemma spares_ret u {X} (x : X) : spares u (mret x).
Proof. by intros w Hw. Qed.

Lemma spares_bind u {X Y} (m : M X) (k : X → M Y) :
  spares u m → (∀ x, spares u (k x)) → spares u (m ≫= k).
Proof.
  intros Hm Hk w Hw. unfold mbind, M_bind, bind.
  destruct (Hm w Hw) as [H1 H2].
  destruct (m w) as [x w1|e w1]; simpl in *; [|done].
  destruct (Hk x w1) as [H3 H4]; [congruence|]. split; congruence.
Qed.

Lemma spares_read_slot u name : spares u (read_slot name).
Proof.
  intros w Hw. unfold read_slot, mbind, M_bind, bind, get.
  destruct (slots w !! name); [done|].
  destruct (getattr_raises name w) as [e ->]. done.
Qed.

Lemma spares_proxy_getattr u proxy name : spares u (proxy_getattr proxy name).
Proof.
  intros w Hw. unfold proxy_getattr. destruct proxy; try done.
  repeat case_match; done.
Qed.

(** [setattr(self._thread_sys, name, v)] *)
Lemma spares_forward u name v : spares u (t ← _thread_sys; sys_setattr t name v).
Proof.
  intros w Hw. unfold _thread_sys, _thread_state, mbind, M_bind, bind.
  unfold target_thread, getThreadState, sys_setattr.
  destruct (slots w !! "_target_thread") as [[o|t|? ? ? ?]|] eqn:Hs; try done.
  destruct (decide (is_Some (thread_sys w !! t))) as [[sys Hsys]|]; [|done].
  rewrite Hsys. simpl. split; [|done].
  rewrite lookup_insert_ne; [done|]. intros ->. by apply Hw.
Qed.

Lemma spares_install_one u name : spares u (install_one name).
Proof.
  unfold install_one. apply spares_bind; [apply spares_read_slot|]. intros proxy.
  apply spares_bind; [apply spares_proxy_getattr|]. intros v.
  apply spares_forward.
Qed.

Lemma spares_restore_one u name slot : spares u (restore_one name slot).
Proof.
  unfold restore_one. apply spares_bind; [apply spares_read_slot|]. intros v.
  apply spares_forward.
Qed.

Lemma spares_property u name fget : spares u fget → spares u (property name fget).
Proof.
  intros Hm w Hw. specialize (Hm w Hw). unfold property.
  destruct (fget w) as [x w1|e w1]; [done|].
  destruct e; try done.
  by destruct (getattr_raises name w1) as [e' ->].
Qed.

(** X27: apart from assigning the slot [_target_thread] itself, nothing
    a hijacker does writes to a thread other than its target:
    [__setattr__], [_install], [_restore], [__del__], [__getattr__] and the
    four accessors leave the sys-state of every other thread as it was,
    however they end. *)
Theorem other_threads_are_spared u w :
  slots w !! "_target_thread" ≠ Some (ThreadRef u) →
  (∀ name v, name ≠ "_target_thread" →
     thread_sys (final_store (__setattr__ name v w)) !! u = thread_sys w !! u) ∧
  thread_sys (final_store (_install w)) !! u = thread_sys w !! u ∧
  thread_sys (final_store (_restore w)) !! u = thread_sys w !! u ∧
  thread_sys (final_store (__del__ w)) !! u = thread_sys w !! u ∧
  (∀ name, thread_sys (final_store (__getattr__ name w)) !! u = thread_sys w !! u) ∧
  (∀ c, thread_sys (final_store (stdin c w)) !! u = thread_sys w !! u ∧
        thread_sys (final_store (stdout c w)) !! u = thread_sys w !! u ∧
        thread_sys (final_store (stderr c w)) !! u = thread_sys w !! u ∧
        thread_sys (final_store (displayhook c w)) !! u = thread_sys w !! u).
Proof.
  intros Hw.
  assert (Hinstall : spares u _install).
  { unfold _install. repeat (apply spares_bind; [apply spares_install_one|]; intros _).
    apply spares_install_one. }
  assert (Hrestore : spares u _restore).
  { unfold _restore. repeat (apply spares_bind; [apply spares_restore_one|]; intros _).
    apply spares_restore_one. }
  assert (Hacc : ∀ name slot c, spares u (accessor name slot c)).
  { intros name slot c. unfold accessor. apply spares_property.
    intros w0 Hw0. unfold mbind, M_bind, bind, target_thread.
    destruct (slots w0 !! "_target_thread") as [target|] eqn:Hs; [|done].
    assert (Hw1 : slots w0 !! "_target_thread" ≠ Some (ThreadRef u))
      by by rewrite Hs.
    case_bool_decide.
    - pose proof (spares_bind u (read_slot "_io_proxy")
                    (λ proxy, proxy_getattr proxy name)
                    (spares_read_slot u _)
                    (λ proxy, spares_proxy_getattr u proxy name) w0 Hw1) as H0.
      unfold mbind, M_bind, bind in H0. by rewrite Hs in H0.
    - pose proof (spares_read_slot u slot w0 Hw1) as H0. by rewrite Hs in H0. }
  split.
  { intros name v Hne. unfold __setattr__. case_bool_decide.
    - done.
    - by apply (spares_forward u name v w). }
  split; [by apply Hinstall|]. split; [by apply Hrestore|].
  split; [by apply Hrestore|]. split.
  { intros name. by destruct (getattr_raises name w) as [e ->]. }
  intros c. repeat split; by apply Hacc.
Qed.

End hijack_other_threads.

Section hijack_more_examples.

Import SysHijack.

Definition disposed_main : world :=
  disposed two_threads 1%positive sys_main 20 21 22 23 (Object 30)
    (Object 10) (Object 11) (Object 12) (Object 13).


Lemma install_restore_switch_witness :
  has_endpoints sys_main (Object 10) (Object 11) (Object 12) (Object 13) ∧
  _restore hijacked_main = Return tt disposed_main ∧
  _install disposed_main = Return tt hijacked_main ∧
  _install hijacked_main = Return tt hijacked_main.
Proof.
  pose proof sys_main_endpoints as H.
  destruct (install_restore_switch two_threads 1%positive sys_main
              20 21 22 23 (Object 30) _ _ _ _ H) as (H1 & H2 & H3 & _).
  split; [exact H|]. split; [exact H2|]. split; [exact H3 | exact H1].
Defined.

Lemma assignment_to_accessor_is_forwarded_witness :
  "stdout" ∈ ["stdin"; "stdout"; "stderr"; "displayhook"] ∧
  has_endpoints sys_main (Object 10) (Object 11) (Object 12) (Object 13) ∧
  ∃ w',
    __setattr__ "stdout" (Object 99) hijacked_main = Return tt w' ∧
    (∃ sys', thread_sys w' !! 1%positive = Some sys' ∧
             sys' !! "stdout" = Some (Object 99)) ∧
    stdout 1%positive w' = Return (Object 21) w' ∧
    stdout 2%positive w' = Return (Object 11) w' ∧
    _restore w' = Return tt disposed_main.
Proof.
  assert (H1 : "stdout" ∈ ["stdin"; "stdout"; "stderr"; "displayhook"]).
  { apply list_elem_of_further, list_elem_of_here. }
  pose proof sys_main_endpoints as H2.
  destruct (assignment_to_accessor_is_forwarded two_threads 1%positive sys_main
              20 21 22 23 (Object 30) _ _ _ _ "stdout" (Object 99) H1 H2)
    as (w' & Hset & _ & Hsys & (_ & Hin & _) & Hother & Hrestore).
  destruct (Hother 2%positive ltac:(discriminate)) as (_ & Hout & _).
  split; [exact H1|]. split; [exact H2|]. exists w'.
  split; [exact Hset|]. split; [exact Hsys|]. split; [exact Hin|].
  split; [exact Hout | exact Hrestore].
Defined.

Lemma slots_hold_assignments_witness :
  "_original_stdout" ∈ assignable_slots ∧
  slots (blank two_threads) !! "_original_stdout" = None ∧
  (∃ w', __setattr__ "_original_stdout" (Object 7) (blank two_threads)
           = Return tt w' ∧
         read_slot "_original_stdout" w' = Return (Object 7) w') ∧
  ∃ e, read_slot "_original_stdout" (blank two_threads)
         = Raise e (blank two_threads) ∧ e ≠ AttributeError.
Proof.
  assert (H1 : "_original_stdout" ∈ assignable_slots) by by apply is_slot.
  assert (H2 : slots (blank two_threads) !! "_original_stdout" = None)
    by reflexivity.
  destruct (slots_hold_assignments "_original_stdout" (Object 7)
              (blank two_threads) H1) as ((w' & Hset & Hread & _) & Hunset).
  split; [exact H1|]. split; [exact H2|].
  split; [exists w'; by split | exact (Hunset H2)].
Defined.

Lemma getframe_walks_callers_witness :
  let tf := λ _ : thread, Some frame_foo_entry in
  (∃ sys, targets hijacked_main 1%positive sys) ∧
  _getframe tf 0 hijacked_main = Return (Some frame_foo_entry) hijacked_main ∧
  ∃ f, _getframe tf 1 hijacked_main = Return f hijacked_main ∧
       _getframe tf (1 + 1) hijacked_main
         = Return (f ≫= Breakpoint.f_back) hijacked_main.
Proof.
  intros tf.
  pose proof (hijacked_targets two_threads 1%positive sys_main 20 21 22 23
                (Object 30) (Object 10) (Object 11) (Object 12) (Object 13)) as H.
  fold hijacked_main in H.
  destruct (getframe_walks_callers tf hijacked_main 1%positive _ H)
    as (Hzero & Hnext & _).
  split; [by eexists|]. split; [exact (Hzero 0%Z ltac:(lia))|].
  exact (Hnext 1%Z ltac:(lia)).
Defined.

Lemma other_threads_are_spared_witness :
  slots hijacked_main !! "_target_thread" ≠ Some (ThreadRef 2%positive) ∧
  thread_sys (final_store (__setattr__ "stdout" (Object 99) hijacked_main))
    !! 2%positive = thread_sys hijacked_main !! 2%positive ∧
  thread_sys (final_store (_restore hijacked_main)) !! 2%positive
    = thread_sys hijacked_main !! 2%positive.
Proof.
  assert (H : slots hijacked_main !! "_target_thread" ≠ Some (ThreadRef 2%positive))
    by discriminate.
  destruct (other_threads_are_spared 2%positive hijacked_main H)
    as (Hset & _ & Hrestore & _).
  split; [exact H|]. split; [|exact Hrestore].
  apply Hset. discriminate.
Defined.

End hijack_more_examples.
